(** * ScaleFS core: a shallow embedding of kernel/fs.cc and kernel/scalefs.cc

    The development follows the two source files.  Part I holds the
    definitions (machine integers, the outcome monad, the free-block
    allocator, the inode block map, the journal, the reclaim list and the
    rename resolver); Part II holds the theorems.

    Conventions.
    - A [u32], [u64] or [int] of the source is a [Z]; every place where the
      source can wrap around applies [u32], [u64] or [s32] explicitly.
    - Code that can [panic], throw, sleep forever on a lock, or read an
      uninitialised pointer returns an [outcome].
    - The code is modelled as one thread runs it: a [cmpxch] succeeds exactly
      when the location holds the expected value, and a lock that is held
      when a thread goes to sleep on it is never released.
    - Constants that live in headers outside the two files (fs.h,
      scalefs.hh) are fields of the class [fs_params]. *)

From Stdlib Require Import ZArith Lia String Ascii.
From stdpp Require Import base list gmap sorting.

Open Scope Z_scope.

(** ** Part I. Definitions *)

(** *** Machine integers *)

Definition u32 (x : Z) : Z := x mod 2 ^ 32.
Definition u64 (x : Z) : Z := x mod 2 ^ 64.
(** [int]: two's complement on 32 bits. *)
Definition s32 (x : Z) : Z := (x + 2 ^ 31) mod 2 ^ 32 - 2 ^ 31.

(** *** Constants of the missing headers *)

Class fs_params := {
  BSIZE : Z;               (* fs.h: block size in bytes *)
  NDIRECT : Z;             (* fs.h: direct block addresses of an inode *)
  NINDIRECT : Z;           (* fs.h: u32 entries of an indirect block *)
  MAXFILE : Z;             (* fs.h: largest file, in blocks *)
  T_DEV : Z;               (* stat.h: inode type of a device node *)
  JHDR_SIZE : Z;           (* sizeof(journal_block_header) *)
  PHYS_JOURNAL_SIZE : Z;   (* scalefs.hh: bytes of /sv6journal *)
  NRECLAIM_INODES : Z;     (* fs.h: slots of superblock.reclaim_inodes *)
  jrnl_start : Z;          (* scalefs.hh: journal header types *)
  jrnl_data : Z;
  jrnl_commit : Z;
  EXCEPTIONS : bool;       (* build flag tested by throw_out_of_blocks *)
  BPB : Z;                 (* fs.h: bitmap bits per block *)
  BBLOCK : Z -> Z -> Z     (* fs.h: BBLOCK(b, ninodes), the bitmap block of b *)
}.

(** *** Outcomes *)

Inductive failure : Type :=
| Panic (msg : string)          (* panic(...) or a failed assert *)
| OutOfBlocks                   (* the out_of_blocks exception in flight *)
| OutOfRange                    (* std::out_of_range from vector::at *)
| Blocked                       (* asleep on a lock nobody will release *)
| Undefined (why : string)      (* undefined behaviour of the C++ *)
| Diverges.                     (* a loop that does not end *)

Inductive outcome (A : Type) : Type :=
| Ok (a : A)
| Fail (f : failure).
Arguments Ok {A} a.
Arguments Fail {A} f.

(** *** The free-block allocator (scalefs.cc) *)

(** A [free_bit]: the block number and whether the block is free.  The
    per-bit [write_lock] has no sequential content. *)
Record free_bit := { bno_ : Z; is_free : bool }.

(** The two representations.  [free_bit_vector] owns the bits, one per block
    and indexed by block number; [free_bit_freelist] links bits of the
    vector, so its elements are references: positions in the vector. *)
Record allocator := {
  free_bit_vector : list free_bit;
  free_bit_freelist : list nat
}.

Definition set_is_free (f : bool) (b : free_bit) : free_bit :=
  {| bno_ := bno_ b; is_free := f |}.

(** [mfs_interface::alloc_block]; [sb_size] is what [get_superblock] reads
    from [sb_root.size]. *)
Definition alloc_block (sb_size : Z) (a : allocator) : outcome (Z * allocator) :=
  match free_bit_freelist a with
  | it :: rest =>
      match free_bit_vector a !! it with
      | Some b =>
          if is_free b then
            Ok (bno_ b,
                {| free_bit_vector := <[it := set_is_free false b]> (free_bit_vector a);
                   free_bit_freelist := rest |})
          else Fail (Panic "assert(it->is_free == true)")
      | None => Fail (Undefined "dangling free_bit")
      end
  | [] => Ok (sb_size, a)
  end.

(** [mfs_interface::free_block]. *)
Definition free_block (bno : Z) (a : allocator) : outcome allocator :=
  match free_bit_vector a !! Z.to_nat bno with
  | None => Fail OutOfRange
  | Some bit =>
      if is_free bit then Fail (Panic "freeing free block")
      else Ok {| free_bit_vector :=
                   <[Z.to_nat bno := set_is_free true bit]> (free_bit_vector a);
                 free_bit_freelist := Z.to_nat bno :: free_bit_freelist a |}
  end.

(** The two representations that [initialize_free_bit_vector] builds for a
    bitmap given as one [bool] per block ([true]: the bit is set, the block
    is in use): bit [i] gets block number [i], and the free ones are pushed
    to the back of the freelist in increasing order. *)
Fixpoint init_bits (b : nat) (bitmap : list bool) : list free_bit * list nat :=
  match bitmap with
  | [] => ([], [])
  | used :: rest =>
      let '(v, fl) := init_bits (S b) rest in
      ({| bno_ := Z.of_nat b; is_free := negb used |} :: v,
       if used then fl else b :: fl)
  end.

Definition free_bits_of_bitmap (bitmap : list bool) : allocator :=
  let '(v, fl) := init_bits 0 bitmap in
  {| free_bit_vector := v; free_bit_freelist := fl |}.

(** The allocator invariant of the data model: the freelist has no
    repetition and links exactly the bits that are marked free, and bit [i]
    of the vector carries block number [i]. *)
Definition freelist_inv (a : allocator) : Prop :=
  NoDup (free_bit_freelist a) /\
  (forall i : nat, i ∈ free_bit_freelist a <->
     exists b, free_bit_vector a !! i = Some b /\ is_free b = true) /\
  (forall (i : nat) b, free_bit_vector a !! i = Some b -> bno_ b = Z.of_nat i).

(** How often a reference occurs in the freelist. *)
Fixpoint occurrences (i : nat) (l : list nat) : nat :=
  match l with
  | [] => 0%nat
  | x :: r => ((if decide (x = i) then 1 else 0) + occurrences i r)%nat
  end.

(** *** Blocks, transactions, inodes (fs.cc) *)

(** A disk block: [BSIZE] bytes.  Block pointers ([u32*]) read it as
    little-endian words. *)
Definition block := list Z.

Definition byte_at (d : block) (i : Z) : Z := default 0 (d !! Z.to_nat i).

(** [((u32* )d)[i]] *)
Definition rd32 (d : block) (i : Z) : Z :=
  byte_at d (4 * i) + 2 ^ 8 * byte_at d (4 * i + 1)
  + 2 ^ 16 * byte_at d (4 * i + 2) + 2 ^ 24 * byte_at d (4 * i + 3).

(** [((u32* )d)[i] = v] *)
Definition wr32 (d : block) (i v : Z) : block :=
  <[Z.to_nat (4 * i + 3) := (v / 2 ^ 24) mod 2 ^ 8]>
  (<[Z.to_nat (4 * i + 2) := (v / 2 ^ 16) mod 2 ^ 8]>
  (<[Z.to_nat (4 * i + 1) := (v / 2 ^ 8) mod 2 ^ 8]>
  (<[Z.to_nat (4 * i) := v mod 2 ^ 8]> d))).

(** [memmove(d + o, src, m)], the source given as the bytes behind the
    pointer. *)
Fixpoint memmove_at (d : block) (o : nat) (src : Z -> Z) (k : Z) (m : nat) : block :=
  match m with
  | O => d
  | S m' => memmove_at (<[o := src k]> d) (S o) src (k + 1) m'
  end.

(** The logical operations of the oplog (scalefs.hh); each carries its
    timestamp. *)
Inductive mfs_operation : Type :=
| mfs_operation_create (timestamp mnode_mnum parent_mnum mnode_type : Z)
| mfs_operation_link (timestamp mnode_mnum parent_mnum : Z) (name : string) (mnode_type : Z)
| mfs_operation_unlink (timestamp mnode_mnum parent_mnum : Z) (name : string)
| mfs_operation_rename_barrier (timestamp mnode_mnum parent_mnum : Z)
| mfs_operation_rename_link
    (timestamp mnode_mnum src_parent_mnum dst_parent_mnum : Z) (newname : string)
    (mnode_type : Z)
| mfs_operation_rename_unlink
    (timestamp mnode_mnum src_parent_mnum dst_parent_mnum : Z) (name : string)
| mfs_operation_delete (timestamp mnode_mnum : Z).

Definition op_timestamp (op : mfs_operation) : Z :=
  match op with
  | mfs_operation_create t _ _ _ | mfs_operation_link t _ _ _ _
  | mfs_operation_unlink t _ _ _ | mfs_operation_rename_barrier t _ _
  | mfs_operation_rename_link t _ _ _ _ _ | mfs_operation_rename_unlink t _ _ _ _
  | mfs_operation_delete t _ => t
  end.

(** The class [transaction] is declared in scalefs.hh.  [blocks] are the
    [transaction_diskblock]s (block number, payload).  [applied_ops] is not a
    member of the class: it records, in order, the logical operations whose
    [apply(tr)] ran on this transaction, standing for the block updates
    those calls enrol. *)
Record transaction := {
  timestamp_ : Z;
  blocks : list (Z * block);
  allocated_block_list : list Z;
  free_block_list : list Z;
  applied_ops : list mfs_operation
}.

Definition new_transaction (ts : Z) : transaction :=
  {| timestamp_ := ts; blocks := []; allocated_block_list := [];
     free_block_list := []; applied_ops := [] |}.

Definition set_blocks (bs : list (Z * block)) (t : transaction) : transaction :=
  {| timestamp_ := timestamp_ t; blocks := bs;
     allocated_block_list := allocated_block_list t;
     free_block_list := free_block_list t; applied_ops := applied_ops t |}.

(** Modelled from the spec: [transaction::add_allocated_block] (scalefs.hh is
    missing) records a newly allocated block number in the transaction. *)
Definition add_allocated_block (b : Z) (t : transaction) : transaction :=
  {| timestamp_ := timestamp_ t; blocks := blocks t;
     allocated_block_list := allocated_block_list t ++ [b];
     free_block_list := free_block_list t; applied_ops := applied_ops t |}.

(** Modelled from the spec: [transaction::add_free_block] (scalefs.hh is
    missing) records a to-be-freed block number in the transaction. *)
Definition add_free_block (b : Z) (t : transaction) : transaction :=
  {| timestamp_ := timestamp_ t; blocks := blocks t;
     allocated_block_list := allocated_block_list t;
     free_block_list := free_block_list t ++ [b]; applied_ops := applied_ops t |}.

(** Modelled from the spec: [transaction::add_block] (scalefs.hh is missing)
    appends one (blocknum, payload) diskblock. *)
Definition add_block (bno : Z) (d : block) (t : transaction) : transaction :=
  set_blocks (blocks t ++ [(bno, d)]) t.

(** Modelled from the spec: [transaction::add_blocks] (scalefs.hh is missing)
    moves a vector of diskblocks to the end of the transaction's. *)
Definition add_blocks (bs : list (Z * block)) (t : transaction) : transaction :=
  set_blocks (blocks t ++ bs) t.

(** Modelled from the spec: [transaction::add_unique_block] (scalefs.hh is
    missing), reached through [buf::add_to_transaction], enrols the block's
    current contents; a block that is already enrolled keeps its place and
    takes the new contents. *)
Fixpoint replace_block (bno : Z) (d : block) (bs : list (Z * block)) : option (list (Z * block)) :=
  match bs with
  | [] => None
  | (b, x) :: r =>
      if decide (b = bno) then Some ((b, d) :: r)
      else (fun r' => (b, x) :: r') <$> replace_block bno d r
  end.

Definition add_unique_block (bno : Z) (d : block) (t : transaction) : transaction :=
  match replace_block bno d (blocks t) with
  | Some bs => set_blocks bs t
  | None => add_block bno d t
  end.

Definition record_op (op : mfs_operation) (t : transaction) : transaction :=
  {| timestamp_ := timestamp_ t; blocks := blocks t;
     allocated_block_list := allocated_block_list t;
     free_block_list := free_block_list t; applied_ops := applied_ops t ++ [op] |}.

(** [struct superblock] (fs.h). *)
Record superblock := {
  sb_size : Z;
  sb_ninodes : Z;
  sb_nblocks : Z;
  reclaim_inodes : list Z;
  num_reclaim_inodes : Z
}.

(** [struct dinode] and the in-memory [inode]. *)
Record dinode := {
  d_type : Z; d_major : Z; d_minor : Z; d_nlink : Z; d_size : Z; d_gen : Z;
  d_addrs : list Z
}.

Record inode := {
  i_dev : Z; i_inum : Z;
  i_type : Z; i_major : Z; i_minor : Z; i_nlink : Z; i_size : Z; i_gen : Z;
  i_addrs : list Z;             (* NDIRECT + 2 entries *)
  i_iaddrs : option block;      (* the cached indirect block, or nullptr *)
  i_busy : bool; i_readbusy : Z; i_valid : bool
}.

Definition addr_get (l : list Z) (i : Z) : Z := default 0 (l !! Z.to_nat i).

Definition set_addrs (l : list Z) (ip : inode) : inode :=
  {| i_dev := i_dev ip; i_inum := i_inum ip; i_type := i_type ip;
     i_major := i_major ip; i_minor := i_minor ip; i_nlink := i_nlink ip;
     i_size := i_size ip; i_gen := i_gen ip; i_addrs := l;
     i_iaddrs := i_iaddrs ip; i_busy := i_busy ip; i_readbusy := i_readbusy ip;
     i_valid := i_valid ip |}.

Definition set_iaddrs (ia : option block) (ip : inode) : inode :=
  {| i_dev := i_dev ip; i_inum := i_inum ip; i_type := i_type ip;
     i_major := i_major ip; i_minor := i_minor ip; i_nlink := i_nlink ip;
     i_size := i_size ip; i_gen := i_gen ip; i_addrs := i_addrs ip;
     i_iaddrs := ia; i_busy := i_busy ip; i_readbusy := i_readbusy ip;
     i_valid := i_valid ip |}.

Definition set_size (sz : Z) (ip : inode) : inode :=
  {| i_dev := i_dev ip; i_inum := i_inum ip; i_type := i_type ip;
     i_major := i_major ip; i_minor := i_minor ip; i_nlink := i_nlink ip;
     i_size := sz; i_gen := i_gen ip; i_addrs := i_addrs ip;
     i_iaddrs := i_iaddrs ip; i_busy := i_busy ip; i_readbusy := i_readbusy ip;
     i_valid := i_valid ip |}.

(** *** The state the block-level routines of fs.cc run on

    [fs_ip] is the inode object behind the argument [ip] and [fs_trans] the
    transaction object behind the argument [trans] ([None]: a null
    pointer); both are mutated in place by the source.  [fs_bufs] gives each
    block of device 1 as [buf::get] shows it. *)
Record fs := {
  fs_alloc : allocator;
  fs_sb_root : superblock;
  fs_bufs : Z -> block;
  fs_ip : inode;
  fs_trans : option transaction;
  fs_console : list string
}.

Definition set_alloc (a : allocator) (s : fs) : fs :=
  {| fs_alloc := a; fs_sb_root := fs_sb_root s; fs_bufs := fs_bufs s;
     fs_ip := fs_ip s; fs_trans := fs_trans s; fs_console := fs_console s |}.
Definition set_bufs (b : Z -> block) (s : fs) : fs :=
  {| fs_alloc := fs_alloc s; fs_sb_root := fs_sb_root s; fs_bufs := b;
     fs_ip := fs_ip s; fs_trans := fs_trans s; fs_console := fs_console s |}.
Definition set_ip (ip : inode) (s : fs) : fs :=
  {| fs_alloc := fs_alloc s; fs_sb_root := fs_sb_root s; fs_bufs := fs_bufs s;
     fs_ip := ip; fs_trans := fs_trans s; fs_console := fs_console s |}.
Definition set_trans (t : option transaction) (s : fs) : fs :=
  {| fs_alloc := fs_alloc s; fs_sb_root := fs_sb_root s; fs_bufs := fs_bufs s;
     fs_ip := fs_ip s; fs_trans := t; fs_console := fs_console s |}.
Definition set_console (c : list string) (s : fs) : fs :=
  {| fs_alloc := fs_alloc s; fs_sb_root := fs_sb_root s; fs_bufs := fs_bufs s;
     fs_ip := fs_ip s; fs_trans := fs_trans s; fs_console := c |}.

(** The state-and-failure monad of the embedding: the state survives a
    failure, as the effects of a C++ call survive the exception it throws. *)
Definition M (S A : Type) : Type := S -> outcome A * S.

Definition ret {S A} (a : A) : M S A := fun s => (Ok a, s).
Definition bind {S A B} (m : M S A) (k : A -> M S B) : M S B :=
  fun s => match m s with
           | (Ok a, s') => k a s'
           | (Fail e, s') => (Fail e, s')
           end.
Definition fail {S A} (e : failure) : M S A := fun s => (Fail e, s).
Definition gets {S A} (f : S -> A) : M S A := fun s => (Ok (f s), s).
Definition modify {S} (f : S -> S) : M S unit := fun s => (Ok tt, f s).
(** [try { m } catch (out_of_blocks&) { h }] *)
Definition catch_out_of_blocks {S A} (m h : M S A) : M S A :=
  fun s => match m s with
           | (Fail OutOfBlocks, s') => h s'
           | r => r
           end.

Declare Scope fs_scope.
Delimit Scope fs_scope with fs.
Notation "x <- m ;; k" := (bind m (fun x => k))
  (at level 100, m at next level, right associativity) : fs_scope.
Notation "m ;; k" := (bind m (fun _ => k))
  (at level 100, right associativity) : fs_scope.
Open Scope fs_scope.

Definition when {S} (b : bool) (m : M S unit) : M S unit := if b then m else ret tt.

(** [for (int i = lo; i < hi; i++) body(i)] *)
Fixpoint for_loop {S} (n : nat) (i : Z) (body : Z -> M S unit) : M S unit :=
  match n with
  | O => ret tt
  | S n' => body i ;; for_loop n' (i + 1) body
  end.
Definition for_range {S} (lo hi : Z) (body : Z -> M S unit) : M S unit :=
  for_loop (Z.to_nat (hi - lo)) lo body.


Definition upd (f : Z -> block) (k : Z) (v : block) : Z -> block :=
  fun j => if decide (j = k) then v else f j.

Definition buf_read (bno : Z) : M fs block := gets (fun s => fs_bufs s bno).
Definition buf_write (bno : Z) (d : block) : M fs unit :=
  modify (fun s => set_bufs (upd (fs_bufs s) bno d) s).
Definition with_trans (f : transaction -> transaction) : M fs unit :=
  modify (fun s => set_trans (f <$> fs_trans s) s).
Definition has_trans : M fs bool := gets (fun s => bool_decide (is_Some (fs_trans s))).
(** [bp->add_to_transaction(trans)] for the buf of block [bno]. *)
Definition buf_add_to_transaction (bno : Z) : M fs unit :=
  d <- buf_read bno ;; with_trans (add_unique_block (u32 bno) d).
Definition modify_ip (f : inode -> inode) : M fs unit :=
  modify (fun s => set_ip (f (fs_ip s)) s).
Definition set_addr (i v : Z) : M fs unit :=
  modify_ip (fun ip => set_addrs (<[Z.to_nat i := v]> (i_addrs ip)) ip).
Definition cprintf (msg : string) : M fs unit :=
  modify (fun s => set_console (fs_console s ++ [msg]) s).

Section fs_cc.
Context `{fs_params}.

Definition IADDRSSZ : Z := 4 * NINDIRECT.
Definition BLOCKROUNDUP (off : Z) : Z :=
  if off mod BSIZE =? 0 then off / BSIZE else off / BSIZE + 1.

(** [bzero(dev, bno)] with [writeback == false]. *)
Definition bzero (dev bno : Z) : M fs unit :=
  buf_write bno (replicate (Z.to_nat BSIZE) 0).

Definition throw_out_of_blocks {A} : M fs A :=
  if EXCEPTIONS then fail OutOfBlocks else fail (Panic "out of blocks").

Definition alloc_block_m : M fs Z :=
  fun s => match alloc_block (sb_size (fs_sb_root s)) (fs_alloc s) with
           | Ok (b, a) => (Ok b, set_alloc a s)
           | Fail e => (Fail e, s)
           end.

Definition free_block_m (b : Z) : M fs unit :=
  fun s => match free_block b (fs_alloc s) with
           | Ok a => (Ok tt, set_alloc a s)
           | Fail e => (Fail e, s)
           end.

(** [balloc(dev, trans, zero_on_alloc)].  [b] is an [int] that receives a
    [u32] and is compared with the [u32] [sb_root.size], so the comparison is
    the unsigned one on the value [alloc_block] returned. *)
Definition balloc (dev : Z) (zero_on_alloc : bool) : M fs Z :=
  if dev =? 1 then
    b <- alloc_block_m ;;
    sz <- gets (fun s => sb_size (fs_sb_root s)) ;;
    if b <? sz then
      with_trans (add_allocated_block b) ;;
      when zero_on_alloc (bzero dev b) ;;
      ret b
    else throw_out_of_blocks
  else throw_out_of_blocks.

(** [bfree(dev, x, trans, delayed_free)] *)
Definition bfree (dev x : Z) (delayed_free : bool) : M fs unit :=
  let b := u32 x in
  if dev =? 1 then
    when (negb delayed_free) (free_block_m b) ;;
    with_trans (add_free_block b)
  else ret tt.

(** One of the two [for (;;)] loops of [bmap]'s doubly-indirect part, on
    entry [idx] of block [wb].  An empty entry is filled from [balloc] and the
    loop goes round again; every round that does so takes a bit off the
    freelist, which bounds the rounds. *)
Fixpoint bmap_entry (fuel : nat) (dev wb idx : Z) (zero : bool) : M fs Z :=
  match fuel with
  | O => fail Diverges
  | S fuel' =>
      d <- buf_read wb ;;
      if rd32 d idx =? 0 then
        a <- balloc dev zero ;;
        d' <- buf_read wb ;;
        buf_write wb (wr32 d' idx a) ;;
        t <- has_trans ;;
        when t (buf_add_to_transaction wb) ;;
        bmap_entry fuel' dev wb idx zero
      else ret (rd32 d idx)
  end.

Definition freelist_length : M fs nat :=
  gets (fun s => length (free_bit_freelist (fs_alloc s))).

(** [bmap(ip, bn, trans, zero_on_alloc)].  Each [cmpxch] installs the fresh
    address: the location was just read as 0 and no other thread runs. *)
Definition bmap (bn : Z) (zero_on_alloc : bool) : M fs Z :=
  ip <- gets fs_ip ;;
  let dev := i_dev ip in
  if bn <? NDIRECT then
    let addr := addr_get (i_addrs ip) bn in
    if addr =? 0 then
      a <- balloc dev zero_on_alloc ;; set_addr bn a ;; ret a
    else ret addr
  else
  let bn := u32 (bn - NDIRECT) in
  if bn <? NINDIRECT then
    match i_iaddrs ip with
    | None =>
        addr <- (let a0 := addr_get (i_addrs ip) NDIRECT in
                 if a0 =? 0 then
                   a <- balloc dev true ;; set_addr NDIRECT a ;; ret a
                 else ret a0) ;;
        d <- buf_read addr ;;
        modify_ip (set_iaddrs (Some (take (Z.to_nat IADDRSSZ) d)))
    | Some _ => ret tt
    end ;;
    ip <- gets fs_ip ;;
    let ia := default [] (i_iaddrs ip) in
    let addr := rd32 ia bn in
    if addr =? 0 then
      a <- balloc dev zero_on_alloc ;;
      let ia' := wr32 ia bn a in
      modify_ip (set_iaddrs (Some ia')) ;;
      t <- has_trans ;;
      (* charbuf: the bytes past IADDRSSZ are whatever the stack held *)
      when t (with_trans (add_block (addr_get (i_addrs ip) NDIRECT)
                (take (Z.to_nat BSIZE)
                   (ia' ++ replicate (Z.to_nat (BSIZE - IADDRSSZ)) 0)))) ;;
      ret a
    else ret addr
  else
  let bn := u32 (bn - NINDIRECT) in
  if bn >=? NINDIRECT * NINDIRECT then fail (Panic "bmap: out of range")
  else
    when (addr_get (i_addrs ip) (NDIRECT + 1) =? 0)
      (a <- balloc dev true ;; set_addr (NDIRECT + 1) a) ;;
    ip <- gets fs_ip ;;
    fl <- freelist_length ;;
    addr <- bmap_entry (S (S fl)) dev (addr_get (i_addrs ip) (NDIRECT + 1))
              (bn / NINDIRECT) true ;;
    fl <- freelist_length ;;
    bmap_entry (S (S fl)) dev addr (bn mod NINDIRECT) zero_on_alloc.

(** [itrunc(ip, offset, trans)].  Every [bfree] in it passes
    [delayed_free = true]. *)
Definition itrunc_direct (offset : Z) : M fs unit :=
  for_range (BLOCKROUNDUP offset) NDIRECT (fun i =>
    ip <- gets fs_ip ;;
    let a := addr_get (i_addrs ip) i in
    when (negb (a =? 0)) (bfree (i_dev ip) a true ;; set_addr i 0)).

(** The loop over the entries [lo .. NINDIRECT-1] of the block [bno], held
    for write: free and clear each entry that is set. *)
Definition itrunc_entries (dev bno lo : Z) : M fs unit :=
  for_range lo NINDIRECT (fun i =>
    d <- buf_read bno ;;
    let a := rd32 d i in
    when (negb (a =? 0)) (bfree dev a true ;; d' <- buf_read bno ;; buf_write bno (wr32 d' i 0))).

Definition itrunc_indirect (offset : Z) : M fs unit :=
  ip <- gets fs_ip ;;
  let ind := addr_get (i_addrs ip) NDIRECT in
  when (negb (ind =? 0))
    (let start := if offset >=? NDIRECT * BSIZE
                  then BLOCKROUNDUP (offset - NDIRECT * BSIZE) else 0 in
     match i_iaddrs ip with
     | Some ia =>
         d <- buf_read ind ;;
         buf_write ind (ia ++ drop (length ia) d)
     | None => ret tt
     end ;;
     itrunc_entries (i_dev ip) ind start ;;
     t <- has_trans ;;
     when (t && negb (start =? 0)) (buf_add_to_transaction ind) ;;
     when (start =? 0) (bfree (i_dev ip) ind true ;; set_addr NDIRECT 0) ;;
     modify_ip (set_iaddrs None)).

Definition itrunc_double (offset : Z) : M fs unit :=
  ip <- gets fs_ip ;;
  let dbl := addr_get (i_addrs ip) (NDIRECT + 1) in
  when (negb (dbl =? 0))
    (let bno := if offset >=? (NDIRECT + NINDIRECT) * BSIZE
                then BLOCKROUNDUP (offset - (NDIRECT + NINDIRECT) * BSIZE) else 0 in
     for_range (bno / NINDIRECT) NINDIRECT (fun i =>
       d1 <- buf_read dbl ;;
       let a1 := rd32 d1 i in
       when (negb (a1 =? 0))
         (let start := if i =? bno / NINDIRECT then bno mod NINDIRECT else 0 in
          itrunc_entries (i_dev ip) a1 start ;;
          t <- has_trans ;;
          when (t && negb (start =? 0)) (buf_add_to_transaction a1) ;;
          when (start =? 0)
            (bfree (i_dev ip) a1 true ;;
             d1' <- buf_read dbl ;; buf_write dbl (wr32 d1' i 0)))) ;;
     t <- has_trans ;;
     when (t && negb (bno =? 0)) (buf_add_to_transaction dbl) ;;
     when (bno =? 0) (bfree (i_dev ip) dbl true ;; set_addr (NDIRECT + 1) 0)).

Definition itrunc (offset : Z) : M fs unit :=
  ip <- gets fs_ip ;;
  if i_size ip <=? offset then ret tt
  else
    itrunc_direct offset ;;
    itrunc_indirect offset ;;
    itrunc_double offset ;;
    modify_ip (set_size offset).

(** The byte count [writei] works with after the test against the largest
    file: [if (off + n > MAXFILE*BSIZE) n = MAXFILE*BSIZE - off;] on [u32]
    [off] and [n]. *)
Definition writei_len (off n : Z) : Z :=
  if u32 (off + n) >? MAXFILE * BSIZE then u32 (MAXFILE * BSIZE - off) else n.

(** How a run of [writei] ends: turned away by the first tests, the loop
    ran to its end, or the handler of [out_of_blocks] broke out of it. *)
Inductive writei_exit := Rejected | Completed | Caught.

(** The loop of [writei].  [tot] and [m] are [int], [off] and [n] are [u32];
    [written] is the distance the pointer [src] has moved, that is the
    number of bytes copied into blocks so far. *)
Fixpoint writei_loop (fuel : nat) (src : Z -> Z) (n : Z) (writeback : bool)
    (tot off written : Z) : M fs (Z * writei_exit * Z) :=
  if u32 tot <? n then
    match fuel with
    | O => fail Diverges
    | S fuel' =>
        let m := s32 (Z.min (u32 (n - tot)) (u32 (BSIZE - off mod BSIZE))) in
        let skip_disk_read := (off mod BSIZE =? 0) && (m =? BSIZE) in
        r <- catch_out_of_blocks
               (blocknum <- bmap (off / BSIZE) (negb skip_disk_read) ;;
                ret (Some blocknum))
               (cprintf "writei: out of blocks" ;; ret None) ;;
        match r with
        | None => ret (if tot =? 0 then -1 else tot, Caught, written)
        | Some blocknum =>
            d <- buf_read blocknum ;;
            buf_write blocknum
              (memmove_at d (Z.to_nat (off mod BSIZE)) src written (Z.to_nat m)) ;;
            t <- has_trans ;;
            when (negb writeback && t) (buf_add_to_transaction blocknum) ;;
            writei_loop fuel' src n writeback
              (s32 (tot + m)) (u32 (off + m)) (written + m)
        end
    end
  else ret (tot, Completed, written).

(** [writei(ip, src, off, n, trans, writeback)] with how it ended and how
    many bytes it copied. *)
Definition writei_run (src : Z -> Z) (off n : Z) (writeback : bool)
    : M fs (Z * writei_exit * Z) :=
  ip <- gets fs_ip ;;
  if i_type ip =? T_DEV then ret (-1, Rejected, 0)
  else if u32 (off + n) <? off then ret (-1, Rejected, 0)
  else
    let n := writei_len off n in
    writei_loop (Z.to_nat n) src n writeback 0 off 0.

Definition writei (src : Z -> Z) (off n : Z) (writeback : bool) : M fs Z :=
  r <- writei_run src off n writeback ;; ret (r.1.1).

End fs_cc.

(** *** Inode allocation (fs.cc)

    [ins] is the inode cache, keyed by (dev, inum); a reference to a cached
    inode is its key.  [itable] gives the [dinode] slot of an inode in the
    inode blocks, [last_inode] the per-CPU hint.  Reference counts are left
    out. *)
Record icache := {
  ic_sb_root : superblock;
  last_inode : list Z;
  ins : gmap (Z * Z) inode;
  itable : Z -> Z -> dinode;
  ic_console : list string
}.

Definition set_ins (c : gmap (Z * Z) inode) (s : icache) : icache :=
  {| ic_sb_root := ic_sb_root s; last_inode := last_inode s; ins := c;
     itable := itable s; ic_console := ic_console s |}.
Definition set_last_inode (l : list Z) (s : icache) : icache :=
  {| ic_sb_root := ic_sb_root s; last_inode := l; ins := ins s;
     itable := itable s; ic_console := ic_console s |}.
Definition set_ic_console (c : list string) (s : icache) : icache :=
  {| ic_sb_root := ic_sb_root s; last_inode := last_inode s; ins := ins s;
     itable := itable s; ic_console := c |}.

Definition set_lock (b : bool) (rb : Z) (ip : inode) : inode :=
  {| i_dev := i_dev ip; i_inum := i_inum ip; i_type := i_type ip;
     i_major := i_major ip; i_minor := i_minor ip; i_nlink := i_nlink ip;
     i_size := i_size ip; i_gen := i_gen ip; i_addrs := i_addrs ip;
     i_iaddrs := i_iaddrs ip; i_busy := b; i_readbusy := rb;
     i_valid := i_valid ip |}.
Definition set_type (t : Z) (ip : inode) : inode :=
  {| i_dev := i_dev ip; i_inum := i_inum ip; i_type := t;
     i_major := i_major ip; i_minor := i_minor ip; i_nlink := i_nlink ip;
     i_size := i_size ip; i_gen := i_gen ip; i_addrs := i_addrs ip;
     i_iaddrs := i_iaddrs ip; i_busy := i_busy ip; i_readbusy := i_readbusy ip;
     i_valid := i_valid ip |}.
Definition set_gen (g : Z) (ip : inode) : inode :=
  {| i_dev := i_dev ip; i_inum := i_inum ip; i_type := i_type ip;
     i_major := i_major ip; i_minor := i_minor ip; i_nlink := i_nlink ip;
     i_size := i_size ip; i_gen := g; i_addrs := i_addrs ip;
     i_iaddrs := i_iaddrs ip; i_busy := i_busy ip; i_readbusy := i_readbusy ip;
     i_valid := i_valid ip |}.

(** A cached inode, through a reference. *)
Definition deref (k : Z * Z) : M icache inode :=
  c <- gets ins ;;
  match c !! k with
  | Some ip => ret ip
  | None => fail (Undefined "dangling inode reference")
  end.
Definition store (k : Z * Z) (ip : inode) : M icache unit :=
  modify (fun s => set_ins (<[k := ip]> (ins s)) s).

(** [ilock(ip, writer)]: a thread that finds the inode taken sleeps on the
    condition variable. *)
Definition ilock (k : Z * Z) (writer : bool) : M icache unit :=
  ip <- deref k ;;
  if writer && (i_busy ip || negb (i_readbusy ip =? 0)) then fail Blocked
  else if negb writer && i_busy ip then fail Blocked
  else
    store k (set_lock (if writer then true else i_busy ip)
                      (s32 (i_readbusy ip + 1)) ip) ;;
    if i_valid ip then ret tt else fail (Panic "ilock").

(** [iunlock(ip)] *)
Definition iunlock (k : Z * Z) : M icache unit :=
  ip <- deref k ;;
  if (i_readbusy ip =? 0) && negb (i_busy ip) then fail (Panic "iunlock")
  else store k (set_lock false (s32 (i_readbusy ip - 1)) ip).

(** [iget(dev, inum)]: the cached inode, or a fresh cache slot filled by
    [inode::init] from the inode's [dinode]. *)
Definition iget (dev inum : Z) : M icache (Z * Z) :=
  c <- gets ins ;;
  match c !! (dev, inum) with
  | Some ip => if i_valid ip then ret (dev, inum) else fail Blocked
  | None =>
      tbl <- gets itable ;;
      let dip := tbl dev inum in
      store (dev, inum)
        {| i_dev := dev; i_inum := inum;
           i_type := d_type dip; i_major := d_major dip; i_minor := d_minor dip;
           i_nlink := d_nlink dip; i_size := d_size dip; i_gen := d_gen dip;
           i_addrs := d_addrs dip; i_iaddrs := None;
           i_busy := true; i_readbusy := 1; i_valid := true |} ;;
      iunlock (dev, inum) ;;
      ret (dev, inum)
  end.

(** [try_ialloc(inum, dev, type)]; [None] is the null [sref]. *)
Definition try_ialloc (inum dev type : Z) : M icache (option (Z * Z)) :=
  k <- iget dev inum ;;
  ip <- deref k ;;
  if negb (i_type ip =? 0) then ret None
  else
    (* cmpxch(&ip->type, 0, type) *)
    store k (set_type type ip) ;;
    ilock k true ;;
    ip <- deref k ;;
    store k (set_gen (u32 (i_gen ip + 1)) ip) ;;
    if negb (i_nlink ip =? 0) || negb (i_size ip =? 0)
       || negb (addr_get (i_addrs ip) 0 =? 0)
    then fail (Panic "try_ialloc: inode not zeroed")
    else
      iunlock k ;;
      ret (Some k).

(** The loop of [ialloc]; [inum] is an [int] compared with the [u32]
    [sb_root.ninodes]. *)
Fixpoint ialloc_loop (fuel : nat) (cpu : nat) (dev type : Z) (inum : Z)
    (all_scanned : bool) : M icache (option (Z * Z)) :=
  n <- gets (fun s => sb_ninodes (ic_sb_root s)) ;;
  if u32 inum <? n then
    match fuel with
    | O => fail Diverges
    | S fuel' =>
        if inum =? 0 then ialloc_loop fuel' cpu dev type (s32 (inum + 1)) all_scanned
        else
          r <- try_ialloc (u32 inum) dev type ;;
          match r with
          | Some k =>
              modify (fun s => set_last_inode (<[cpu := inum]> (last_inode s)) s) ;;
              ret (Some k)
          | None =>
              if (u32 inum =? u32 (n - 1)) && negb all_scanned
              then ialloc_loop fuel' cpu dev type (s32 (0 + 1)) true
              else ialloc_loop fuel' cpu dev type (s32 (inum + 1)) all_scanned
          end
    end
  else
    modify (fun s => set_ic_console (ic_console s ++ ["ialloc: 0 inodes"%string]) s) ;;
    ret None.

(** [ialloc(dev, type)] on CPU [cpu] ([myid()]).  The loop visits at most
    twice [ninodes] numbers. *)
Definition ialloc (cpu : nat) (dev type : Z) : M icache (option (Z * Z)) :=
  n <- gets (fun s => sb_ninodes (ic_sb_root s)) ;;
  last <- gets (fun s => default 0 (last_inode s !! cpu)) ;;
  if n =? 0 then fail (Undefined "modulo by zero")
  else
    ialloc_loop (2 * Z.to_nat n + 2) cpu dev type
      (s32 (u32 (last + 1) mod n)) false.

(** *** The journal and the mfs interface (scalefs.cc) *)

(** [journal_block_header] (scalefs.hh): timestamp, block number and type.
    The header counts as all zeroes, the end-of-journal mark that [memcmp]
    looks for, when its three fields are 0. *)
Record journal_block_header := {
  timestamp : Z;
  blocknum : Z;
  block_type : Z
}.

Definition zero_header : journal_block_header :=
  {| timestamp := 0; blocknum := 0; block_type := 0 |}.

Definition is_zero_header (h : journal_block_header) : bool :=
  (timestamp h =? 0) && (blocknum h =? 0) && (block_type h =? 0).

(** The file /sv6journal, one header-and-block record after the other.  A
    payload [None] is one that [readi] cannot return in full; past the end
    of the list [readi] returns short as well. *)
Record jslot := { js_hdr : journal_block_header; js_data : option block }.

(** What the code does that leaves no mark in the state below. *)
Inductive jevent : Type :=
| EvRecord (h : journal_block_header)  (* write_journal_hdrblock *)
| EvWriteToDisk                        (* trans->write_to_disk() on journal blocks *)
| EvPostProcess (ts : Z)               (* post_process_transaction *)
| EvApply (bnos : list Z)              (* apply_trans_on_disk *)
| EvIdeflush
| EvReset                              (* reset_journal *)
| EvRetry.                             (* flush_journal_locked took its else branch *)

(** [class journal] with the journal file. *)
Record journal := {
  transaction_log : list transaction;
  current_offset : Z;
  sv6_journal : list jslot
}.

(** The part of [mfs_interface] and of its surroundings that the journal
    code and the resolver touch.  [metadata_log_htab] maps an mnum to the
    [operation_vec] of its oplog. *)
Record mfs := {
  fs_journal : journal;
  mfs_alloc : allocator;
  mfs_ninodes : Z;
  mfs_bufs : Z -> block;
  mfs_disk : Z -> block;
  metadata_log_htab : gmap Z (list mfs_operation);
  mfs_trace : list jevent
}.

Definition set_journal (j : journal) (s : mfs) : mfs :=
  {| fs_journal := j; mfs_alloc := mfs_alloc s; mfs_ninodes := mfs_ninodes s;
     mfs_bufs := mfs_bufs s; mfs_disk := mfs_disk s;
     metadata_log_htab := metadata_log_htab s; mfs_trace := mfs_trace s |}.
Definition set_mfs_bufs (b : Z -> block) (s : mfs) : mfs :=
  {| fs_journal := fs_journal s; mfs_alloc := mfs_alloc s; mfs_ninodes := mfs_ninodes s;
     mfs_bufs := b; mfs_disk := mfs_disk s;
     metadata_log_htab := metadata_log_htab s; mfs_trace := mfs_trace s |}.
Definition set_mfs_disk (d : Z -> block) (s : mfs) : mfs :=
  {| fs_journal := fs_journal s; mfs_alloc := mfs_alloc s; mfs_ninodes := mfs_ninodes s;
     mfs_bufs := mfs_bufs s; mfs_disk := d;
     metadata_log_htab := metadata_log_htab s; mfs_trace := mfs_trace s |}.
Definition set_htab (h : gmap Z (list mfs_operation)) (s : mfs) : mfs :=
  {| fs_journal := fs_journal s; mfs_alloc := mfs_alloc s; mfs_ninodes := mfs_ninodes s;
     mfs_bufs := mfs_bufs s; mfs_disk := mfs_disk s;
     metadata_log_htab := h; mfs_trace := mfs_trace s |}.
Definition set_trace (t : list jevent) (s : mfs) : mfs :=
  {| fs_journal := fs_journal s; mfs_alloc := mfs_alloc s; mfs_ninodes := mfs_ninodes s;
     mfs_bufs := mfs_bufs s; mfs_disk := mfs_disk s;
     metadata_log_htab := metadata_log_htab s; mfs_trace := t |}.

Definition set_transaction_log (l : list transaction) (j : journal) : journal :=
  {| transaction_log := l; current_offset := current_offset j;
     sv6_journal := sv6_journal j |}.
Definition update_offset (o : Z) (j : journal) : journal :=
  {| transaction_log := transaction_log j; current_offset := o;
     sv6_journal := sv6_journal j |}.
Definition set_file (f : list jslot) (j : journal) : journal :=
  {| transaction_log := transaction_log j; current_offset := current_offset j;
     sv6_journal := f |}.

Definition modify_journal (f : journal -> journal) : M mfs unit :=
  modify (fun s => set_journal (f (fs_journal s)) s).
Definition emit (e : jevent) : M mfs unit :=
  modify (fun s => set_trace (mfs_trace s ++ [e]) s).

(** Modelled from the spec: [journal::add_transaction_locked] (scalefs.hh is
    missing) appends the transaction to the in-memory transaction log. *)
Definition add_to_journal_locked (tr : transaction) : M mfs unit :=
  modify_journal (fun j => set_transaction_log (transaction_log j ++ [tr]) j).


(** [mfs_interface::post_process_transaction]: [free_block] on every entry of
    [free_block_list], from the first to the last. *)
Fixpoint free_blocks (l : list Z) (a : allocator) : outcome allocator :=
  match l with
  | [] => Ok a
  | f :: r =>
      match free_block f a with
      | Ok a' => free_blocks r a'
      | Fail e => Fail e
      end
  end.
Definition post_process_transaction (tr : transaction) (a : allocator) : outcome allocator :=
  free_blocks (free_block_list tr) a.


Section scalefs_cc.
Context `{fs_params}.




(** One pass of the [do ... while] of [balloc_free_on_disk] (fs.cc): set or
    clear the bit of block [bno] in bitmap block [blocknum]. *)
Definition flip_bit (alloc : bool) (blocknum bno : Z) : M mfs unit :=
  d <- gets (fun s => mfs_bufs s blocknum) ;;
  let bi := bno mod BPB in
  let m := Z.shiftl 1 (bi mod 8) in
  let byte := byte_at d (bi / 8) in
  if alloc then
    if negb (Z.land byte m =? 0)
    then fail (Panic "balloc_free_on_disk: block already in use")
    else modify (fun s => set_mfs_bufs
           (upd (mfs_bufs s) blocknum (<[Z.to_nat (bi / 8) := Z.lor byte m]> d)) s)
  else
    if Z.land byte m =? 0
    then fail (Panic "balloc_free_on_disk: block already free")
    else modify (fun s => set_mfs_bufs
           (upd (mfs_bufs s) blocknum
              (<[Z.to_nat (bi / 8) := Z.land byte (Z.lnot m)]> d)) s).

Fixpoint bitmap_run (alloc : bool) (blocknum max_bno x : Z) (rest : list Z)
    : M mfs (list Z) :=
  flip_bit alloc blocknum x ;;
  match rest with
  | y :: r =>
      if y <=? max_bno then bitmap_run alloc blocknum max_bno y r else ret rest
  | [] => ret []
  end.

Fixpoint balloc_free_loop (fuel : nat) (alloc : bool) (l : list Z)
    (tr : transaction) : M mfs transaction :=
  match l with
  | [] => ret tr
  | x :: rest =>
      match fuel with
      | O => fail Diverges
      | S fuel' =>
          nin <- gets mfs_ninodes ;;
          let blocknum := u32 (BBLOCK x nin) in
          rem <- bitmap_run alloc blocknum (u32 (Z.lor x (BPB - 1))) x rest ;;
          d <- gets (fun s => mfs_bufs s blocknum) ;;
          balloc_free_loop fuel' alloc rem (add_unique_block blocknum d tr)
      end
  end.

(** [balloc_free_on_disk(blocks, trans, alloc)] (fs.cc); it sorts the
    caller's vector, which is returned. *)
Definition balloc_free_on_disk (blocks : list Z) (tr : transaction) (alloc : bool)
    : M mfs (list Z * transaction) :=
  let sorted := merge_sort Z.le blocks in
  tr' <- balloc_free_loop (length sorted) alloc sorted tr ;;
  ret (sorted, tr').













(** [mfs_interface::reset_journal]: a zero header over the first header of
    the file, then offset 0. *)
Definition reset_journal : M mfs unit :=
  modify_journal (fun j =>
    set_file (match sv6_journal j with
              | [] => [ {| js_hdr := zero_header; js_data := None |} ]
              | x :: r => {| js_hdr := zero_header; js_data := js_data x |} :: r
              end) j) ;;
  emit EvReset ;;
  modify_journal (update_offset 0).








(** The scan of [process_journal]: header, then payload, then the switch on
    the header type.  It returns [jrnl_error], the transaction that gathers
    the committed blocks, and the block vector of the open transaction. *)
Fixpoint scan_journal (file : list jslot) (current_transaction : Z)
    (block_vec : list (Z * block)) (trans : transaction)
    : bool * transaction * list (Z * block) :=
  match file with
  | [] => (false, trans, block_vec)
  | x :: rest =>
      let hd := js_hdr x in
      if is_zero_header hd then (false, trans, block_vec)
      else
        match js_data x with
        | None => (false, trans, block_vec)
        | Some databuf =>
            (* [add_blocks(std::move(block_vec))] leaves [block_vec] empty *)
            if block_type hd =? jrnl_start then
              scan_journal rest (timestamp hd) [] trans
            else if block_type hd =? jrnl_data then
              if timestamp hd =? current_transaction then
                scan_journal rest current_transaction
                  (block_vec ++ [(blocknum hd, databuf)]) trans
              else (true, trans, block_vec)
            else if block_type hd =? jrnl_commit then
              if timestamp hd =? current_transaction then
                scan_journal rest current_transaction [] (add_blocks block_vec trans)
              else (true, trans, block_vec)
            else (true, trans, block_vec)
        end
  end.

(** Modelled from the spec: [transaction::write_to_disk_update_bufcache]
    (scalefs.hh is missing) writes the accumulated blocks to their home
    locations and to the buffer cache. *)
Definition write_to_disk_update_bufcache (tr : transaction) : M mfs unit :=
  modify (fun s =>
    set_mfs_bufs (fold_left (fun c b => upd c b.1 b.2) (blocks tr) (mfs_bufs s))
      (set_mfs_disk (fold_left (fun dk b => upd dk b.1 b.2) (blocks tr) (mfs_disk s)) s)).

(** [mfs_interface::process_journal] *)
Definition process_journal : M mfs unit :=
  file <- gets (fun s => sv6_journal (fs_journal s)) ;;
  let r := scan_journal file 0 [] (new_transaction 0) in
  let jrnl_error := r.1.1 in
  let trans := r.1.2 in
  reset_journal ;;
  when (negb jrnl_error) (write_to_disk_update_bufcache trans).

End scalefs_cc.

(** *** The resolver's rename pair (scalefs.cc) *)

Record rename_metadata := {
  src_parent_mnum : Z;
  dst_parent_mnum : Z;
  rm_timestamp : Z
}.

(** The two sub-operations applied on one transaction: each [op->apply(tr)]
    is recorded on [tr], the link first; [add_op_to_journal] adds [tr] to
    the journal once, with the second. *)
Definition apply_pair (link_op unlink_op : mfs_operation) : M mfs unit :=
  let tr := new_transaction (op_timestamp link_op) in
  let tr := record_op link_op tr in
  let tr := record_op unlink_op tr in
  add_to_journal_locked tr.

(** [mfs_interface::apply_rename_pair].  The rename stack has its top
    ([back()]) at the head of the list.  [mfs_log_dst] is assigned only when
    the two parents differ. *)
Definition apply_rename_pair (rename_stack : list rename_metadata)
    : M mfs (list rename_metadata) :=
  match rename_stack with
  | rm_1 :: rm_2 :: stack =>
      if negb (rm_timestamp rm_1 =? rm_timestamp rm_2)
      then fail (Panic "assert(rm_1.timestamp == rm_2.timestamp)")
      else
        let src_mnum := src_parent_mnum rm_1 in
        let dst_mnum := dst_parent_mnum rm_1 in
        h <- gets metadata_log_htab ;;
        match h !! src_mnum with
        | None => fail (Panic "assert(lookup(src_mnum))")
        | Some src_vec =>
            mfs_log_dst <-
              (if negb (dst_mnum =? src_mnum) then
                 match h !! dst_mnum with
                 | None => fail (Panic "assert(lookup(dst_mnum))")
                 | Some dst_vec => ret (Some dst_vec)
                 end
               else ret None) ;;
            match mfs_log_dst with
            | None => fail (Undefined "mfs_log_dst is not initialised")
            | Some dst_vec =>
                match src_vec, dst_vec with
                | unlink_front :: src_rest, link_front :: dst_rest =>
                    match link_front, unlink_front with
                    | mfs_operation_rename_link lts _ _ _ _ _,
                      mfs_operation_rename_unlink uts _ _ _ _ =>
                        if (lts =? uts) && (lts =? rm_timestamp rm_1) then
                          apply_pair link_front unlink_front ;;
                          modify (fun s => set_htab
                            (<[dst_mnum := dst_rest]>
                               (<[src_mnum := src_rest]> (metadata_log_htab s))) s) ;;
                          ret stack
                        else ret stack
                    | _, _ => ret stack
                    end
                | _, _ => ret stack
                end
            end
        end
  | _ => fail (Undefined "back() of an empty vector")
  end.

(** *** The reclaim list of the superblock (fs.cc, scalefs.cc)

    [sb_root] is the in-memory superblock that [readsb] filled at boot;
    [sb_block1] is the superblock held by block 1 of the disk. *)
Record sbstate := {
  sb_root : superblock;
  sb_block1 : superblock;
  sb_console : list string
}.

(** [get_superblock(sb, get_reclaim_inodes)] (fs.cc) on the caller's struct
    [sb], which it fills in part. *)
Definition get_superblock (root sb : superblock) (get_reclaim_inodes : bool) : superblock :=
  {| sb_size := sb_size root;
     sb_ninodes := sb_ninodes root;
     sb_nblocks := sb_nblocks root;
     reclaim_inodes :=
       if get_reclaim_inodes
       then take (Z.to_nat (num_reclaim_inodes root)) (reclaim_inodes root)
            ++ drop (Z.to_nat (num_reclaim_inodes root)) (reclaim_inodes sb)
       else reclaim_inodes sb;
     num_reclaim_inodes :=
       if get_reclaim_inodes then num_reclaim_inodes root else num_reclaim_inodes sb |}.

Section reclaim.
Context `{fs_params}.

(** [mfs_interface::defer_inode_reclaim(inum)]; [stack] is the local [sb]
    before [get_superblock] fills it. *)
Definition defer_inode_reclaim (inum : Z) (stack : superblock) : M sbstate unit :=
  root <- gets sb_root ;;
  let sb := get_superblock root stack true in
  if num_reclaim_inodes sb >=? NRECLAIM_INODES then
    modify (fun s =>
      {| sb_root := sb_root s; sb_block1 := sb_block1 s;
         sb_console := sb_console s ++
           ["WARNING: No space left to mark inodes for deferred deletion!"%string] |})
  else
    let sb' :=
      {| sb_size := sb_size sb; sb_ninodes := sb_ninodes sb;
         sb_nblocks := sb_nblocks sb;
         reclaim_inodes :=
           <[Z.to_nat (num_reclaim_inodes sb) := inum]> (reclaim_inodes sb);
         num_reclaim_inodes := num_reclaim_inodes sb + 1 |} in
    modify (fun s =>
      {| sb_root := sb_root s; sb_block1 := sb'; sb_console := sb_console s |}).

End reclaim.

(** *** Properties used in the statements *)

(** A computation of fs.cc that leaves the free bits as they are, however
    it ends. *)
Definition keeps_alloc {A} (m : M fs A) : Prop :=
  forall s, fs_alloc (m s).2 = fs_alloc s.

(** What a run of the loop of [writei] on [n] bytes can end in: the loop ran
    to its end with all [n] bytes copied, or the handler caught
    [out_of_blocks] with fewer copied; the [int] that comes back holds the
    count, or -1 for none in the handler.  Other failures are [bmap]'s. *)
Definition writei_post (n : Z) (res : outcome (Z * writei_exit * Z)) : Prop :=
  match res with
  | Ok (r, Completed, w) => w = n /\ r = s32 n
  | Ok (r, Caught, w) => 0 <= w < n /\ r = (if w =? 0 then -1 else s32 w)
  | Ok (_, Rejected, _) => False
  | Fail e => e <> Diverges
  end.

(** The length of the freelist, which bounds the loops of [bmap]. *)
Definition flen (s : fs) : nat := length (free_bit_freelist (fs_alloc s)).

(** The constants of a small file system, for running the definitions:
    512-byte blocks as before the change that bio.cc mentions, 128 entries
    in an indirect block, a journal of four records. *)
Definition small_geometry : fs_params :=
  {| BSIZE := 512; NDIRECT := 10; NINDIRECT := 128;
     MAXFILE := 10 + 128 + 128 * 128; T_DEV := 3;
     JHDR_SIZE := 32; PHYS_JOURNAL_SIZE := 4 * (32 + 512);
     NRECLAIM_INODES := 2;
     jrnl_start := 1; jrnl_data := 2; jrnl_commit := 3;
     EXCEPTIONS := true;
     BPB := 512 * 8;
     BBLOCK := fun b ninodes => b / (512 * 8) + ninodes / 8 + 3 |}.


(** States to run the definitions on: a file system whose bitmap is
    [bitmap], with blocks that read as empty, and an inode with the given
    block addresses. *)
Definition sample_inode (sz : Z) (addrs : list Z) : inode :=
  {| i_dev := 1; i_inum := 2; i_type := 1; i_major := 0; i_minor := 0;
     i_nlink := 1; i_size := sz; i_gen := 0; i_addrs := addrs;
     i_iaddrs := None; i_busy := true; i_readbusy := 1; i_valid := true |}.

Definition sample_fs (bitmap : list bool) (ip : inode) (tr : option transaction) : fs :=
  {| fs_alloc := free_bits_of_bitmap bitmap;
     fs_sb_root := {| sb_size := Z.of_nat (length bitmap); sb_ninodes := 8;
                      sb_nblocks := Z.of_nat (length bitmap);
                      reclaim_inodes := []; num_reclaim_inodes := 0 |};
     fs_bufs := fun _ => [];
     fs_ip := ip; fs_trans := tr; fs_console := [] |}.

(** The inode code never touches the superblock copy. *)
Definition keeps_sb_root {A : Type} (m : M icache A) : Prop :=
  forall s, ic_sb_root (m s).2 = ic_sb_root s.

(** The scan of [ialloc] as the specification words it: the inode numbers
    from the successor of the per-CPU hint (modulo [ninodes]) to the last
    one, then, wrapping around once, from inode 1 to the last one; inode 0
    is never tried.  [try_in_order] tries them in that order, takes the
    first for which [try_ialloc] succeeds and notes it as the hint. *)
Definition scan_order (last n : Z) : list Z :=
  let start := Z.max ((last + 1) mod n) 1 in
  seqZ start (n - start) ++ seqZ 1 (n - 1).

Fixpoint try_in_order (cpu : nat) (dev type : Z) (l : list Z)
    : M icache (option (Z * Z)) :=
  match l with
  | [] =>
      modify (fun s => set_ic_console (ic_console s ++ ["ialloc: 0 inodes"%string]) s) ;;
      ret None
  | inum :: r =>
      x <- try_ialloc inum dev type ;;
      match x with
      | Some k =>
          modify (fun s => set_last_inode (<[cpu := inum]> (last_inode s)) s) ;;
          ret (Some k)
      | None => try_in_order cpu dev type r
      end
  end.

(** An inode table of four inodes: inode 1 is in use (the root), the
    others are free and zeroed; an empty inode cache; CPU 0 allocated inode 0
    last. *)
Definition zero_dinode : dinode :=
  {| d_type := 0; d_major := 0; d_minor := 0; d_nlink := 0; d_size := 0;
     d_gen := 0; d_addrs := replicate 12 0 |}.

Definition sample_icache : icache :=
  {| ic_sb_root := {| sb_size := 64; sb_ninodes := 4; sb_nblocks := 60;
                       reclaim_inodes := []; num_reclaim_inodes := 0 |};
     last_inode := [0];
     ins := ∅;
     itable := fun _ inum =>
       if inum =? 1
       then {| d_type := 1; d_major := 0; d_minor := 0; d_nlink := 1;
               d_size := 512; d_gen := 0; d_addrs := 20 :: replicate 11 0 |}
       else zero_dinode;
     ic_console := [] |}.

(** A superblock with an empty reclaim list of [NRECLAIM_INODES] = 2 slots,
    in memory and on disk alike, as after boot. *)
Definition sample_sb : superblock :=
  {| sb_size := 64; sb_ninodes := 4; sb_nblocks := 60;
     reclaim_inodes := [0; 0]; num_reclaim_inodes := 0 |}.

Definition sample_sbstate : sbstate :=
  {| sb_root := sample_sb; sb_block1 := sample_sb; sb_console := [] |}.

(** An mfs state with the journal file [file], the transaction log [log] and
    the oplogs [h]; every block of the disk reads as empty. *)
Definition sample_mfs (file : list jslot) (log : list transaction)
    (h : gmap Z (list mfs_operation)) : mfs :=
  {| fs_journal := {| transaction_log := log; current_offset := 0;
                      sv6_journal := file |};
     mfs_alloc := free_bits_of_bitmap [true; true; true; true];
     mfs_ninodes := 8;
     mfs_bufs := fun _ => [];
     mfs_disk := fun _ => [];
     metadata_log_htab := h;
     mfs_trace := [] |}.

(** The recovery of [process_journal] as the specification words it: when
    the scan ends on a corrupted record, the transactions committed before
    it still reach their home locations. *)
Definition committed_prefix_applied (P : fs_params) : Prop :=
  forall s : mfs,
    let r := @scan_journal P (sv6_journal (fs_journal s)) 0 [] (new_transaction 0) in
    r.1.1 = true ->
    mfs_disk (@process_journal P s).2 =
      fold_left (fun dk b => upd dk b.1 b.2) (blocks r.1.2) (mfs_disk s).

(** A record that the switch of [process_journal] turns into [jrnl_error]
    while [current] is the open transaction. *)
Definition bad_record `{fs_params} (current : Z) (hd : journal_block_header) : bool :=
  if block_type hd =? jrnl_start then false
  else if block_type hd =? jrnl_data then negb (timestamp hd =? current)
  else if block_type hd =? jrnl_commit then negb (timestamp hd =? current)
  else true.

(** A journal with one committed transaction (block 5) followed by a data
    record of another transaction. *)
Definition corrupted_journal : list jslot :=
  [ {| js_hdr := {| timestamp := 7; blocknum := 0; block_type := 1 |}; js_data := Some [] |};
    {| js_hdr := {| timestamp := 7; blocknum := 5; block_type := 2 |}; js_data := Some [42] |};
    {| js_hdr := {| timestamp := 7; blocknum := 0; block_type := 3 |}; js_data := Some [] |};
    {| js_hdr := {| timestamp := 8; blocknum := 6; block_type := 2 |}; js_data := Some [43] |} ].

(** The pair is still there: the source oplog starts with a
    [rename_unlink], the destination oplog with a [rename_link], and both
    carry the timestamp [ts] of the rename. *)
Definition rename_ready (ts : Z) (src_vec dst_vec : list mfs_operation) : bool :=
  match src_vec, dst_vec with
  | mfs_operation_rename_unlink uts _ _ _ _ :: _,
    mfs_operation_rename_link lts _ _ _ _ _ :: _ => (lts =? uts) && (lts =? ts)
  | _, _ => false
  end.

(** The state after both halves were applied: one more transaction in the
    journal's log, on which the link and then the unlink were applied, and
    both oplogs without their first operation. *)
Definition rename_applied (src_mnum dst_mnum : Z)
    (src_vec dst_vec : list mfs_operation) (s : mfs) : mfs :=
  match src_vec, dst_vec with
  | unlink_op :: src_rest, link_op :: dst_rest =>
      set_htab (<[dst_mnum := dst_rest]> (<[src_mnum := src_rest]> (metadata_log_htab s)))
        (set_journal
           (set_transaction_log
              (transaction_log (fs_journal s) ++
                 [ {| timestamp_ := op_timestamp link_op; blocks := [];
                      allocated_block_list := []; free_block_list := [];
                      applied_ops := [link_op; unlink_op] |} ])
              (fs_journal s)) s)
  | _, _ => s
  end.





(** Oplogs of a rename of mnode 9 from directory 3 to directory 4, and of a
    rename inside directory 3. *)
Definition rename_oplogs : gmap Z (list mfs_operation) :=
  <[3 := [mfs_operation_rename_unlink 50 9 3 4 "a"]]>
  (<[4 := [mfs_operation_rename_link 50 9 3 4 "b" 1]]> ∅).

Definition same_dir_oplogs : gmap Z (list mfs_operation) :=
  <[3 := [mfs_operation_rename_link 50 9 3 3 "b" 1;
          mfs_operation_rename_unlink 50 9 3 3 "a"]]> ∅.

(** *** Further code of the allocator (scalefs.cc) *)

(** [n] calls of [alloc_block], one after the other: the block numbers
    they return, in order. *)
Fixpoint alloc_blocks (n : nat) (sb_size : Z) (a : allocator) : outcome (list Z * allocator) :=
  match n with
  | O => Ok ([], a)
  | S n' =>
      match alloc_block sb_size a with
      | Ok (b, a1) =>
          match alloc_blocks n' sb_size a1 with
          | Ok (bs, a2) => Ok (b :: bs, a2)
          | Fail e => Fail e
          end
      | Fail e => Fail e
      end
  end.

(** [mfs_interface::print_free_blocks]: the two numbers it prints, the count
    of the bits of the vector that are marked free ([u32 count]) and the size
    of the vector. *)
Definition print_free_blocks (a : allocator) : Z * Z :=
  (fold_left (fun count bit => if is_free bit then u32 (count + 1) else count)
     (free_bit_vector a) 0,
   Z.of_nat (length (free_bit_vector a))).

(** *** The free bitmap on disk (scalefs.cc) *)

Section bitmap_defs.
Context `{fs_params}.
(** Bit [b mod BPB] of the bitmap block that [initialize_free_bit_vector]
    reads for the group of [BPB] blocks that holds [b]: [true] when the bit
    is set, that is when the disk has block [b] in use. *)
Definition bitmap_bit (sb : superblock) (bufs : Z -> block) (b : Z) : bool :=
  let bi := b mod BPB in
  negb (Z.land (byte_at (bufs (u32 (BBLOCK (b - bi) (sb_ninodes sb)))) (bi / 8))
          (Z.shiftl 1 (bi mod 8)) =? 0).
End bitmap_defs.

(** *** The inode cache (fs.cc) *)

(** The cache entry that [iget] makes for an inode it finds on disk:
    [inode::init] copies the [dinode], and the entry is handed out valid and
    unlocked. *)
Definition inode_of_dinode (dev inum : Z) (dip : dinode) : inode :=
  {| i_dev := dev; i_inum := inum;
     i_type := d_type dip; i_major := d_major dip; i_minor := d_minor dip;
     i_nlink := d_nlink dip; i_size := d_size dip; i_gen := d_gen dip;
     i_addrs := d_addrs dip; i_iaddrs := None;
     i_busy := false; i_readbusy := 0; i_valid := true |}.

(** *** Committing to the journal (scalefs.cc) *)

Section journal_defs.
Context `{fs_params}.





(** The journal file holds the records [w] from its start on, followed by
    what the file [f0] had beyond them, and the offset is behind [w]. *)
Definition written (f0 : list jslot) (w : list jslot) (s : mfs) : Prop :=
  sv6_journal (fs_journal s) = w ++ drop (length w) f0 /\
  current_offset (fs_journal s) = Z.of_nat (length w) * (JHDR_SIZE + BSIZE).


(** The journal file as [reset_journal] leaves it: its first header is all
    zeroes. *)
Definition journal_is_reset (s : mfs) : Prop :=
  exists x rest, sv6_journal (fs_journal s) = x :: rest /\ is_zero_header (js_hdr x) = true.

(** The home writes of a block vector, from the first to the last. *)
Definition home_writes (vec : list (Z * block)) (d : Z -> block) : Z -> block :=
  fold_left (fun dk b => upd dk b.1 b.2) vec d.



End journal_defs.

(** *** Reading a file (fs.cc) *)

Section read_defs.
Context `{fs_params}.

(** A call that passes [NULL] for the transaction, whatever transaction
    the caller holds. *)
Definition without_trans {A} (m : M fs A) : M fs A :=
  fun s => let '(r, s') := m (set_trans None s) in (r, set_trans (fs_trans s) s').

(** The loop of [readi]; [tot], [m], [off] and [n] are [u32].  [dst] holds
    the bytes that [memmove] has copied behind the caller's pointer so far. *)
Fixpoint readi_loop (fuel : nat) (n tot off : Z) (dst : list Z) : M fs (list Z) :=
  if tot <? n then
    match fuel with
    | O => fail Diverges
    | S fuel' =>
        blocknum <- catch_out_of_blocks
                      (without_trans (bmap (off / BSIZE) true))
                      (fail (Panic "readi: out of blocks")) ;;
        let m := Z.min (u32 (n - tot)) (u32 (BSIZE - off mod BSIZE)) in
        d <- buf_read blocknum ;;
        readi_loop fuel' n (u32 (tot + m)) (u32 (off + m))
          (dst ++ ((fun i => byte_at d (off mod BSIZE + i)) <$> seqZ 0 m))
    end
  else ret dst.

(** [readi(ip, dst, off, n)]: the [int] it returns and the bytes it has
    copied to [dst]. *)
Definition readi (off n : Z) : M fs (Z * list Z) :=
  ip <- gets fs_ip ;;
  if i_type ip =? T_DEV then ret (-1, [])
  else if (off >? i_size ip) || (u32 (off + n) <? off) then ret (-1, [])
  else
    let n := if u32 (off + n) >? i_size ip then u32 (i_size ip - off) else n in
    dst <- readi_loop (Z.to_nat n) n 0 off [] ;;
    ret (s32 n, dst).

(** A computation of fs.cc that leaves the type and the size of the inode
    as they are, however it ends. *)
Definition keeps_size {A} (m : M fs A) : Prop :=
  forall s, i_size (fs_ip (m s).2) = i_size (fs_ip s) /\
            i_type (fs_ip (m s).2) = i_type (fs_ip s).

(** A computation whose failures, if any, all satisfy [P]. *)
Definition fails_only {S A} (P : failure -> Prop) (m : M S A) : Prop :=
  forall s e, (m s).1 = Fail e -> P e.

(** The number of blocks that the block map of an inode can address. *)
Definition bmap_limit : Z := NDIRECT + NINDIRECT + NINDIRECT * NINDIRECT.

(** The failures of the block allocator: the [out_of_blocks] exception, the
    panic that stands for it in a build without exceptions, the assertion
    of [alloc_block] on the head of the freelist, and a freelist entry that
    is no bit of the vector. *)
Definition alloc_failure (e : failure) : Prop :=
  e = OutOfBlocks \/ e = Panic "out of blocks" \/
  e = Panic "assert(it->is_free == true)" \/ e = Undefined "dangling free_bit".

End read_defs.

(** *** Truncation (fs.cc) *)

Section trunc_defs.
Context `{fs_params}.

(** The [free_block_list] of the transaction at hand, if there is one. *)
Definition freed (s : fs) : option (list Z) := free_block_list <$> fs_trans s.

(** The direct addresses [lo], [lo + 1], ... ([k] of them) that are set, as
    [bfree] records them. *)
Fixpoint direct_blocks (addrs : list Z) (lo : Z) (k : nat) : list Z :=
  match k with
  | O => []
  | S k' =>
      (if addr_get addrs lo =? 0 then [] else [u32 (addr_get addrs lo)])
      ++ direct_blocks addrs (lo + 1) k'
  end.

(** A computation that always returns, leaves the size and the direct
    addresses of the inode and the free bits as they are, and at most adds
    entries at the end of [free_block_list]. *)
Definition spares_direct {A} (m : M fs A) : Prop :=
  forall s,
    (exists a, (m s).1 = Ok a) /\
    i_size (fs_ip (m s).2) = i_size (fs_ip s) /\
    i_dev (fs_ip (m s).2) = i_dev (fs_ip s) /\
    (forall i, 0 <= i < NDIRECT ->
       addr_get (i_addrs (fs_ip (m s).2)) i = addr_get (i_addrs (fs_ip s)) i) /\
    (exists l, freed (m s).2 = (fun x => x ++ l) <$> freed s).

End trunc_defs.

(** *** Paths (fs.cc)

    A path is the list of the characters behind a [const char*]; the
    terminating NUL is the end of the list (a NUL inside the list ends the
    string as well).  [DIRSIZ] is a constant of fs.h. *)
Section paths.
Variable DIRSIZ : Z.

Definition slash : ascii := "/"%char.

(** [*path] *)
Definition peek (path : list ascii) : ascii :=
  match path with
  | [] => zero
  | c :: _ => c
  end.

(** [while ( *path == '/') path++;] *)
Fixpoint skip_slashes (path : list ascii) : list ascii :=
  match path with
  | c :: r => if decide (c = slash) then skip_slashes r else path
  | [] => []
  end.

(** [while ( *path != '/' && *path != 0) path++;] *)
Fixpoint skip_elem (path : list ascii) : list ascii :=
  match path with
  | c :: r => if decide (c = slash \/ c = zero) then path else skip_elem r
  | [] => []
  end.

(** [skipelem(rpath, name)]: the value returned, [*rpath] and the buffer
    [name] afterwards, and what was printed.  [name] has room for [DIRSIZ]
    characters. *)
Definition skipelem (rpath : list ascii) (name : list ascii)
    : Z * list ascii * list ascii * list (string * Z) :=
  let path := skip_slashes rpath in
  if decide (peek path = zero) then (0, rpath, name, [])
  else
    let s := path in
    let path := skip_elem path in
    let len := s32 (Z.of_nat (length s) - Z.of_nat (length path)) in
    if len >? DIRSIZ then
      (-1, rpath, name,
       [("Error: Path component longer than DIRSIZ (%d characters)"%string, DIRSIZ)])
    else
      let name := take (Z.to_nat len) s ++ drop (Z.to_nat len) name in
      let name := if len <? DIRSIZ then <[Z.to_nat len := zero]> name else name in
      (1, skip_slashes path, name, []).

End paths.

(** [ata_byteswap(buf, len)] of the AHCI driver (scalefs.cc): the loop
    index is a [u64]; a read or a write behind the end of the buffer is
    undefined. *)
Fixpoint ata_byteswap_loop (fuel : nat) (buf : list Z) (i len : Z) : outcome (list Z) :=
  if i <? len then
    match fuel with
    | O => Fail Diverges
    | S fuel' =>
        match buf !! Z.to_nat i, buf !! Z.to_nat (i + 1) with
        | Some c, Some c1 =>
            ata_byteswap_loop fuel'
              (<[Z.to_nat (i + 1) := c]> (<[Z.to_nat i := c1]> buf)) (u64 (i + 2)) len
        | _, _ => Fail (Undefined "buffer overrun")
        end
    end
  else Ok buf.

Definition ata_byteswap (buf : list Z) (len : Z) : outcome (list Z) :=
  ata_byteswap_loop (Z.to_nat len) buf 0 len.

(** The bytes of a buffer with every pair of neighbours exchanged. *)
Fixpoint swap_pairs (l : list Z) : list Z :=
  match l with
  | a :: b :: r => b :: a :: swap_pairs r
  | _ => l
  end.

(** *** Updates of the free bitmap (fs.cc) *)

Section bitmap_update_defs.
Context `{fs_params}.

(** The bitmap [bufs] is the bitmap [bufs0] with the bits of the blocks of
    [done] brought to [alloc]: the other bits of the blocks below [size]
    are as they were, and no buffer has changed its length. *)
Definition bitmap_flipped (sb : superblock) (size : Z) (alloc : bool) (done : list Z)
    (bufs0 bufs : Z -> block) : Prop :=
  (forall b, 0 <= b < size ->
     bitmap_bit sb bufs b = if decide (b ∈ done) then alloc else bitmap_bit sb bufs0 b) /\
  (forall blk, length (bufs blk) = length (bufs0 blk)).

(** Every block of [l] is listed once, is none of [done], and has its bit
    in [bufs0] in the state opposite to [alloc]. *)
Definition fresh_blocks (sb : superblock) (alloc : bool) (bufs0 : Z -> block)
    (done l : list Z) : Prop :=
  NoDup l /\
  forall y, y ∈ l -> (y ∉ done) /\ bitmap_bit sb bufs0 y = negb alloc.

(** The panic of [balloc_free_on_disk]. *)
Definition bitmap_panic (alloc : bool) : failure :=
  if alloc then Panic "balloc_free_on_disk: block already in use"
  else Panic "balloc_free_on_disk: block already free".

End bitmap_update_defs.

(** *** The bytes of a file (fs.cc) *)

Section file_defs.
Context `{fs_params}.

(** The byte at offset [o] of the file, through the direct address of its
    block. *)
Definition file_byte (s : fs) (o : Z) : Z :=
  byte_at (fs_bufs s (addr_get (i_addrs (fs_ip s)) (o / BSIZE))) (o mod BSIZE).

(** The bytes [off .. off + n - 1] of the file lie in direct blocks that
    are mapped, each to a block of its own with a buffer of a full block. *)
Definition mapped_range (s : fs) (off n : Z) : Prop :=
  0 <= off /\ off + n <= NDIRECT * BSIZE /\
  forall bn, off / BSIZE <= bn <= (off + n - 1) / BSIZE ->
    addr_get (i_addrs (fs_ip s)) bn <> 0 /\
    BSIZE <= Z.of_nat (length (fs_bufs s (addr_get (i_addrs (fs_ip s)) bn))) /\
    forall bn', off / BSIZE <= bn' <= (off + n - 1) / BSIZE ->
      addr_get (i_addrs (fs_ip s)) bn' = addr_get (i_addrs (fs_ip s)) bn -> bn' = bn.

End file_defs.

(** ** Part II. Theorems *)

Section allocator_facts.

Lemma occurrences_notin (i : nat) (l : list nat) :
  i ∉ l -> occurrences i l = 0%nat.
Proof.
  induction l as [|x l IH]; intros Hni; [reflexivity|].
  simpl. apply not_elem_of_cons in Hni as [Hne Hni].
  destruct (decide (x = i)); [congruence|]. rewrite IH; auto.
Qed.

Lemma occurrences_NoDup_in (i : nat) (l : list nat) :
  NoDup l -> i ∈ l -> occurrences i l = 1%nat.
Proof.
  induction 1 as [|x l Hx Hnd IH]; intros Hin.
  - inversion Hin.
  - simpl. destruct (decide (x = i)) as [->|Hne].
    + rewrite occurrences_notin; auto.
    + apply elem_of_cons in Hin as [->|Hin]; [congruence | auto].
Qed.

Lemma lookup_set_bit (v : list free_bit) (i j : nat) (b x : free_bit) (f : bool) :
  v !! i = Some b ->
  <[i := set_is_free f b]> v !! j = Some x ->
  (j = i /\ x = set_is_free f b) \/ (j <> i /\ v !! j = Some x).
Proof.
  intros Hi Hj. destruct (decide (j = i)) as [->|Hne].
  - left. split; [reflexivity|].
    rewrite list_lookup_insert_eq in Hj by (eapply lookup_lt_Some; eauto).
    congruence.
  - right. split; [assumption|].
    rewrite list_lookup_insert_ne in Hj by congruence. assumption.
Qed.

Lemma init_bits_spec (bitmap : list bool) : forall (b : nat) v fl,
  init_bits b bitmap = (v, fl) ->
  NoDup fl /\
  (forall j : nat, j ∈ fl <->
     exists (i : nat) x, j = (b + i)%nat /\ v !! i = Some x /\ is_free x = true) /\
  (forall (i : nat) x, v !! i = Some x -> bno_ x = Z.of_nat (b + i)).
Proof.
  induction bitmap as [|used rest IH]; intros b v fl Heq; simpl in Heq.
  - injection Heq as <- <-. split; [constructor|]. split.
    + intros j. split; [intros Hj; inversion Hj|].
      intros (i & x & _ & Hl & _). rewrite lookup_nil in Hl. discriminate.
    + intros i x Hl. rewrite lookup_nil in Hl. discriminate.
  - destruct (init_bits (S b) rest) as [v' fl'] eqn:Hrec.
    destruct (IH _ _ _ Hrec) as (Hnd & Hmem & Hbno).
    injection Heq as <- <-.
    assert (Hge : forall j : nat, j ∈ fl' -> (S b <= j)%nat).
    { intros j Hj. apply Hmem in Hj as (i & x & -> & _). lia. }
    split; [|split].
    + destruct used; [assumption|].
      apply NoDup_cons. split; [|assumption].
      intros Hin. apply Hge in Hin. lia.
    + intros j. split.
      * intros Hj.
        assert (Hcase : (used = false /\ j = b) \/ j ∈ fl').
        { destruct used; [right; assumption|].
          apply elem_of_cons in Hj as [->|Hj]; [left; auto | right; assumption]. }
        destruct Hcase as [[-> ->]|Hj'].
        -- exists 0%nat. eexists. split; [lia|]. split; reflexivity.
        -- apply Hmem in Hj' as (i & x & -> & Hl & Hf).
           exists (S i), x. split; [lia|]. split; assumption.
      * intros (i & x & -> & Hl & Hf). destruct i as [|i]; simpl in Hl.
        -- injection Hl as <-. simpl in Hf. destruct used; [discriminate|].
           replace (b + 0)%nat with b by lia. apply elem_of_cons. left. reflexivity.
        -- assert (Hin : (b + S i)%nat ∈ fl').
           { apply Hmem. exists i, x. split; [lia|]. split; assumption. }
           destruct used; [assumption|]. apply elem_of_cons. right. assumption.
    + intros i x Hl. destruct i as [|i]; simpl in Hl.
      * injection Hl as <-. simpl. f_equal. lia.
      * apply Hbno in Hl. rewrite Hl. f_equal. lia.
Qed.

(** The allocator invariant holds for the free bits of any bitmap. *)
Lemma free_bits_of_bitmap_inv (bitmap : list bool) :
  freelist_inv (free_bits_of_bitmap bitmap).
Proof.
  unfold free_bits_of_bitmap, freelist_inv.
  destruct (init_bits 0 bitmap) as [v fl] eqn:Heq. simpl.
  destruct (init_bits_spec _ _ _ _ Heq) as (Hnd & Hmem & Hbno).
  split; [assumption|]. split.
  - intros i. rewrite Hmem. split.
    + intros (k & x & -> & Hl & Hf). exists x. split; assumption.
    + intros (x & Hl & Hf). exists i, x. split; [reflexivity|]. split; assumption.
  - intros i x Hl. apply Hbno in Hl. assumption.
Qed.


(** [alloc_block] keeps the allocator invariant. *)
Lemma alloc_block_inv (sb_size : Z) (a a' : allocator) (b : Z) :
  freelist_inv a -> alloc_block sb_size a = Ok (b, a') -> freelist_inv a'.
Proof.
  intros (Hnd & Hmem & Hbno) Hrun. unfold alloc_block in Hrun.
  destruct (free_bit_freelist a) as [|it rest] eqn:Hfl.
  - injection Hrun as _ <-. unfold freelist_inv. rewrite Hfl. auto.
  - destruct (free_bit_vector a !! it) as [bit|] eqn:Hit; [|discriminate].
    destruct (is_free bit) eqn:Hfree; [|discriminate].
    injection Hrun as _ <-. unfold freelist_inv; simpl.
    apply NoDup_cons in Hnd as [Hnotin Hnd].
    split; [assumption|]. split.
    + intros i. split.
      * intros Hi.
        assert (Hne : i <> it) by (intros ->; contradiction).
        destruct (proj1 (Hmem i)) as (x & Hx & Hxf).
        { apply elem_of_cons. right. assumption. }
        exists x. split; [|assumption].
        rewrite list_lookup_insert_ne by congruence. assumption.
      * intros (x & Hx & Hxf).
        destruct (lookup_set_bit _ _ _ _ _ _ Hit Hx) as [[-> ->]|[Hne Hx']].
        -- simpl in Hxf. discriminate.
        -- assert (Hin : i ∈ it :: rest) by (apply Hmem; eauto).
           apply elem_of_cons in Hin as [->|Hin]; [congruence | assumption].
    + intros i x Hx.
      destruct (lookup_set_bit _ _ _ _ _ _ Hit Hx) as [[-> ->]|[Hne Hx']].
      * simpl. eauto.
      * eauto.
Qed.

(** [free_block] keeps the allocator invariant. *)
Lemma free_block_inv (bno : Z) (a a' : allocator) :
  freelist_inv a -> free_block bno a = Ok a' -> freelist_inv a'.
Proof.
  intros (Hnd & Hmem & Hbno) Hrun. unfold free_block in Hrun.
  destruct (free_bit_vector a !! Z.to_nat bno) as [bit|] eqn:Hbit; [|discriminate].
  destruct (is_free bit) eqn:Hfree; [discriminate|].
  injection Hrun as <-. unfold freelist_inv; simpl.
  assert (Hnotin : Z.to_nat bno ∉ free_bit_freelist a).
  { intros Hin. apply Hmem in Hin as (x & Hx & Hxf). congruence. }
  split; [apply NoDup_cons; auto|]. split.
  - intros i. rewrite elem_of_cons. split.
    + intros [->|Hi].
      * exists (set_is_free true bit). split; [|reflexivity].
        apply list_lookup_insert_eq. eapply lookup_lt_Some; eauto.
      * assert (Hne : i <> Z.to_nat bno) by (intros ->; contradiction).
        apply Hmem in Hi as (x & Hx & Hxf). exists x. split; [|assumption].
        rewrite list_lookup_insert_ne by congruence. assumption.
    + intros (x & Hx & Hxf).
      destruct (lookup_set_bit _ _ _ _ _ _ Hbit Hx) as [[-> ->]|[Hne Hx']].
      * left. reflexivity.
      * right. apply Hmem. eauto.
  - intros i x Hx.
    destruct (lookup_set_bit _ _ _ _ _ _ Hbit Hx) as [[-> ->]|[Hne Hx']].
    + simpl. eauto.
    + eauto.
Qed.

(** C2. For every call to [alloc_block] on an allocator that satisfies the
    invariant: when the freelist is not empty, the call takes the head bit
    off the freelist, sets its [is_free] to false, changes no other bit and
    returns the head's block number; when the freelist is empty, it returns
    the superblock's [size] and changes nothing. *)
Theorem alloc_block_spec (sb_size : Z) (a : allocator) :
  freelist_inv a ->
  match free_bit_freelist a with
  | [] => alloc_block sb_size a = Ok (sb_size, a)
  | it :: rest =>
      exists b a',
        free_bit_vector a !! it = Some b /\ is_free b = true /\
        alloc_block sb_size a = Ok (bno_ b, a') /\
        free_bit_freelist a' = rest /\
        free_bit_vector a' !! it = Some {| bno_ := bno_ b; is_free := false |} /\
        (forall j : nat, j <> it -> free_bit_vector a' !! j = free_bit_vector a !! j) /\
        freelist_inv a'
  end.
Proof.
  intros Hinv. destruct (free_bit_freelist a) as [|it rest] eqn:Hfl.
  - unfold alloc_block. rewrite Hfl. reflexivity.
  - destruct Hinv as (Hnd & Hmem & Hbno).
    destruct (proj1 (Hmem it)) as (b & Hb & Hbf).
    { rewrite Hfl. apply elem_of_cons. left. reflexivity. }
    assert (Hrun : alloc_block sb_size a =
      Ok (bno_ b, {| free_bit_vector := <[it := set_is_free false b]> (free_bit_vector a);
                     free_bit_freelist := rest |})).
    { unfold alloc_block. rewrite Hfl, Hb, Hbf. reflexivity. }
    eexists b, _. split; [exact Hb|]. split; [exact Hbf|].
    split; [exact Hrun|]. split; [reflexivity|]. split; [|split].
    + simpl. apply list_lookup_insert_eq. eapply lookup_lt_Some; eauto.
    + intros j Hj. simpl. apply list_lookup_insert_ne. congruence.
    + eapply alloc_block_inv; [|exact Hrun]. repeat split; auto; apply Hmem.
Qed.

Lemma alloc_block_spec_witness :
  exists b a',
    alloc_block 3 (free_bits_of_bitmap [true; false; false]) = Ok (bno_ b, a') /\
    bno_ b = 1 /\ free_bit_freelist a' = [2%nat].
Proof.
  pose proof (alloc_block_spec 3 (free_bits_of_bitmap [true; false; false])
                (free_bits_of_bitmap_inv _)) as Hs.
  simpl in Hs. destruct Hs as (b & a' & Hb & _ & Hrun & Hfl & _).
  exists b, a'. split; [exact Hrun|]. split; [|exact Hfl].
  injection Hb as <-. reflexivity.
Defined.

(** [free_block] on an allocated bit, under the invariant. *)
Lemma free_block_allocated (bno : Z) (a : allocator) (bit : free_bit) :
  free_bit_vector a !! Z.to_nat bno = Some bit ->
  is_free bit = false -> freelist_inv a ->
  exists a',
    free_block bno a = Ok a' /\
    free_bit_vector a' !! Z.to_nat bno = Some {| bno_ := bno_ bit; is_free := true |} /\
    (forall j : nat, j <> Z.to_nat bno ->
       free_bit_vector a' !! j = free_bit_vector a !! j) /\
    free_bit_freelist a' = Z.to_nat bno :: free_bit_freelist a /\
    occurrences (Z.to_nat bno) (free_bit_freelist a') = 1%nat /\
    freelist_inv a'.
Proof.
  intros Hbit Hf Hinv.
  assert (Hrun : free_block bno a =
    Ok {| free_bit_vector := <[Z.to_nat bno := set_is_free true bit]> (free_bit_vector a);
          free_bit_freelist := Z.to_nat bno :: free_bit_freelist a |}).
  { unfold free_block. rewrite Hbit, Hf. reflexivity. }
  pose proof (free_block_inv _ _ _ Hinv Hrun) as Hinv'.
  eexists. split; [exact Hrun|]. simpl. split; [|split; [|split; [|split]]].
  - apply list_lookup_insert_eq. eapply lookup_lt_Some; eauto.
  - intros j Hj. apply list_lookup_insert_ne. congruence.
  - reflexivity.
  - destruct Hinv' as (Hnd & _). simpl in Hnd.
    apply (occurrences_NoDup_in _ _ Hnd). apply elem_of_cons. left. reflexivity.
  - exact Hinv'.
Qed.

(** C10. [free_block(bno)] panics when the free bit of [bno] is already
    marked free.  When the bit is allocated and the allocator satisfies the
    invariant, the call sets [is_free] to true, changes no other bit, pushes
    the bit on the front of the freelist, where it then occurs exactly
    once, and the invariant (the freelist links exactly the free bits, each
    once) holds afterwards. *)
Theorem free_block_spec (bno : Z) (a : allocator) (bit : free_bit) :
  free_bit_vector a !! Z.to_nat bno = Some bit ->
  (is_free bit = true -> free_block bno a = Fail (Panic "freeing free block")) /\
  (is_free bit = false -> freelist_inv a ->
   exists a',
     free_block bno a = Ok a' /\
     free_bit_vector a' !! Z.to_nat bno = Some {| bno_ := bno_ bit; is_free := true |} /\
     (forall j : nat, j <> Z.to_nat bno ->
        free_bit_vector a' !! j = free_bit_vector a !! j) /\
     free_bit_freelist a' = Z.to_nat bno :: free_bit_freelist a /\
     occurrences (Z.to_nat bno) (free_bit_freelist a') = 1%nat /\
     freelist_inv a').
Proof.
  intros Hbit. split.
  - intros Hf. unfold free_block. rewrite Hbit, Hf. reflexivity.
  - intros Hf Hinv. apply free_block_allocated; assumption.
Qed.

Lemma free_block_spec_witness :
  free_block 1 (free_bits_of_bitmap [true; false; false])
    = Fail (Panic "freeing free block") /\
  exists a', free_block 0 (free_bits_of_bitmap [true; false; false]) = Ok a' /\
             free_bit_freelist a' = [0%nat; 1%nat; 2%nat].
Proof.
  split.
  - apply (proj1 (free_block_spec 1 (free_bits_of_bitmap [true; false; false])
                    {| bno_ := 1; is_free := true |} eq_refl)). reflexivity.
  - destruct (proj2 (free_block_spec 0 (free_bits_of_bitmap [true; false; false])
                    {| bno_ := 0; is_free := false |} eq_refl) eq_refl
                    (free_bits_of_bitmap_inv _)) as (a' & Hrun & _ & _ & Hfl & _).
    exists a'. split; [exact Hrun | exact Hfl].
Defined.

End allocator_facts.

Section delayed_free.
Context `{fs_params}.

Lemma keeps_alloc_ret {A} (a : A) : keeps_alloc (ret a).
Proof. intros s. reflexivity. Qed.

Lemma keeps_alloc_fail {A} (e : failure) : keeps_alloc (@fail fs A e).
Proof. intros s. reflexivity. Qed.

Lemma keeps_alloc_gets {A} (f : fs -> A) : keeps_alloc (gets f).
Proof. intros s. reflexivity. Qed.

Lemma keeps_alloc_modify (f : fs -> fs) :
  (forall s, fs_alloc (f s) = fs_alloc s) -> keeps_alloc (modify f).
Proof. intros Hf s. simpl. apply Hf. Qed.

Lemma keeps_alloc_bind {A B} (m : M fs A) (k : A -> M fs B) :
  keeps_alloc m -> (forall a, keeps_alloc (k a)) -> keeps_alloc (bind m k).
Proof.
  intros Hm Hk s. unfold bind. specialize (Hm s).
  destruct (m s) as [[a|e] s']; simpl in *.
  - rewrite Hk. assumption.
  - assumption.
Qed.

Lemma keeps_alloc_when (b : bool) (m : M fs unit) :
  keeps_alloc m -> keeps_alloc (when b m).
Proof. intros Hm. destruct b; [assumption | apply keeps_alloc_ret]. Qed.

Lemma keeps_alloc_for_loop (n : nat) : forall (i : Z) (body : Z -> M fs unit),
  (forall j, keeps_alloc (body j)) -> keeps_alloc (for_loop n i body).
Proof.
  induction n as [|n IH]; intros i body Hb; simpl.
  - apply keeps_alloc_ret.
  - apply keeps_alloc_bind; [apply Hb | intros _; apply IH, Hb].
Qed.

Lemma keeps_alloc_for_range (lo hi : Z) (body : Z -> M fs unit) :
  (forall j, keeps_alloc (body j)) -> keeps_alloc (for_range lo hi body).
Proof. apply keeps_alloc_for_loop. Qed.

Lemma keeps_alloc_buf_read bno : keeps_alloc (buf_read bno).
Proof. apply keeps_alloc_gets. Qed.

Lemma keeps_alloc_buf_write bno d : keeps_alloc (buf_write bno d).
Proof. apply keeps_alloc_modify. reflexivity. Qed.

Lemma keeps_alloc_with_trans f : keeps_alloc (with_trans f).
Proof. apply keeps_alloc_modify. reflexivity. Qed.

Lemma keeps_alloc_has_trans : keeps_alloc has_trans.
Proof. apply keeps_alloc_gets. Qed.

Lemma keeps_alloc_modify_ip f : keeps_alloc (modify_ip f).
Proof. apply keeps_alloc_modify. reflexivity. Qed.

Lemma keeps_alloc_set_addr i v : keeps_alloc (set_addr i v).
Proof. apply keeps_alloc_modify_ip. Qed.

Lemma keeps_alloc_buf_add_to_transaction bno :
  keeps_alloc (buf_add_to_transaction bno).
Proof.
  apply keeps_alloc_bind; [apply keeps_alloc_buf_read|].
  intros d. apply keeps_alloc_with_trans.
Qed.

(** A delayed [bfree] does not touch the free bits. *)
Lemma keeps_alloc_bfree_delayed dev x : keeps_alloc (bfree dev x true).
Proof.
  unfold bfree, when. cbn [negb]. destruct (dev =? 1).
  - apply keeps_alloc_bind; [apply keeps_alloc_ret|].
    intros _. apply keeps_alloc_with_trans.
  - apply keeps_alloc_ret.
Qed.

Create HintDb keeps.
#[local] Hint Resolve keeps_alloc_ret keeps_alloc_fail keeps_alloc_gets
  keeps_alloc_when keeps_alloc_buf_read keeps_alloc_buf_write
  keeps_alloc_with_trans keeps_alloc_has_trans keeps_alloc_modify_ip
  keeps_alloc_set_addr keeps_alloc_buf_add_to_transaction
  keeps_alloc_bfree_delayed : keeps.

Ltac keeps :=
  repeat first
    [ progress auto with keeps
    | apply keeps_alloc_bind; [|intros ?]
    | apply keeps_alloc_when
    | apply keeps_alloc_for_range; intros ?
    | match goal with |- keeps_alloc (match ?x with _ => _ end) => destruct x end ].

Lemma keeps_alloc_itrunc_entries dev bno lo : keeps_alloc (itrunc_entries dev bno lo).
Proof. unfold itrunc_entries. keeps. Qed.

Lemma keeps_alloc_itrunc offset : keeps_alloc (itrunc offset).
Proof.
  pose proof keeps_alloc_itrunc_entries as He.
  unfold itrunc, itrunc_direct, itrunc_indirect, itrunc_double.
  keeps; try apply He; keeps; try apply He; keeps.
Qed.

Lemma free_blocks_spec (l : list Z) : forall a : allocator,
  freelist_inv a -> Forall (fun f => 0 <= f) l -> NoDup l ->
  (forall f, f ∈ l -> exists bit,
     free_bit_vector a !! Z.to_nat f = Some bit /\ is_free bit = false) ->
  exists a',
    free_blocks l a = Ok a' /\
    free_bit_freelist a' = rev (Z.to_nat <$> l) ++ free_bit_freelist a /\
    (forall f, f ∈ l -> exists bit,
       free_bit_vector a' !! Z.to_nat f = Some bit /\ is_free bit = true) /\
    (forall j : nat, j ∉ (Z.to_nat <$> l) ->
       free_bit_vector a' !! j = free_bit_vector a !! j) /\
    freelist_inv a'.
Proof.
  induction l as [|f r IH]; intros a Hinv Hpos Hnd Hall.
  - exists a. simpl. split; [reflexivity|]. split; [reflexivity|].
    split; [intros f Hf; inversion Hf|]. split; [reflexivity | assumption].
  - apply Forall_cons in Hpos as [Hf0 Hpos].
    apply NoDup_cons in Hnd as [Hfr Hnd].
    destruct (Hall f) as (bit & Hbit & Hfree); [apply elem_of_cons; left; reflexivity|].
    destruct (free_block_allocated f a bit Hbit Hfree Hinv)
      as (a1 & Hrun & Hset & Hother & Hfl & _ & Hinv1).
    assert (Hne : forall g, g ∈ r -> Z.to_nat g <> Z.to_nat f).
    { intros g Hg Heq. assert (0 <= g) by (eapply Forall_forall in Hpos; eauto).
      assert (g = f) by lia. subst g. contradiction. }
    destruct (IH a1 Hinv1 Hpos Hnd) as (a' & Hrun' & Hfl' & Hset' & Hother' & Hinv').
    { intros g Hg. destruct (Hall g) as (bg & Hbg & Hgf); [apply elem_of_cons; right; assumption|].
      exists bg. split; [|assumption]. rewrite Hother by (apply Hne; assumption). assumption. }
    exists a'. simpl. rewrite Hrun. split; [exact Hrun'|]. split; [|split; [|split]].
    + rewrite Hfl', Hfl. rewrite <- app_assoc. reflexivity.
    + intros g Hg. apply elem_of_cons in Hg as [->|Hg]; [|apply Hset'; assumption].
      exists {| bno_ := bno_ bit; is_free := true |}. split; [|reflexivity].
      rewrite Hother'; [exact Hset|].
      intros Hin. apply list_elem_of_fmap in Hin as (g & Heq & Hg).
      symmetry in Heq. apply Hne in Heq; assumption.
    + intros j Hj. apply not_elem_of_cons in Hj as [Hjf Hj].
      rewrite Hother' by assumption. apply Hother. assumption.
    + exact Hinv'.
Qed.

(** C3. A block freed with [delayed_free] goes to the transaction's
    [free_block_list] and leaves the in-memory free bits (vector and
    freelist) as they are; [itrunc], which frees only in that way, leaves
    them as they are; [post_process_transaction] then runs [free_block] on
    the entries of [free_block_list], one call per entry from first to
    last: for a list of distinct allocated blocks every one of them ends up
    marked free and exactly once in the freelist, which grows by just these
    entries. *)
Theorem delayed_free_until_post_process :
  (forall dev x s,
     fs_alloc (bfree dev x true s).2 = fs_alloc s /\
     (dev = 1 ->
      fs_trans (bfree dev x true s).2 = add_free_block (u32 x) <$> fs_trans s)) /\
  (forall offset s, fs_alloc (itrunc offset s).2 = fs_alloc s) /\
  (forall tr a,
     freelist_inv a ->
     Forall (fun f => 0 <= f) (free_block_list tr) ->
     NoDup (free_block_list tr) ->
     (forall f, f ∈ free_block_list tr -> exists bit,
        free_bit_vector a !! Z.to_nat f = Some bit /\ is_free bit = false) ->
     exists a',
       post_process_transaction tr a = Ok a' /\
       free_bit_freelist a' =
         rev (Z.to_nat <$> free_block_list tr) ++ free_bit_freelist a /\
       (forall f, f ∈ free_block_list tr ->
          occurrences (Z.to_nat f) (free_bit_freelist a') = 1%nat /\
          exists bit, free_bit_vector a' !! Z.to_nat f = Some bit /\
                      is_free bit = true) /\
       freelist_inv a').
Proof.
  split; [|split].
  - intros dev x s. split; [apply keeps_alloc_bfree_delayed|].
    intros ->. reflexivity.
  - intros offset s. apply keeps_alloc_itrunc.
  - intros tr a Hinv Hpos Hnd Hall.
    destruct (free_blocks_spec _ a Hinv Hpos Hnd Hall)
      as (a' & Hrun & Hfl & Hset & _ & Hinv').
    exists a'. split; [exact Hrun|]. split; [exact Hfl|]. split; [|exact Hinv'].
    intros f Hf. destruct (Hset f Hf) as (bit & Hbit & Hfree).
    split; [|eauto].
    destruct Hinv' as (Hnd' & Hmem' & _).
    apply occurrences_NoDup_in; [assumption|]. apply Hmem'. eauto.
Qed.

End delayed_free.

Section machine_integers.

Ltac wrap :=
  unfold u32, u64, s32 in *;
  change (2 ^ 32) with 4294967296 in *;
  change (2 ^ 31) with 2147483648 in *;
  change (2 ^ 64) with 18446744073709551616 in *;
  Z.div_mod_to_equations; lia.

Lemma u32_small (x : Z) : 0 <= x < 2 ^ 32 -> u32 x = x.
Proof. intros Hx. wrap. Qed.

Lemma u64_small (x : Z) : 0 <= x < 2 ^ 64 -> u64 x = x.
Proof. intros Hx. wrap. Qed.

Lemma s32_small (x : Z) : - 2 ^ 31 <= x < 2 ^ 31 -> s32 x = x.
Proof. intros Hx. wrap. Qed.

Lemma u32_range (x : Z) : 0 <= u32 x < 2 ^ 32.
Proof. wrap. Qed.

Lemma u32_s32 (x : Z) : u32 (s32 x) = u32 x.
Proof. wrap. Qed.

Lemma s32_add_l (x m : Z) : s32 (s32 x + m) = s32 (x + m).
Proof. wrap. Qed.

Lemma s32_zero (x : Z) : 0 <= x < 2 ^ 32 -> s32 x = 0 -> x = 0.
Proof. intros Hx Hs. wrap. Qed.

Lemma u32_sub_s32 (n x : Z) : u32 (n - s32 x) = u32 (n - x).
Proof. wrap. Qed.

End machine_integers.

Section block_map.
Context `{fs_params}.

(** A successful [balloc] takes one bit off the freelist; a failing one
    throws or panics. *)
Lemma balloc_cases (dev : Z) (z : bool) (s : fs) :
  match balloc dev z s with
  | (Ok _, s') => S (flen s') = flen s
  | (Fail e, _) => e <> Diverges
  end.
Proof.
  unfold balloc, throw_out_of_blocks.
  destruct (dev =? 1); [|destruct EXCEPTIONS; simpl; discriminate].
  unfold bind at 1. unfold alloc_block_m, alloc_block.
  destruct (free_bit_freelist (fs_alloc s)) as [|it rest] eqn:Hfl.
  - unfold bind, gets. simpl. rewrite Z.ltb_irrefl.
    destruct EXCEPTIONS; simpl; discriminate.
  - destruct (free_bit_vector (fs_alloc s) !! it) as [b|]; [|simpl; discriminate].
    destruct (is_free b); [|simpl; discriminate].
    unfold bind, gets. simpl.
    destruct (bno_ b <? sb_size (fs_sb_root s)).
    + unfold with_trans, modify, when. destruct z; simpl; unfold flen; simpl;
        rewrite Hfl; reflexivity.
    + destruct EXCEPTIONS; simpl; discriminate.
Qed.

Lemma bmap_entry_terminates (fuel : nat) : forall (dev wb idx : Z) (z : bool) (s : fs),
  (flen s < fuel)%nat -> (bmap_entry fuel dev wb idx z s).1 <> Fail Diverges.
Proof.
  induction fuel as [|fuel IH]; intros dev wb idx z s Hlt; [lia|].
  simpl. unfold bind at 1. unfold buf_read at 1, gets at 1.
  destruct (rd32 (fs_bufs s wb) idx =? 0); [|simpl; discriminate].
  unfold bind at 1. pose proof (balloc_cases dev z s) as Hb.
  destruct (balloc dev z s) as [[a|e] s1]; [|simpl; congruence].
  unfold bind, buf_read, buf_write, has_trans, gets, modify. simpl.
  destruct (bool_decide (is_Some (fs_trans s1))); simpl.
  - apply IH. unfold flen in *. simpl. lia.
  - apply IH. unfold flen in *. simpl. lia.
Qed.

(** [bmap] returns, throws or panics: its loops end. *)
Lemma bmap_terminates (bn : Z) (z : bool) (s : fs) :
  (bmap bn z s).1 <> Fail Diverges.
Proof.
  unfold bmap. unfold bind at 1. unfold gets at 1.
  destruct (bn <? NDIRECT).
  { destruct (addr_get (i_addrs (fs_ip s)) bn =? 0); [|simpl; discriminate].
    unfold bind at 1. pose proof (balloc_cases (i_dev (fs_ip s)) z s) as Hb.
    destruct (balloc (i_dev (fs_ip s)) z s) as [[a|e] s1]; [|simpl; congruence].
    simpl. discriminate. }
  destruct (u32 (bn - NDIRECT) <? NINDIRECT).
  { unfold bind at 1.
    match goal with |- context [match ?m s with _ => _ end] => destruct (m s) as [[[]|e] s1] eqn:Hfirst end.
    - unfold bind at 1. unfold gets at 1.
      destruct (rd32 (default [] (i_iaddrs (fs_ip s1))) (u32 (bn - NDIRECT)) =? 0);
        [|simpl; discriminate].
      unfold bind at 1. pose proof (balloc_cases (i_dev (fs_ip s)) z s1) as Hb.
      destruct (balloc (i_dev (fs_ip s)) z s1) as [[a|e] s2]; [|simpl; congruence].
      unfold bind, modify_ip, modify, has_trans, gets, when, with_trans. simpl.
      destruct (bool_decide (is_Some (fs_trans s2))); simpl; discriminate.
    - simpl. destruct (i_iaddrs (fs_ip s)); [discriminate|].
      revert Hfirst. unfold bind at 1.
      destruct (addr_get (i_addrs (fs_ip s)) NDIRECT =? 0).
      + unfold bind at 1. pose proof (balloc_cases (i_dev (fs_ip s)) true s) as Hb.
        destruct (balloc (i_dev (fs_ip s)) true s) as [[a|e'] s2].
        * unfold bind, set_addr, modify_ip, modify, buf_read, gets. simpl. discriminate.
        * intros [= <- _]. congruence.
      + unfold bind, buf_read, gets, modify_ip, modify. simpl. discriminate. }
  destruct (u32 (u32 (bn - NDIRECT) - NINDIRECT) >=? NINDIRECT * NINDIRECT);
    [simpl; discriminate|].
  unfold bind at 1.
  match goal with |- context [match ?m s with _ => _ end] => destruct (m s) as [[[]|e] s1] eqn:Hfirst end.
  - unfold bind at 1. unfold gets at 1. unfold bind at 1.
    unfold freelist_length at 1, gets at 1.
    unfold bind at 1.
    pose proof (bmap_entry_terminates
      (S (S (flen s1))) (i_dev (fs_ip s))
      (addr_get (i_addrs (fs_ip s1)) (NDIRECT + 1))
      (u32 (u32 (bn - NDIRECT) - NINDIRECT) / NINDIRECT) true s1) as Ht.
    specialize (Ht ltac:(lia)). unfold flen in Ht.
    destruct (bmap_entry _ _ _ _ true s1) as [[a|e] s2]; [|exact Ht].
    unfold bind, freelist_length, gets.
    apply bmap_entry_terminates. unfold flen. lia.
  - revert Hfirst. unfold when.
    destruct (addr_get (i_addrs (fs_ip s)) (NDIRECT + 1) =? 0); [|discriminate].
    unfold bind at 1. pose proof (balloc_cases (i_dev (fs_ip s)) true s) as Hb.
    destruct (balloc (i_dev (fs_ip s)) true s) as [[a|e'] s2].
    + unfold set_addr, modify_ip, modify. discriminate.
    + intros [= <- _]. simpl. congruence.
Qed.

End block_map.

Section write_path.
Context `{fs_params}.
Hypothesis BSIZE_pos : 0 < BSIZE.
Hypothesis BSIZE_int : BSIZE < 2 ^ 31.

Lemma chunk_bounds (n written off : Z) :
  0 <= written < n -> n < 2 ^ 32 ->
  let m := s32 (Z.min (u32 (n - s32 written)) (u32 (BSIZE - off mod BSIZE))) in
  1 <= m <= n - written /\ m <= BSIZE.
Proof.
  intros Hw Hn. cbv zeta.
  pose proof (Z.mod_pos_bound off BSIZE BSIZE_pos) as Hmod.
  rewrite u32_sub_s32.
  rewrite (u32_small (n - written)) by lia.
  rewrite (u32_small (BSIZE - off mod BSIZE))
    by (change (2 ^ 32) with 4294967296; change (2 ^ 31) with 2147483648 in BSIZE_int; lia).
  rewrite s32_small
    by (change (2 ^ 31) with 2147483648 in *; lia).
  lia.
Qed.

#[local] Opaque bmap.

Lemma writei_loop_post (src : Z -> Z) (n : Z) (wb : bool) (fuel : nat) :
  0 <= n < 2 ^ 32 ->
  forall (tot off written : Z) (s : fs),
    0 <= written <= n -> tot = s32 written -> n - written <= Z.of_nat fuel ->
    writei_post n (writei_loop fuel src n wb tot off written s).1.
Proof.
  intros Hn. induction fuel as [|fuel IH]; intros tot off written s Hw -> Hfuel.
  - simpl. rewrite u32_s32, u32_small by lia.
    destruct (written <? n) eqn:Hlt; [lia|].
    simpl. split; [lia|]. f_equal. lia.
  - simpl. rewrite u32_s32, u32_small by lia.
    destruct (written <? n) eqn:Hlt.
    2:{ simpl. split; [lia|]. f_equal. lia. }
    apply Z.ltb_lt in Hlt.
    pose proof (chunk_bounds n written off ltac:(lia) ltac:(lia)) as Hm.
    cbv zeta in Hm.
    set (m := s32 (Z.min (u32 (n - s32 written)) (u32 (BSIZE - off mod BSIZE)))) in *.
    unfold bind at 1. unfold catch_out_of_blocks. unfold bind at 1.
    pose proof (bmap_terminates (off / BSIZE)
                  (negb ((off mod BSIZE =? 0) && (m =? BSIZE))) s) as Hterm.
    destruct (bmap (off / BSIZE) (negb ((off mod BSIZE =? 0) && (m =? BSIZE))) s)
      as [[blocknum|e] s1].
    + simpl. unfold bind, buf_read, buf_write, has_trans, gets, modify.
      match goal with
      | |- context [writei_loop fuel src n wb ?t ?o ?w] =>
          assert (Hrec : forall s', writei_post n (writei_loop fuel src n wb t o w s').1)
      end.
      { intros s'. apply IH; [lia | apply s32_add_l | lia]. }
      unfold when, buf_add_to_transaction, with_trans, bind, buf_read, gets, modify.
      cbn [fs_trans set_bufs].
      destruct (negb wb && bool_decide (is_Some (fs_trans s1))); simpl; apply Hrec.
    + destruct e; simpl in *; try congruence.
      split; [lia|].
      destruct (written =? 0) eqn:Hz.
      * apply Z.eqb_eq in Hz. subst written. reflexivity.
      * destruct (s32 written =? 0) eqn:Hs; [|reflexivity].
        apply Z.eqb_eq in Hs. apply s32_zero in Hs; [|lia].
        apply Z.eqb_neq in Hz. contradiction.
Qed.

Lemma writei_len_range (off n : Z) :
  0 <= n < 2 ^ 32 -> 0 <= writei_len off n < 2 ^ 32.
Proof.
  intros Hn. unfold writei_len.
  destruct (u32 (off + n) >? MAXFILE * BSIZE); [apply u32_range | assumption].
Qed.

(** What a call of [writei] can end in. *)
Lemma writei_run_post (src : Z -> Z) (off n : Z) (wb : bool) (s : fs) :
  0 <= n < 2 ^ 32 ->
  match (writei_run src off n wb s).1 with
  | Ok (r, Rejected, w) => r = -1 /\ w = 0
  | res => writei_post (writei_len off n) res
  end.
Proof.
  intros Hn. unfold writei_run. unfold bind, gets.
  destruct (i_type (fs_ip s) =? T_DEV); [simpl; auto|].
  destruct (u32 (off + n) <? off); [simpl; auto|].
  pose proof (writei_len_range off n Hn) as Hlen.
  pose proof (writei_loop_post src (writei_len off n) wb
                (Z.to_nat (writei_len off n)) Hlen 0 off 0 s
                ltac:(lia) eq_refl ltac:(lia)) as Hpost.
  destruct (writei_loop _ src _ wb 0 off 0 s) as [[[[r []] w]|e] s1]; simpl in *;
    try assumption; contradiction.
Qed.



End write_path.




Section inode_allocation.

(** An inode that [try_ialloc] hands out is not locked: the function ends
    with [iunlock]. *)
Lemma try_ialloc_unlocked (inum dev type : Z) (s s' : icache) (k : Z * Z) :
  try_ialloc inum dev type s = (Ok (Some k), s') ->
  exists ip, ins s' !! k = Some ip /\ i_busy ip = false.
Proof.
  unfold try_ialloc. unfold bind at 1.
  destruct (iget dev inum s) as [[k0|e] s1]; [|discriminate].
  unfold bind at 1.
  destruct (deref k0 s1) as [[ip|e] s2]; [|discriminate].
  destruct (negb (i_type ip =? 0)); [discriminate|].
  unfold bind at 1. unfold store at 1, modify at 1.
  unfold bind at 1.
  destruct (ilock k0 true _) as [[[]|e] s3]; [|discriminate].
  unfold bind at 1.
  destruct (deref k0 s3) as [[ip3|e] s4]; [|discriminate].
  unfold bind at 1. unfold store at 1, modify at 1.
  destruct (_ || _); [discriminate|].
  unfold bind at 1. unfold iunlock. unfold bind at 1.
  destruct (deref k0 _) as [[ip5|e] s5]; [|discriminate].
  destruct (_ && _); [discriminate|].
  unfold store, modify. intros [= <- <-].
  eexists. simpl. rewrite lookup_insert_eq. split; reflexivity.
Qed.

Lemma keeps_sb_root_bind {A B : Type} (m : M icache A) (k : A -> M icache B) :
  keeps_sb_root m -> (forall a, keeps_sb_root (k a)) -> keeps_sb_root (bind m k).
Proof.
  intros Hm Hk s. unfold bind. specialize (Hm s).
  destruct (m s) as [[a|e] s1]; simpl in *; [rewrite Hk|]; assumption.
Qed.

Lemma keeps_sb_root_ret {A : Type} (a : A) : keeps_sb_root (ret a : M icache A).
Proof. intros s. reflexivity. Qed.

Lemma keeps_sb_root_fail {A : Type} (e : failure) : keeps_sb_root (fail e : M icache A).
Proof. intros s. reflexivity. Qed.

Lemma keeps_sb_root_gets {A : Type} (f : icache -> A) : keeps_sb_root (gets f).
Proof. intros s. reflexivity. Qed.

Lemma keeps_sb_root_store (k : Z * Z) (ip : inode) : keeps_sb_root (store k ip).
Proof. intros s. reflexivity. Qed.

Ltac keeps_sb :=
  repeat first
    [ apply keeps_sb_root_ret | apply keeps_sb_root_fail | apply keeps_sb_root_gets
    | apply keeps_sb_root_store
    | apply keeps_sb_root_bind; [|intros ?]
    | match goal with
      | |- keeps_sb_root (match ?x with _ => _ end) => destruct x
      | |- keeps_sb_root (if ?x then _ else _) => destruct x
      end ].

Lemma keeps_sb_root_deref (k : Z * Z) : keeps_sb_root (deref k).
Proof. unfold deref. keeps_sb. Qed.

Lemma keeps_sb_root_ilock (k : Z * Z) (writer : bool) : keeps_sb_root (ilock k writer).
Proof. unfold ilock. apply keeps_sb_root_bind; [apply keeps_sb_root_deref|intros ?]. keeps_sb. Qed.

Lemma keeps_sb_root_iunlock (k : Z * Z) : keeps_sb_root (iunlock k).
Proof. unfold iunlock. apply keeps_sb_root_bind; [apply keeps_sb_root_deref|intros ?]. keeps_sb. Qed.

Lemma keeps_sb_root_iget (dev inum : Z) : keeps_sb_root (iget dev inum).
Proof.
  unfold iget. apply keeps_sb_root_bind; [apply keeps_sb_root_gets|intros c].
  destruct (c !! (dev, inum)) as [ip|]; [keeps_sb|].
  apply keeps_sb_root_bind; [apply keeps_sb_root_gets|intros tbl].
  apply keeps_sb_root_bind; [apply keeps_sb_root_store|intros ?].
  apply keeps_sb_root_bind; [apply keeps_sb_root_iunlock|intros ?].
  apply keeps_sb_root_ret.
Qed.

Lemma try_ialloc_sb_root (inum dev type : Z) (s : icache) :
  ic_sb_root (try_ialloc inum dev type s).2 = ic_sb_root s.
Proof.
  revert s. change (keeps_sb_root (try_ialloc inum dev type)). unfold try_ialloc.
  apply keeps_sb_root_bind; [apply keeps_sb_root_iget|intros k].
  apply keeps_sb_root_bind; [apply keeps_sb_root_deref|intros ip].
  destruct (negb _); [apply keeps_sb_root_ret|].
  apply keeps_sb_root_bind; [apply keeps_sb_root_store|intros ?].
  apply keeps_sb_root_bind; [apply keeps_sb_root_ilock|intros ?].
  apply keeps_sb_root_bind; [apply keeps_sb_root_deref|intros ip'].
  apply keeps_sb_root_bind; [apply keeps_sb_root_store|intros ?].
  destruct (_ || _); [apply keeps_sb_root_fail|].
  apply keeps_sb_root_bind; [apply keeps_sb_root_iunlock|intros ?].
  apply keeps_sb_root_ret.
Qed.

Lemma bind_ext_at {S A B : Type} (m : M S A) (k k' : A -> M S B) (s : S) :
  (forall a s1, m s = (Ok a, s1) -> k a s1 = k' a s1) ->
  bind m k s = bind m k' s.
Proof.
  intros Hk. unfold bind. destruct (m s) as [[a|e] s1]; [apply Hk|]; reflexivity.
Qed.

Section scan.
Variables (cpu : nat) (dev type : Z) (n : Z).
Hypothesis n_int : 0 < n < 2 ^ 31.

Ltac small :=
  change (2 ^ 31) with 2147483648 in *; change (2 ^ 32) with 4294967296 in *; lia.

(** After the wrap: the numbers from [inum] to the last inode. *)
Lemma ialloc_loop_wrapped (k : nat) : forall (fuel : nat) (inum : Z) (s : icache),
  sb_ninodes (ic_sb_root s) = n -> 1 <= inum -> inum + Z.of_nat k = n ->
  (k <= fuel)%nat ->
  ialloc_loop fuel cpu dev type inum true s
  = try_in_order cpu dev type (seqZ inum (Z.of_nat k)) s.
Proof.
  induction k as [|k IH]; intros fuel inum s Hn Hi Hk Hfuel.
  - rewrite seqZ_nil by lia.
    assert (Hend : (u32 inum <? n) = false).
    { rewrite u32_small by small. apply Z.ltb_ge. lia. }
    destruct fuel; simpl; unfold bind at 1, gets at 1; rewrite Hn, Hend; reflexivity.
  - rewrite seqZ_cons by lia. destruct fuel as [|fuel]; [lia|].
    simpl. unfold bind at 1, gets at 1. rewrite Hn.
    rewrite (u32_small inum) by small.
    assert (Hlt : (inum <? n) = true) by (apply Z.ltb_lt; lia). rewrite Hlt.
    assert (Hz : (inum =? 0) = false) by (apply Z.eqb_neq; lia). rewrite Hz.
    apply bind_ext_at. intros r s1 Htry.
    pose proof (try_ialloc_sb_root inum dev type s) as Hsb.
    rewrite Htry in Hsb. simpl in Hsb.
    destruct r as [key|]; [reflexivity|].
    rewrite andb_false_r.
    rewrite s32_small by small.
    replace (Z.pred (Z.of_nat (S k))) with (Z.of_nat k) by lia.
    apply IH; [rewrite Hsb; assumption | lia | lia | lia].
Qed.

(** Before the wrap: the numbers from [inum] to the last inode, then all of
    them once more. *)
Lemma ialloc_loop_first_pass (k : nat) : forall (fuel : nat) (inum : Z) (s : icache),
  sb_ninodes (ic_sb_root s) = n -> 1 <= inum -> inum + Z.of_nat k = n - 1 ->
  (k + 1 + Z.to_nat (n - 1) <= fuel)%nat ->
  ialloc_loop fuel cpu dev type inum false s
  = try_in_order cpu dev type (seqZ inum (Z.of_nat k + 1) ++ seqZ 1 (n - 1)) s.
Proof.
  induction k as [|k IH]; intros fuel inum s Hn Hi Hk Hfuel.
  - rewrite seqZ_cons by lia. rewrite (seqZ_nil _ (Z.pred _)) by lia.
    destruct fuel as [|fuel]; [lia|].
    simpl. unfold bind at 1, gets at 1. rewrite Hn.
    rewrite (u32_small inum) by small.
    assert (Hlt : (inum <? n) = true) by (apply Z.ltb_lt; lia). rewrite Hlt.
    assert (Hz : (inum =? 0) = false) by (apply Z.eqb_neq; lia). rewrite Hz.
    apply bind_ext_at. intros r s1 Htry.
    pose proof (try_ialloc_sb_root inum dev type s) as Hsb.
    rewrite Htry in Hsb. simpl in Hsb.
    destruct r as [key|]; [reflexivity|].
    rewrite (u32_small (n - 1)) by small.
    assert (Hlast : (inum =? n - 1) = true) by (apply Z.eqb_eq; lia).
    rewrite Hlast. cbn [negb andb].
    change (s32 (0 + 1)) with 1.
    rewrite (ialloc_loop_wrapped (Z.to_nat (n - 1)) fuel 1 s1);
      [rewrite Z2Nat.id by lia; reflexivity | rewrite Hsb; assumption | lia | lia | lia].
  - rewrite seqZ_cons by lia. destruct fuel as [|fuel]; [lia|].
    simpl. unfold bind at 1, gets at 1. rewrite Hn.
    rewrite (u32_small inum) by small.
    assert (Hlt : (inum <? n) = true) by (apply Z.ltb_lt; lia). rewrite Hlt.
    assert (Hz : (inum =? 0) = false) by (apply Z.eqb_neq; lia). rewrite Hz.
    apply bind_ext_at. intros r s1 Htry.
    pose proof (try_ialloc_sb_root inum dev type s) as Hsb.
    rewrite Htry in Hsb. simpl in Hsb.
    destruct r as [key|]; [reflexivity|].
    rewrite (u32_small (n - 1)) by small.
    assert (Hlast : (inum =? n - 1) = false) by (apply Z.eqb_neq; lia).
    rewrite Hlast. cbn [andb].
    rewrite s32_small by small.
    replace (Z.pred (Z.of_nat (S k) + 1)) with (Z.of_nat k + 1) by lia.
    apply IH; [rewrite Hsb; assumption | lia | lia | lia].
Qed.

(** Inode 0 is passed over. *)
Lemma ialloc_loop_skip_zero (fuel : nat) (a : bool) (s : icache) :
  sb_ninodes (ic_sb_root s) = n ->
  ialloc_loop (S fuel) cpu dev type 0 a s = ialloc_loop fuel cpu dev type 1 a s.
Proof.
  intros Hn. simpl. unfold bind at 1, gets at 1. rewrite Hn.
  change (u32 0) with 0.
  assert (Hlt : (0 <? n) = true) by (apply Z.ltb_lt; lia). rewrite Hlt.
  reflexivity.
Qed.

(** X11. [ialloc] tries the inode numbers in the order of [scan_order]. *)
Lemma ialloc_scan_order (s : icache) :
  sb_ninodes (ic_sb_root s) = n ->
  0 <= default 0 (last_inode s !! cpu) + 1 < 2 ^ 31 ->
  ialloc cpu dev type s
  = try_in_order cpu dev type (scan_order (default 0 (last_inode s !! cpu)) n) s.
Proof.
  intros Hn Hlast. unfold ialloc, scan_order.
  unfold bind at 1, gets at 1. rewrite Hn. unfold bind at 1, gets at 1.
  assert (Hnz : (n =? 0) = false) by (apply Z.eqb_neq; lia). rewrite Hnz.
  set (l := default 0 (last_inode s !! cpu)) in *.
  rewrite (u32_small (l + 1)) by small.
  pose proof (Z.mod_pos_bound (l + 1) n ltac:(lia)) as Hmod.
  rewrite s32_small by small.
  set (start := (l + 1) mod n) in *.
  destruct (Z.eq_dec start 0) as [H0|H0].
  - rewrite H0. change (Z.max 0 1) with 1.
    replace (2 * Z.to_nat n + 2)%nat with (S (2 * Z.to_nat n + 1))%nat by lia.
    rewrite ialloc_loop_skip_zero by assumption.
    destruct (Z.eq_dec n 1) as [H1|H1].
    + rewrite H1. rewrite !seqZ_nil by lia.
      change (2 * Z.to_nat 1 + 1)%nat with 3%nat. simpl.
      unfold bind at 1, gets at 1. rewrite Hn, H1. reflexivity.
    + rewrite (ialloc_loop_first_pass (Z.to_nat (n - 2)) _ 1 s);
        [|assumption | lia | lia | lia].
      replace (Z.of_nat (Z.to_nat (n - 2)) + 1) with (n - 1) by lia. reflexivity.
  - rewrite Z.max_l by lia.
    rewrite (ialloc_loop_first_pass (Z.to_nat (n - 1 - start)) _ start s);
      [|assumption | lia | lia | lia].
    replace (Z.of_nat (Z.to_nat (n - 1 - start)) + 1) with (n - start) by lia.
    reflexivity.
Qed.

End scan.

(** An inode that [ialloc] hands out is not locked. *)
Lemma ialloc_loop_unlocked (cpu : nat) (dev type : Z) (fuel : nat) :
  forall (inum : Z) (all_scanned : bool) (s s' : icache) (k : Z * Z),
  ialloc_loop fuel cpu dev type inum all_scanned s = (Ok (Some k), s') ->
  exists ip, ins s' !! k = Some ip /\ i_busy ip = false.
Proof.
  induction fuel as [|fuel IH]; intros inum all_scanned s s' k; simpl;
    unfold bind at 1, gets at 1.
  - destruct (u32 inum <? _); [discriminate|].
    unfold bind, modify, ret. discriminate.
  - destruct (u32 inum <? _); [|unfold bind, modify, ret; discriminate].
    destruct (inum =? 0); [apply IH|].
    unfold bind at 1.
    destruct (try_ialloc (u32 inum) dev type s) as [[[key|]|e] s1] eqn:Htry;
      [| |discriminate].
    + unfold bind, modify, ret. intros [= <- <-].
      apply try_ialloc_unlocked in Htry. exact Htry.
    + destruct (_ && _); apply IH.
Qed.

(** X12. Whatever inode [ialloc] returns, it returns it unlocked: the entry is
    in the inode cache and its [busy] flag is off. *)
Lemma ialloc_unlocked (cpu : nat) (dev type : Z) (s s' : icache) (k : Z * Z) :
  ialloc cpu dev type s = (Ok (Some k), s') ->
  exists ip, ins s' !! k = Some ip /\ i_busy ip = false.
Proof.
  unfold ialloc. unfold bind at 1, gets at 1. unfold bind at 1, gets at 1.
  destruct (_ =? 0); [discriminate|]. apply ialloc_loop_unlocked.
Qed.

(** C6. On the sample inode table [ialloc] starts at inode
    [last_inode + 1 = 1], passes it because it is in use, and chooses
    inode 2, the first free one; the inode comes back with its type set and
    its generation bumped, but not locked: [busy] is false and [readbusy] is
    0, so that the [iunlock] of the caller panics. *)
Theorem ialloc_returns_unlocked :
  exists s',
    ialloc 0 1 2 sample_icache = (Ok (Some (1, 2)), s') /\
    last_inode s' = [2] /\
    i_type <$> ins s' !! (1, 2) = Some 2 /\
    i_gen <$> ins s' !! (1, 2) = Some 1 /\
    i_busy <$> ins s' !! (1, 2) = Some false /\
    i_readbusy <$> ins s' !! (1, 2) = Some 0 /\
    (iunlock (1, 2) s').1 = Fail (Panic "iunlock").
Proof.
  eexists. split; [vm_compute; reflexivity|].
  repeat split; vm_compute; reflexivity.
Qed.

End inode_allocation.

Section reclaim_list.
Context `{fs_params}.

(** [defer_inode_reclaim] never changes the in-memory superblock, which is
    where every call reads the count and the list from. *)
Lemma defer_inode_reclaim_keeps_sb_root (inum : Z) (stack : superblock) (s : sbstate) :
  sb_root (defer_inode_reclaim inum stack s).2 = sb_root s.
Proof.
  unfold defer_inode_reclaim, bind, gets, modify.
  destruct (_ >=? _); reflexivity.
Qed.

End reclaim_list.

(** C8. With [NRECLAIM_INODES] = 2 and an empty reclaim list, three calls
    for the inodes 5, 7 and 9 leave the superblock on disk with one entry,
    the last inode, and a count of 1: each call starts from the in-memory
    superblock, which no call updates, so the entries 5 and 7 are lost and
    the third call, which comes after [NRECLAIM_INODES] calls, is neither
    warned about nor dropped. *)
Theorem defer_inode_reclaim_overwrites :
  let run :=
    bind (@defer_inode_reclaim small_geometry 5 sample_sb) (fun _ =>
    bind (@defer_inode_reclaim small_geometry 7 sample_sb) (fun _ =>
          @defer_inode_reclaim small_geometry 9 sample_sb)) in
  (run sample_sbstate).1 = Ok tt /\
  num_reclaim_inodes (sb_block1 (run sample_sbstate).2) = 1 /\
  reclaim_inodes (sb_block1 (run sample_sbstate).2) = [9; 0] /\
  sb_console (run sample_sbstate).2 = [] /\
  sb_root (run sample_sbstate).2 = sample_sb.
Proof. vm_compute. repeat split; reflexivity. Qed.

Section recovery.
Context `{fs_params}.

(** Once the scan has set [jrnl_error], what follows in the file is not
    read. *)
Lemma scan_journal_stops (l1 : list jslot) : forall (l2 : list jslot)
    (current : Z) (block_vec : list (Z * block)) (trans : transaction),
  (scan_journal l1 current block_vec trans).1.1 = true ->
  scan_journal (l1 ++ l2) current block_vec trans
  = scan_journal l1 current block_vec trans.
Proof.
  induction l1 as [|x l1 IH]; intros l2 current block_vec trans Herr.
  - simpl in Herr. discriminate.
  - simpl in *. destruct (is_zero_header (js_hdr x)); [discriminate|].
    destruct (js_data x) as [d|]; [|discriminate].
    destruct (block_type (js_hdr x) =? jrnl_start); [apply IH; assumption|].
    destruct (block_type (js_hdr x) =? jrnl_data).
    { destruct (timestamp (js_hdr x) =? current); [apply IH; assumption | reflexivity]. }
    destruct (block_type (js_hdr x) =? jrnl_commit); [|reflexivity].
    destruct (timestamp (js_hdr x) =? current); [apply IH; assumption | reflexivity].
Qed.

(** A corrupted record ends the scan with [jrnl_error] set; the
    transaction keeps what was committed before and the open block vector
    is the one at that point. *)
Lemma scan_journal_bad_record (x : jslot) (rest : list jslot) (d : block)
    (current : Z) (block_vec : list (Z * block)) (trans : transaction) :
  is_zero_header (js_hdr x) = false -> js_data x = Some d ->
  bad_record current (js_hdr x) = true ->
  scan_journal (x :: rest) current block_vec trans = (true, trans, block_vec).
Proof.
  intros Hnz Hd Hbad. simpl. rewrite Hnz, Hd. unfold bad_record in Hbad.
  destruct (block_type (js_hdr x) =? jrnl_start); [discriminate|].
  destruct (block_type (js_hdr x) =? jrnl_data).
  { destruct (timestamp (js_hdr x) =? current); [discriminate | reflexivity]. }
  destruct (block_type (js_hdr x) =? jrnl_commit); [|reflexivity].
  destruct (timestamp (js_hdr x) =? current); [discriminate | reflexivity].
Qed.

(** C1, as amended. When [process_journal] meets a corrupted record (a
    [jrnl_data] or [jrnl_commit] header whose timestamp is not the open
    transaction's, or an unknown header type), the scan ends at that record
    with [jrnl_error] set and nothing behind the record is read; the journal
    is reset; and nothing is applied: the home locations and the buffer cache
    stay as they were, so the uncommitted block vector is discarded and so
    are the transactions committed before the bad record.  A scan that ends
    without [jrnl_error] applies the committed blocks. *)
Theorem process_journal_on_corruption (s : mfs) :
  let file := sv6_journal (fs_journal s) in
  let r := scan_journal file 0 [] (new_transaction 0) in
  (forall rest, r.1.1 = true ->
     scan_journal (file ++ rest) 0 [] (new_transaction 0) = r) /\
  (forall x rest d current block_vec trans,
     is_zero_header (js_hdr x) = false -> js_data x = Some d ->
     bad_record current (js_hdr x) = true ->
     scan_journal (x :: rest) current block_vec trans = (true, trans, block_vec)) /\
  (process_journal s).1 = Ok tt /\
  current_offset (fs_journal (process_journal s).2) = 0 /\
  js_hdr <$> head (sv6_journal (fs_journal (process_journal s).2)) = Some zero_header /\
  (r.1.1 = true ->
     mfs_disk (process_journal s).2 = mfs_disk s /\
     mfs_bufs (process_journal s).2 = mfs_bufs s) /\
  (r.1.1 = false ->
     mfs_disk (process_journal s).2 =
       fold_left (fun dk b => upd dk b.1 b.2) (blocks r.1.2) (mfs_disk s)).
Proof.
  cbv zeta. split; [|split].
  - intros rest Herr. apply scan_journal_stops. assumption.
  - intros. eapply scan_journal_bad_record; eauto.
  - unfold process_journal, reset_journal, bind, gets, modify_journal, modify,
      emit, when, write_to_disk_update_bufcache.
    destruct (scan_journal _ 0 [] (new_transaction 0)) as [[err trans] bv].
    simpl. destruct err; simpl.
    + repeat split; try reflexivity; try discriminate.
      destruct (sv6_journal (fs_journal s)); reflexivity.
    + repeat split; try reflexivity; try discriminate.
      destruct (sv6_journal (fs_journal s)); reflexivity.
Qed.

End recovery.

(** C1 as the specification states it fails: the journal below holds a
    transaction that writes block 5 and is committed, then a data record of
    another transaction; recovery leaves block 5 as it was. *)
Lemma process_journal_counterexample :
  ~ committed_prefix_applied small_geometry /\
  (let s := sample_mfs corrupted_journal [] ∅ in
   let r := @scan_journal small_geometry corrupted_journal 0 [] (new_transaction 0) in
   r.1.1 = true /\ blocks r.1.2 = [(5, [42])] /\
   mfs_disk (@process_journal small_geometry s).2 5 = []).
Proof.
  split.
  - intros Hclaim.
    specialize (Hclaim (sample_mfs corrupted_journal [] ∅) ltac:(reflexivity)).
    apply (f_equal (fun dk => dk 5)) in Hclaim. vm_compute in Hclaim. discriminate.
  - vm_compute. repeat split; reflexivity.
Qed.

Lemma process_journal_on_corruption_witness :
  let s := sample_mfs corrupted_journal [] ∅ in
  mfs_disk (@process_journal small_geometry s).2 = mfs_disk s /\
  mfs_bufs (@process_journal small_geometry s).2 = mfs_bufs s.
Proof.
  cbv zeta.
  refine (proj1 (proj2 (proj2 (proj2 (proj2 (proj2
    (@process_journal_on_corruption small_geometry
       (sample_mfs corrupted_journal [] ∅))))))) _).
  vm_compute. reflexivity.
Defined.

Section journal_space.
Context `{fs_params}.





















End journal_space.


Section rename.

(** X24. For two different parent directories [apply_rename_pair] is all or
    nothing: it pops the pair off the rename stack and either applies both
    halves on one transaction and erases them from their oplogs, or, when
    the pair is no longer at the front of the two oplogs, changes nothing
    else. *)
Lemma apply_rename_pair_two_dirs (rm_1 rm_2 : rename_metadata)
    (stack : list rename_metadata) (s : mfs) (src_vec dst_vec : list mfs_operation) :
  rm_timestamp rm_1 = rm_timestamp rm_2 ->
  src_parent_mnum rm_1 <> dst_parent_mnum rm_1 ->
  metadata_log_htab s !! src_parent_mnum rm_1 = Some src_vec ->
  metadata_log_htab s !! dst_parent_mnum rm_1 = Some dst_vec ->
  apply_rename_pair (rm_1 :: rm_2 :: stack) s =
    (Ok stack,
     if rename_ready (rm_timestamp rm_1) src_vec dst_vec
     then rename_applied (src_parent_mnum rm_1) (dst_parent_mnum rm_1) src_vec dst_vec s
     else s).
Proof.
  intros Hts Hne Hsrc Hdst. unfold apply_rename_pair.
  rewrite Hts, Z.eqb_refl. cbn [negb]. unfold bind at 1, gets at 1. cbv beta.
  rewrite Hsrc.
  assert (Hneq : (dst_parent_mnum rm_1 =? src_parent_mnum rm_1) = false)
    by (apply Z.eqb_neq; congruence).
  rewrite Hneq. cbn [negb]. rewrite Hdst.
  unfold bind at 1, ret at 1.
  destruct src_vec as [|u src_rest]; [reflexivity|].
  destruct dst_vec as [|l dst_rest]; [destruct u; reflexivity|].
  destruct l; try (destruct u; reflexivity).
  destruct u; try reflexivity.
  cbn [rename_ready].
  destruct ((_ =? _) && (_ =? _)); reflexivity.
Qed.

(** C9. A rename pair whose two sub-operations have the same parent
    directory: [mfs_log_dst] is never assigned, and the call goes on to use
    it. *)
Theorem apply_rename_pair_same_directory :
  let rm := {| src_parent_mnum := 3; dst_parent_mnum := 3; rm_timestamp := 50 |} in
  let s := sample_mfs [] [] same_dir_oplogs in
  apply_rename_pair [rm; rm] s
  = (Fail (Undefined "mfs_log_dst is not initialised"), s).
Proof. vm_compute. reflexivity. Qed.

Lemma apply_rename_pair_two_dirs_witness :
  let rm := {| src_parent_mnum := 3; dst_parent_mnum := 4; rm_timestamp := 50 |} in
  let s := sample_mfs [] [] rename_oplogs in
  exists s',
    apply_rename_pair [rm; rm] s = (Ok [], s') /\
    applied_ops <$> transaction_log (fs_journal s') =
      [[mfs_operation_rename_link 50 9 3 4 "b" 1;
        mfs_operation_rename_unlink 50 9 3 4 "a"]] /\
    metadata_log_htab s' !! 3 = Some [] /\ metadata_log_htab s' !! 4 = Some [].
Proof.
  cbv zeta. eexists. split.
  - refine (apply_rename_pair_two_dirs _ _ _ _ _ _ _ _ _ _);
      vm_compute; first [reflexivity | discriminate].
  - vm_compute. repeat split; reflexivity.
Defined.

End rename.

Lemma delayed_free_until_post_process_witness :
  let ip := sample_inode 1024 (5 :: 6 :: replicate 10 0) in
  let s := sample_fs [true; true; true; true; true; true; true; true] ip
             (Some (new_transaction 9)) in
  let s' := (@itrunc small_geometry 0 s).2 in
  fs_alloc s' = fs_alloc s /\
  free_block_list <$> fs_trans s' = Some [5; 6] /\
  exists a',
    post_process_transaction
      {| timestamp_ := 9; blocks := []; allocated_block_list := [];
         free_block_list := [5; 6]; applied_ops := [] |} (fs_alloc s) = Ok a' /\
    free_bit_freelist a' = [6%nat; 5%nat].
Proof.
  cbv zeta.
  destruct (@delayed_free_until_post_process small_geometry) as (_ & Hit & Hpost).
  split; [apply Hit|]. split; [vm_compute; reflexivity|].
  destruct (Hpost
    {| timestamp_ := 9; blocks := []; allocated_block_list := [];
       free_block_list := [5; 6]; applied_ops := [] |}
    (free_bits_of_bitmap [true; true; true; true; true; true; true; true]))
    as (a' & Hrun & Hfl & _).
  - apply free_bits_of_bitmap_inv.
  - repeat constructor; lia.
  - apply NoDup_cons. split.
    + intros Hin. apply elem_of_cons in Hin as [Heq|Hin]; [discriminate | inversion Hin].
    + apply NoDup_cons. split; [intros Hin; inversion Hin | constructor].
  - intros f Hf. simpl in Hf.
    apply elem_of_cons in Hf as [->|Hf]; [eexists; split; reflexivity|].
    apply elem_of_cons in Hf as [->|Hf]; [eexists; split; reflexivity|].
    inversion Hf.
  - exists a'. split; [exact Hrun | exact Hfl].
Defined.

(** *** The allocator: round trips and counts *)

Section allocator_round_trips.

Lemma alloc_block_nonempty (sb_size : Z) (a : allocator) (it : nat) (rest : list nat) :
  freelist_inv a -> free_bit_freelist a = it :: rest ->
  exists bit,
    free_bit_vector a !! it = Some bit /\ is_free bit = true /\ bno_ bit = Z.of_nat it /\
    alloc_block sb_size a =
      Ok (Z.of_nat it,
          {| free_bit_vector := <[it := set_is_free false bit]> (free_bit_vector a);
             free_bit_freelist := rest |}).
Proof.
  intros (Hnd & Hmem & Hbno) Hfl.
  destruct (proj1 (Hmem it)) as (bit & Hbit & Hfree).
  { rewrite Hfl. apply elem_of_cons. left. reflexivity. }
  exists bit. split; [exact Hbit|]. split; [exact Hfree|].
  pose proof (Hbno _ _ Hbit) as Hb. split; [exact Hb|].
  unfold alloc_block. rewrite Hfl, Hbit, Hfree, Hb. reflexivity.
Qed.

(** X1. Allocation and release undo each other.  A block that [alloc_block]
    hands out, given back with [free_block], leaves the allocator exactly as
    it was before the allocation; and a block given back with [free_block] is
    the one that the next [alloc_block] hands out, which leaves the allocator
    as it was before the release. *)
Theorem alloc_free_round_trip (sb_size : Z) (a a' : allocator) (b : Z) :
  freelist_inv a ->
  (free_bit_freelist a <> [] -> alloc_block sb_size a = Ok (b, a') ->
   free_block b a' = Ok a) /\
  (0 <= b -> free_block b a = Ok a' -> alloc_block sb_size a' = Ok (b, a)).
Proof.
  intros Hinv. split.
  - intros Hne Hrun. destruct (free_bit_freelist a) as [|it rest] eqn:Hfl; [congruence|].
    destruct (alloc_block_nonempty sb_size a it rest Hinv Hfl)
      as (bit & Hbit & Hfree & Hb & Hrun').
    rewrite Hrun' in Hrun. injection Hrun as <- <-.
    unfold free_block. simpl. rewrite Nat2Z.id.
    rewrite list_lookup_insert_eq by (eapply lookup_lt_Some; eauto).
    simpl. f_equal. destruct a as [v fl]. simpl in *. subst fl. f_equal.
    rewrite list_insert_insert_eq. apply list_insert_id.
    rewrite Hbit. f_equal. destruct bit as [n f]. simpl in *. subst f. reflexivity.
  - intros Hb Hrun. unfold free_block in Hrun.
    destruct (free_bit_vector a !! Z.to_nat b) as [bit|] eqn:Hbit; [|discriminate].
    destruct (is_free bit) eqn:Hfree; [discriminate|].
    injection Hrun as <-. unfold alloc_block. simpl.
    rewrite list_lookup_insert_eq by (eapply lookup_lt_Some; eauto).
    simpl. destruct Hinv as (_ & _ & Hbno). rewrite (Hbno _ _ Hbit).
    rewrite Z2Nat.id by assumption. f_equal. f_equal.
    destruct a as [v fl]. simpl in *. f_equal.
    rewrite list_insert_insert_eq. apply list_insert_id.
    rewrite Hbit. f_equal. destruct bit as [n f]. simpl in *. subst f. reflexivity.
Qed.

Lemma alloc_free_round_trip_witness :
  free_block 1 (free_bits_of_bitmap [true; true; false])
    = Ok (free_bits_of_bitmap [true; false; false]) /\
  alloc_block 3 (free_bits_of_bitmap [true; false; false])
    = Ok (1, free_bits_of_bitmap [true; true; false]).
Proof.
  split.
  - refine (proj1 (alloc_free_round_trip 3 (free_bits_of_bitmap [true; false; false])
               (free_bits_of_bitmap [true; true; false]) 1 (free_bits_of_bitmap_inv _)) _ _);
      vm_compute; first [reflexivity | discriminate].
  - refine (proj2 (alloc_free_round_trip 3 (free_bits_of_bitmap [true; true; false])
               (free_bits_of_bitmap [true; false; false]) 1 (free_bits_of_bitmap_inv _)) _ _);
      vm_compute; first [reflexivity | discriminate].
Defined.

(** X2. Successive allocations hand out the blocks of the freelist from its
    head on: [n] calls of [alloc_block] on a freelist of at least [n] entries
    return the first [n] entries, which are pairwise distinct blocks that
    were free before and are allocated after; no other bit changes, and the
    rest of the freelist is left. *)
Theorem alloc_block_never_repeats (n : nat) : forall (sb_size : Z) (a : allocator),
  freelist_inv a -> (n <= length (free_bit_freelist a))%nat ->
  exists bs a',
    alloc_blocks n sb_size a = Ok (bs, a') /\
    bs = Z.of_nat <$> take n (free_bit_freelist a) /\
    NoDup bs /\
    free_bit_freelist a' = drop n (free_bit_freelist a) /\
    (forall j : nat, j ∈ take n (free_bit_freelist a) ->
       is_free <$> free_bit_vector a !! j = Some true /\
       is_free <$> free_bit_vector a' !! j = Some false) /\
    (forall j : nat, j ∉ take n (free_bit_freelist a) ->
       free_bit_vector a' !! j = free_bit_vector a !! j) /\
    freelist_inv a'.
Proof.
  induction n as [|n IH]; intros sb_size a Hinv Hlen.
  - exists [], a. simpl. rewrite drop_0.
    split; [reflexivity|]. split; [reflexivity|]. split; [constructor|].
    split; [reflexivity|]. split; [intros j Hj; inversion Hj|].
    split; [reflexivity | assumption].
  - destruct (free_bit_freelist a) as [|it rest] eqn:Hfl; [simpl in Hlen; lia|].
    destruct (alloc_block_nonempty sb_size a it rest Hinv Hfl)
      as (bit & Hbit & Hfree & Hb & Hrun).
    pose proof (alloc_block_inv _ _ _ _ Hinv Hrun) as Hinv1.
    set (a1 := {| free_bit_vector := <[it := set_is_free false bit]> (free_bit_vector a);
                  free_bit_freelist := rest |}) in *.
    destruct (IH sb_size a1 Hinv1)
      as (bs & a' & Hruns & Hbs & Hnd & Hfl' & Hbits & Hother & Hinv').
    { simpl in *. lia. }
    assert (Hnotin : it ∉ take n rest).
    { destruct Hinv as (Hnd0 & _). rewrite Hfl in Hnd0.
      apply NoDup_cons in Hnd0 as [Hni _]. intros Hin. apply Hni.
      eapply subseteq_take; eauto. }
    exists (Z.of_nat it :: bs), a'. simpl. rewrite Hrun, Hruns.
    split; [reflexivity|]. split; [rewrite Hbs; reflexivity|].
    split; [|split; [exact Hfl'|split; [|split; [|exact Hinv']]]].
    + apply NoDup_cons. split; [|assumption].
      rewrite Hbs. intros Hin. apply list_elem_of_fmap in Hin as (j & Hj & Hin).
      apply Nat2Z.inj in Hj. subst j. contradiction.
    + intros j Hin. apply elem_of_cons in Hin as [->|Hin].
      * rewrite Hbit. simpl. rewrite Hfree. split; [reflexivity|].
        rewrite (Hother it Hnotin). simpl.
        rewrite list_lookup_insert_eq by (eapply lookup_lt_Some; eauto). reflexivity.
      * destruct (Hbits j Hin) as [H1 H2]. split; [|exact H2].
        assert (Hne : j <> it) by (intros ->; contradiction).
        simpl in H1. rewrite list_lookup_insert_ne in H1 by congruence. exact H1.
    + intros j Hj. apply not_elem_of_cons in Hj as [Hne Hj].
      rewrite (Hother j Hj). simpl. apply list_lookup_insert_ne. congruence.
Qed.

Lemma alloc_block_never_repeats_witness :
  exists a',
    alloc_blocks 2 4 (free_bits_of_bitmap [true; false; true; false]) = Ok ([1; 3], a') /\
    free_bit_freelist a' = [].
Proof.
  destruct (alloc_block_never_repeats 2 4 (free_bits_of_bitmap [true; false; true; false])
              (free_bits_of_bitmap_inv _)) as (bs & a' & Hrun & Hbs & _ & Hfl & _).
  - vm_compute. lia.
  - exists a'. rewrite Hrun, Hbs, Hfl. split; reflexivity.
Defined.

Lemma count_free_bits (v : list free_bit) : forall c : Z,
  0 <= c -> c + Z.of_nat (length v) < 2 ^ 32 ->
  fold_left (fun count bit => if is_free bit then u32 (count + 1) else count) v c
  = c + Z.of_nat (length (filter (fun bit => is_free bit = true) v)).
Proof.
  induction v as [|x v IH]; intros c Hc Hlen; simpl.
  - lia.
  - simpl in Hlen. destruct (is_free x) eqn:Hx.
    + rewrite filter_cons_True by assumption. simpl length.
      rewrite u32_small by lia. rewrite IH by lia. lia.
    + rewrite filter_cons_False by congruence. apply IH; lia.
Qed.

Lemma filter_ext_in {A} (P Q : A -> Prop) `{!forall x, Decision (P x)}
    `{!forall x, Decision (Q x)} (l : list A) :
  (forall x, x ∈ l -> (P x <-> Q x)) -> filter P l = filter Q l.
Proof.
  induction l as [|x l IH]; intros Hpq; [reflexivity|].
  assert (Hl : filter P l = filter Q l).
  { apply IH. intros y Hy. apply Hpq. apply elem_of_cons. right. assumption. }
  destruct (decide (P x)) as [Hp|Hp].
  - rewrite filter_cons_True by assumption.
    rewrite filter_cons_True by (apply Hpq; [apply elem_of_cons; left; reflexivity | assumption]).
    f_equal. assumption.
  - rewrite filter_cons_False by assumption.
    rewrite filter_cons_False; [assumption|].
    intros Hq. apply Hp. apply Hpq; [apply elem_of_cons; left; reflexivity | assumption].
Qed.

Lemma free_indices (v : list free_bit) : forall (b : nat),
  length (filter (fun bit => is_free bit = true) v)
  = length (filter (fun i : nat => is_free <$> v !! (i - b)%nat = Some true)
              (seq b (length v))).
Proof.
  induction v as [|x v IH]; intros b; [reflexivity|].
  simpl length. simpl seq.
  assert (Htail : filter (fun i : nat => is_free <$> (x :: v) !! (i - b)%nat = Some true)
                    (seq (S b) (length v))
                = filter (fun i : nat => is_free <$> v !! (i - S b)%nat = Some true)
                    (seq (S b) (length v))).
  { apply filter_ext_in. intros i Hi.
    apply elem_of_seq in Hi. replace (i - b)%nat with (S (i - S b)) by lia. reflexivity. }
  destruct (is_free x) eqn:Hx.
  - rewrite filter_cons_True by assumption.
    rewrite (filter_cons_True _ b) by (rewrite Nat.sub_diag; simpl; rewrite Hx; reflexivity).
    simpl. f_equal. rewrite Htail. apply IH.
  - rewrite filter_cons_False by congruence.
    rewrite (filter_cons_False _ b)
      by (rewrite Nat.sub_diag; simpl; rewrite Hx; discriminate).
    rewrite Htail. apply IH.
Qed.

(** X3. The count that [print_free_blocks] prints, taken from the vector, is
    the length of the freelist: the two representations agree on how many
    blocks are free. *)
Theorem print_free_blocks_counts_freelist (a : allocator) :
  freelist_inv a -> Z.of_nat (length (free_bit_vector a)) < 2 ^ 32 ->
  print_free_blocks a
  = (Z.of_nat (length (free_bit_freelist a)), Z.of_nat (length (free_bit_vector a))).
Proof.
  intros (Hnd & Hmem & _) Hlen. unfold print_free_blocks. f_equal.
  rewrite count_free_bits by lia. rewrite Z.add_0_l. f_equal.
  rewrite (free_indices _ 0).
  apply Permutation_length. apply NoDup_Permutation.
  - apply NoDup_filter, NoDup_seq.
  - assumption.
  - intros i. rewrite list_elem_of_filter, elem_of_seq, Hmem, Nat.sub_0_r. split.
    + intros [Hf _]. destruct (free_bit_vector a !! i) as [x|]; [|discriminate].
      exists x. split; [reflexivity|]. simpl in Hf. congruence.
    + intros (x & Hx & Hf). split; [rewrite Hx; simpl; congruence|].
      apply lookup_lt_Some in Hx. lia.
Qed.

Lemma print_free_blocks_counts_freelist_witness :
  print_free_blocks (free_bits_of_bitmap [true; false; true; false]) = (2, 4).
Proof.
  refine (print_free_blocks_counts_freelist _ (free_bits_of_bitmap_inv _) _).
  vm_compute. reflexivity.
Defined.

End allocator_round_trips.

(** *** The free bitmap as the boot code reads it *)

Section bitmap_decode.
Context `{fs_params}.








End bitmap_decode.


(** *** Inode locks and the inode cache *)

Section inode_locks.

Lemma set_ins_same (s : icache) : set_ins (ins s) s = s.
Proof. destruct s; reflexivity. Qed.

(** X7. A write lock excludes everybody: once [ilock(ip, 1)] has returned, a
    further [ilock] on the inode, for reading or for writing, goes to sleep
    on the condition variable, and the inode stays as the holder has it. *)
Theorem ilock_writer_excludes (k : Z * Z) (s s1 : icache) (writer : bool) :
  ilock k true s = (Ok tt, s1) ->
  (exists ip, ins s1 !! k = Some ip /\ i_busy ip = true) /\
  ilock k writer s1 = (Fail Blocked, s1).
Proof.
  unfold ilock, deref, store, bind, gets, modify, ret, fail.
  destruct (ins s !! k) as [ip|] eqn:Hk; [|discriminate].
  cbn [andb]. destruct (i_busy ip || negb (i_readbusy ip =? 0)); [discriminate|].
  cbn [negb andb]. destruct (i_valid ip); [|discriminate].
  intros [= <-]. simpl. rewrite lookup_insert_eq. simpl.
  split; [eexists; split; reflexivity|].
  destruct writer; reflexivity.
Qed.

Lemma ilock_writer_excludes_witness :
  exists s1,
    (bind (iget 1 2) (fun k => ilock k true)) sample_icache = (Ok tt, s1) /\
    ilock (1, 2) false s1 = (Fail Blocked, s1) /\
    ilock (1, 2) true s1 = (Fail Blocked, s1).
Proof.
  eexists. split; [vm_compute; reflexivity|].
  split; refine (proj2 (ilock_writer_excludes (1, 2) (iget 1 2 sample_icache).2 _ _ _));
    vm_compute; reflexivity.
Defined.

(** X8. Readers share the lock and keep writers out: after [ilock(ip, 0)] has
    returned, a second reader gets the lock as well, and a writer goes to
    sleep. *)
Theorem ilock_readers_share (k : Z * Z) (s s1 : icache) (ip : inode) :
  ins s !! k = Some ip -> 0 <= i_readbusy ip < 2 ^ 31 - 2 ->
  ilock k false s = (Ok tt, s1) ->
  ilock k true s1 = (Fail Blocked, s1) /\
  exists s2 ip2,
    ilock k false s1 = (Ok tt, s2) /\ ins s2 !! k = Some ip2 /\
    i_busy ip2 = false /\ i_readbusy ip2 = i_readbusy ip + 2.
Proof.
  intros Hk Hrb.
  assert (H1 : s32 (i_readbusy ip + 1) = i_readbusy ip + 1)
    by (apply s32_small; change (2 ^ 31) with 2147483648 in *; lia).
  assert (H2 : s32 (i_readbusy ip + 1 + 1) = i_readbusy ip + 2)
    by (rewrite s32_small; change (2 ^ 31) with 2147483648 in *; lia).
  unfold ilock, deref, store, bind, gets, modify, ret, fail. rewrite Hk.
  cbn [andb negb]. destruct (i_busy ip) eqn:Hb; [discriminate|].
  destruct (i_valid ip) eqn:Hv; [|discriminate].
  intros [= <-]. simpl. rewrite lookup_insert_eq. simpl. rewrite H1. simpl.
  assert (Hnz : (i_readbusy ip + 1 =? 0) = false) by (apply Z.eqb_neq; lia).
  rewrite Hnz. simpl. split; [reflexivity|]. rewrite Hv.
  eexists _, _. split; [reflexivity|]. simpl. rewrite lookup_insert_eq.
  split; [reflexivity|]. simpl. split; [reflexivity | exact H2].
Qed.

Lemma ilock_readers_share_witness :
  exists s1 s2,
    (bind (iget 1 2) (fun k => ilock k false)) sample_icache = (Ok tt, s1) /\
    ilock (1, 2) true s1 = (Fail Blocked, s1) /\
    ilock (1, 2) false s1 = (Ok tt, s2) /\
    i_readbusy <$> ins s2 !! (1, 2) = Some 2.
Proof.
  pose (s0 := (iget 1 2 sample_icache).2).
  pose (ip := inode_of_dinode 1 2 zero_dinode).
  assert (Hk : ins s0 !! (1, 2) = Some ip) by (vm_compute; reflexivity).
  assert (Hrb : 0 <= i_readbusy ip < 2 ^ 31 - 2) by (vm_compute; split; [discriminate | reflexivity]).
  assert (Hrun : ilock (1, 2) false s0 = (Ok tt, (ilock (1, 2) false s0).2))
    by (vm_compute; reflexivity).
  destruct (ilock_readers_share (1, 2) s0 _ ip Hk Hrb Hrun)
    as (Hw & s2 & ip2 & Hr & Hk2 & _ & Hrb2).
  exists (ilock (1, 2) false s0).2, s2.
  split; [vm_compute; reflexivity|]. split; [exact Hw|]. split; [exact Hr|].
  rewrite Hk2. simpl. rewrite Hrb2. reflexivity.
Defined.

(** X9. Locking and unlocking undo each other: on an inode that no writer
    holds (and, for a writer, no reader either), [ilock] followed by
    [iunlock] leaves the inode cache exactly as it was.  An [iunlock] on an
    inode that nobody holds panics. *)
Theorem ilock_iunlock_round_trip (k : Z * Z) (writer : bool) (s : icache) (ip : inode) :
  ins s !! k = Some ip -> i_valid ip = true -> i_busy ip = false ->
  0 <= i_readbusy ip < 2 ^ 31 - 1 -> (writer = true -> i_readbusy ip = 0) ->
  bind (ilock k writer) (fun _ => iunlock k) s = (Ok tt, s) /\
  (i_readbusy ip = 0 -> iunlock k s = (Fail (Panic "iunlock"), s)).
Proof.
  intros Hk Hv Hb Hrb Hw.
  assert (H1 : s32 (i_readbusy ip + 1) = i_readbusy ip + 1)
    by (apply s32_small; change (2 ^ 31) with 2147483648 in *; lia).
  assert (H2 : s32 (i_readbusy ip + 1 - 1) = i_readbusy ip)
    by (rewrite s32_small; change (2 ^ 31) with 2147483648 in *; lia).
  split.
  - unfold ilock, iunlock, deref, store, bind, gets, modify, ret, fail. rewrite Hk, Hb, Hv.
    assert (Hguard : writer && (false || negb (i_readbusy ip =? 0)) = false).
    { destruct writer; [|reflexivity]. rewrite (Hw eq_refl). reflexivity. }
    rewrite Hguard. rewrite andb_false_r. simpl. rewrite lookup_insert_eq. simpl.
    rewrite H1. 
    assert (Hnz : (i_readbusy ip + 1 =? 0) = false) by (apply Z.eqb_neq; lia).
    rewrite Hnz. simpl. rewrite H2. f_equal.
    replace (set_lock false (i_readbusy ip)
               (set_lock (if writer then true else false) (i_readbusy ip + 1) ip)) with ip
      by (destruct ip; simpl in *; subst; reflexivity).
    destruct s as [sb li c tbl con]. unfold set_ins. simpl in *. f_equal.
    rewrite insert_insert_eq. apply insert_id. assumption.
  - intros Hz. unfold iunlock, deref, bind, gets, fail, ret. rewrite Hk, Hz, Hb. reflexivity.
Qed.

Lemma ilock_iunlock_round_trip_witness :
  let s := (iget 1 2 sample_icache).2 in
  bind (ilock (1, 2) true) (fun _ => iunlock (1, 2)) s = (Ok tt, s) /\
  iunlock (1, 2) s = (Fail (Panic "iunlock"), s).
Proof.
  cbv zeta.
  assert (Hk : ins (iget 1 2 sample_icache).2 !! (1, 2)
               = Some (inode_of_dinode 1 2 zero_dinode)) by (vm_compute; reflexivity).
  assert (Hrb : 0 <= i_readbusy (inode_of_dinode 1 2 zero_dinode) < 2 ^ 31 - 1)
    by (vm_compute; split; [discriminate | reflexivity]).
  pose proof (ilock_iunlock_round_trip (1, 2) true _ _ Hk eq_refl eq_refl Hrb
                (fun _ => eq_refl)) as [Hrt Hpanic].
  split; [exact Hrt | apply Hpanic; reflexivity].
Defined.

(** X10. [iget] fills the cache once.  For an inode that is not cached it makes
    the entry from the inode's [dinode], valid and unlocked, and touches no
    other entry; for an inode that is cached and valid it returns the entry
    and changes nothing, so a second [iget] after the first is a pure
    lookup. *)
Theorem iget_caches (dev inum : Z) (s : icache) :
  (ins s !! (dev, inum) = None ->
   iget dev inum s =
     (Ok (dev, inum),
      set_ins (<[(dev, inum) := inode_of_dinode dev inum (itable s dev inum)]> (ins s)) s)) /\
  (forall ip, ins s !! (dev, inum) = Some ip -> i_valid ip = true ->
   iget dev inum s = (Ok (dev, inum), s)) /\
  (forall k s1, iget dev inum s = (Ok k, s1) -> iget dev inum s1 = (Ok k, s1)).
Proof.
  assert (Hfresh : ins s !! (dev, inum) = None ->
   iget dev inum s =
     (Ok (dev, inum),
      set_ins (<[(dev, inum) := inode_of_dinode dev inum (itable s dev inum)]> (ins s)) s)).
  { intros Hk. unfold iget, iunlock, deref, store, bind, gets, modify, ret, fail.
    rewrite Hk. simpl. rewrite lookup_insert_eq. simpl.
    rewrite insert_insert_eq. reflexivity. }
  assert (Hhit : forall s0 ip, ins s0 !! (dev, inum) = Some ip -> i_valid ip = true ->
   iget dev inum s0 = (Ok (dev, inum), s0)).
  { intros s0 ip Hk Hv. unfold iget, bind, gets, ret. rewrite Hk, Hv. reflexivity. }
  split; [exact Hfresh|]. split; [apply Hhit|].
  intros k s1 Hrun. destruct (ins s !! (dev, inum)) as [ip|] eqn:Hk.
  - unfold iget, bind, gets, ret, fail in Hrun. rewrite Hk in Hrun.
    destruct (i_valid ip) eqn:Hv; [|discriminate].
    injection Hrun as <- <-. eapply Hhit; eauto.
  - rewrite (Hfresh eq_refl) in Hrun. injection Hrun as <- <-.
    eapply Hhit; [simpl; apply lookup_insert_eq | reflexivity].
Qed.

Lemma iget_caches_witness :
  exists s1,
    iget 1 1 sample_icache = (Ok (1, 1), s1) /\
    i_size <$> ins s1 !! (1, 1) = Some 512 /\
    iget 1 1 s1 = (Ok (1, 1), s1).
Proof.
  destruct (iget_caches 1 1 sample_icache) as (Hfresh & _ & Hagain).
  eexists. split; [apply Hfresh; reflexivity|].
  split; [vm_compute; reflexivity|].
  apply Hagain. apply Hfresh. reflexivity.
Defined.

End inode_locks.

(** *** Commit and recovery *)

Section journal_recovery.
Context `{fs_params}.
Hypothesis record_pos : 0 <= JHDR_SIZE /\ 0 <= BSIZE /\ 0 < JHDR_SIZE + BSIZE.









Section journal_scan.
Hypothesis types_distinct :
  jrnl_start <> jrnl_data /\ jrnl_start <> jrnl_commit /\ jrnl_data <> jrnl_commit.






Lemma process_journal_run (s : mfs) :
  let r := scan_journal (sv6_journal (fs_journal s)) 0 [] (new_transaction 0) in
  (process_journal s).1 = Ok tt /\
  mfs_disk (process_journal s).2
    = (if r.1.1 then mfs_disk s else home_writes (blocks r.1.2) (mfs_disk s)) /\
  mfs_bufs (process_journal s).2
    = (if r.1.1 then mfs_bufs s else home_writes (blocks r.1.2) (mfs_bufs s)) /\
  current_offset (fs_journal (process_journal s).2) = 0 /\
  journal_is_reset (process_journal s).2.
Proof.
  cbv zeta. unfold process_journal, bind, gets, reset_journal, modify_journal, modify, emit, when.
  simpl.
  assert (Hreset : forall f : list jslot, exists x rest,
    match f with
    | [] => [ {| js_hdr := zero_header; js_data := None |} ]
    | x :: r => {| js_hdr := zero_header; js_data := js_data x |} :: r
    end = x :: rest /\ is_zero_header (js_hdr x) = true).
  { intros [|x r]; eexists _, _; split; reflexivity. }
  destruct (scan_journal _ 0 [] (new_transaction 0)) as [[[] tr] bv]; simpl;
    repeat split; try reflexivity; apply Hreset.
Qed.


End journal_scan.


(** X21. Once the journal is reset, recovery has nothing to apply: on a journal
    file whose first header is all zeroes [process_journal] writes no block,
    to the disk or to the buffer cache.  [reset_journal] and [process_journal]
    itself leave the journal in that state, so that a second recovery after
    the first changes nothing. *)
Theorem process_journal_after_reset (s : mfs) :
  (journal_is_reset s ->
   (process_journal s).1 = Ok tt /\
   mfs_disk (process_journal s).2 = mfs_disk s /\
   mfs_bufs (process_journal s).2 = mfs_bufs s) /\
  journal_is_reset (reset_journal s).2 /\
  journal_is_reset (process_journal s).2 /\
  mfs_disk (process_journal (process_journal s).2).2 = mfs_disk (process_journal s).2 /\
  mfs_bufs (process_journal (process_journal s).2).2 = mfs_bufs (process_journal s).2.
Proof.
  assert (Hnoop : forall s0, journal_is_reset s0 ->
   (process_journal s0).1 = Ok tt /\
   mfs_disk (process_journal s0).2 = mfs_disk s0 /\
   mfs_bufs (process_journal s0).2 = mfs_bufs s0).
  { intros s0 (x & rest & Hfile & Hz).
    pose proof (process_journal_run s0) as (Hok & Hd & Hb & _).
    cbv zeta in Hd, Hb. rewrite Hfile in Hd, Hb. simpl in Hd, Hb. rewrite Hz in Hd, Hb.
    simpl in Hd, Hb. auto. }
  pose proof (process_journal_run s) as (_ & _ & _ & _ & Hr).
  split; [apply Hnoop|]. split; [|split; [exact Hr|]].
  - unfold reset_journal, bind, modify_journal, modify, emit. simpl.
    destruct (sv6_journal (fs_journal s)); eexists _, _; split; reflexivity.
  - destruct (Hnoop _ Hr) as (_ & Hd & Hb). auto.
Qed.





















End journal_recovery.




Lemma process_journal_after_reset_witness :
  let s := (reset_journal (sample_mfs corrupted_journal [] ∅)).2 in
  (@process_journal small_geometry s).1 = Ok tt /\
  mfs_disk (@process_journal small_geometry s).2 = mfs_disk s.
Proof.
  cbv zeta.
  destruct (@process_journal_after_reset small_geometry
              (reset_journal (sample_mfs corrupted_journal [] ∅)).2)
    as (Hnoop & _).
  destruct Hnoop as (Hok & Hd & _).
  - eexists _, _. split; vm_compute; reflexivity.
  - split; assumption.
Defined.



(** *** Reads, writes and the block map *)

Section failures.
Context `{fs_params}.
Variable P : failure -> Prop.

Lemma fails_only_ret {S A} (a : A) : fails_only P (ret a : M S A).
Proof. intros s e. discriminate. Qed.

Lemma fails_only_gets {S A} (f : S -> A) : fails_only P (gets f).
Proof. intros s e. discriminate. Qed.

Lemma fails_only_modify {S} (f : S -> S) : fails_only P (modify f).
Proof. intros s e. discriminate. Qed.

Lemma fails_only_fail {S A} (e : failure) : P e -> fails_only P (fail e : M S A).
Proof. intros He s e' [= <-]. exact He. Qed.

Lemma fails_only_bind {S A B} (m : M S A) (k : A -> M S B) :
  fails_only P m -> (forall a, fails_only P (k a)) -> fails_only P (bind m k).
Proof.
  intros Hm Hk s e. unfold bind. specialize (Hm s).
  destruct (m s) as [[a|e'] s']; simpl in *.
  - apply Hk.
  - intros [= <-]. apply Hm. reflexivity.
Qed.

Lemma fails_only_when {S} (b : bool) (m : M S unit) :
  fails_only P m -> fails_only P (when b m).
Proof. intros Hm. destruct b; [assumption | apply fails_only_ret]. Qed.

Lemma fails_only_catch {S A} (m h : M S A) :
  fails_only P m -> fails_only P h -> fails_only P (catch_out_of_blocks m h).
Proof.
  intros Hm Hh s e. unfold catch_out_of_blocks. specialize (Hm s).
  destruct (m s) as [[a|e'] s']; simpl in *; [discriminate|].
  destruct e'; simpl; try (intros [= <-]; apply Hm; reflexivity).
  apply Hh.
Qed.

Hypothesis P_alloc :
  P OutOfBlocks /\ P (Panic "out of blocks") /\
  P (Panic "assert(it->is_free == true)") /\ P (Undefined "dangling free_bit") /\
  P Diverges.

Lemma fails_only_balloc dev z : fails_only P (balloc dev z).
Proof.
  destruct P_alloc as (P1 & P2 & P3 & P4 & P5).
  assert (Hthrow : forall A, fails_only P (@throw_out_of_blocks _ A)).
  { intros A. unfold throw_out_of_blocks. destruct EXCEPTIONS; apply fails_only_fail; assumption. }
  unfold balloc, bzero, buf_write, with_trans.
  destruct (dev =? 1); [|apply Hthrow].
  apply fails_only_bind.
  - intros s e. unfold alloc_block_m, alloc_block.
    destruct (free_bit_freelist (fs_alloc s)) as [|it rest]; [discriminate|].
    destruct (free_bit_vector (fs_alloc s) !! it) as [b|]; [|intros [= <-]; assumption].
    destruct (is_free b); [discriminate | intros [= <-]; assumption].
  - intros b. apply fails_only_bind; [apply fails_only_gets|]. intros sz.
    destruct (b <? sz); [|apply Hthrow].
    apply fails_only_bind; [apply fails_only_modify|]. intros _.
    apply fails_only_bind; [apply fails_only_when, fails_only_modify|]. intros _.
    apply fails_only_ret.
Qed.

Lemma fails_only_bmap_entry (fuel : nat) : forall dev wb idx z,
  fails_only P (bmap_entry fuel dev wb idx z).
Proof.
  destruct P_alloc as (P1 & P2 & P3 & P4 & P5).
  induction fuel as [|fuel IH]; intros dev wb idx z; simpl; [apply fails_only_fail; assumption|].
  apply fails_only_bind; [apply fails_only_gets|]. intros d.
  destruct (rd32 d idx =? 0); [|apply fails_only_ret].
  apply fails_only_bind; [apply fails_only_balloc|]. intros a.
  apply fails_only_bind; [apply fails_only_gets|]. intros d'.
  apply fails_only_bind; [apply fails_only_modify|]. intros _.
  apply fails_only_bind; [apply fails_only_gets|]. intros t.
  apply fails_only_bind.
  - apply fails_only_when. apply fails_only_bind; [apply fails_only_gets|].
    intros d0. apply fails_only_modify.
  - intros _. apply IH.
Qed.

(** Inside the range that the block map addresses, [bmap] fails only as the
    allocator fails. *)
Lemma fails_only_bmap (bn : Z) (z : bool) :
  0 <= NDIRECT -> 0 <= NINDIRECT -> 0 <= bn < bmap_limit -> bmap_limit <= 2 ^ 32 ->
  fails_only P (bmap bn z).
Proof.
  intros Hd Hi Hbn Hlim. unfold bmap_limit in *.
  unfold bmap, set_addr, modify_ip, has_trans, freelist_length, buf_read, with_trans.
  apply fails_only_bind; [apply fails_only_gets|]. intros ip.
  destruct (bn <? NDIRECT) eqn:H1.
  { destruct (_ =? 0); [|apply fails_only_ret].
    apply fails_only_bind; [apply fails_only_balloc|]. intros a.
    apply fails_only_bind; [apply fails_only_modify | intros _; apply fails_only_ret]. }
  apply Z.ltb_ge in H1. rewrite (u32_small (bn - NDIRECT)) by lia.
  destruct (bn - NDIRECT <? NINDIRECT) eqn:H2.
  { apply fails_only_bind.
    - destruct (i_iaddrs ip); [apply fails_only_ret|].
      apply fails_only_bind.
      + destruct (_ =? 0); [|apply fails_only_ret].
        apply fails_only_bind; [apply fails_only_balloc|]. intros a.
        apply fails_only_bind; [apply fails_only_modify | intros _; apply fails_only_ret].
      + intros addr. apply fails_only_bind; [apply fails_only_gets|].
        intros d. apply fails_only_modify.
    - intros _. apply fails_only_bind; [apply fails_only_gets|]. intros ip'.
      destruct (_ =? 0); [|apply fails_only_ret].
      apply fails_only_bind; [apply fails_only_balloc|]. intros a.
      apply fails_only_bind; [apply fails_only_modify|]. intros _.
      apply fails_only_bind; [apply fails_only_gets|]. intros t.
      apply fails_only_bind; [apply fails_only_when, fails_only_modify|]. intros _.
      apply fails_only_ret. }
  apply Z.ltb_ge in H2. rewrite (u32_small (bn - NDIRECT - NINDIRECT)) by lia.
  assert (H3 : (bn - NDIRECT - NINDIRECT >=? NINDIRECT * NINDIRECT) = false).
  { pose proof (Zge_cases (bn - NDIRECT - NINDIRECT) (NINDIRECT * NINDIRECT)) as Hc.
    destruct (_ >=? _); [lia | reflexivity]. }
  rewrite H3.
  apply fails_only_bind.
  { apply fails_only_when. apply fails_only_bind; [apply fails_only_balloc|].
    intros a. apply fails_only_modify. }
  intros _. apply fails_only_bind; [apply fails_only_gets|]. intros ip'.
  apply fails_only_bind; [apply fails_only_gets|]. intros fl.
  apply fails_only_bind; [apply fails_only_bmap_entry|]. intros addr.
  apply fails_only_bind; [apply fails_only_gets|]. intros fl'.
  apply fails_only_bmap_entry.
Qed.

End failures.

Section inode_size.
Context `{fs_params}.

Lemma keeps_size_ret {A} (a : A) : keeps_size (ret a).
Proof. intros s. split; reflexivity. Qed.

Lemma keeps_size_fail {A} (e : failure) : keeps_size (@fail fs A e).
Proof. intros s. split; reflexivity. Qed.

Lemma keeps_size_gets {A} (f : fs -> A) : keeps_size (gets f).
Proof. intros s. split; reflexivity. Qed.

Lemma keeps_size_modify (f : fs -> fs) :
  (forall s, i_size (fs_ip (f s)) = i_size (fs_ip s) /\ i_type (fs_ip (f s)) = i_type (fs_ip s)) ->
  keeps_size (modify f).
Proof. intros Hf s. apply Hf. Qed.

Lemma keeps_size_bind {A B} (m : M fs A) (k : A -> M fs B) :
  keeps_size m -> (forall a, keeps_size (k a)) -> keeps_size (bind m k).
Proof.
  intros Hm Hk s. unfold bind. specialize (Hm s).
  destruct (m s) as [[a|e] s']; simpl in *; [|assumption].
  destruct (Hk a s') as [H1 H2]. destruct Hm as [H3 H4]. split; congruence.
Qed.

Lemma keeps_size_when (b : bool) (m : M fs unit) : keeps_size m -> keeps_size (when b m).
Proof. intros Hm. destruct b; [assumption | apply keeps_size_ret]. Qed.

Lemma keeps_size_catch {A} (m h : M fs A) :
  keeps_size m -> keeps_size h -> keeps_size (catch_out_of_blocks m h).
Proof.
  intros Hm Hh s. unfold catch_out_of_blocks. specialize (Hm s).
  destruct (m s) as [[a|e] s']; simpl in *; [assumption|].
  destruct e; simpl; try assumption.
  destruct (Hh s') as [H1 H2]. destruct Hm as [H3 H4]. split; congruence.
Qed.

Lemma keeps_size_buf_write bno d : keeps_size (buf_write bno d).
Proof. apply keeps_size_modify. intros s. split; reflexivity. Qed.

Lemma keeps_size_with_trans f : keeps_size (with_trans f).
Proof. apply keeps_size_modify. intros s. split; reflexivity. Qed.

Lemma keeps_size_set_addr i v : keeps_size (set_addr i v).
Proof. apply keeps_size_modify. intros s. split; reflexivity. Qed.

Lemma keeps_size_set_iaddrs ia : keeps_size (modify_ip (set_iaddrs ia)).
Proof. apply keeps_size_modify. intros s. split; reflexivity. Qed.

Lemma keeps_size_cprintf msg : keeps_size (cprintf msg).
Proof. apply keeps_size_modify. intros s. split; reflexivity. Qed.

Lemma keeps_size_buf_add_to_transaction bno : keeps_size (buf_add_to_transaction bno).
Proof.
  apply keeps_size_bind; [apply keeps_size_gets | intros d; apply keeps_size_with_trans].
Qed.

Lemma keeps_size_alloc_block_m : keeps_size alloc_block_m.
Proof.
  intros s. unfold alloc_block_m.
  destruct (alloc_block _ _) as [[b a]|e]; split; reflexivity.
Qed.

Lemma keeps_size_balloc dev z : keeps_size (balloc dev z).
Proof.
  unfold balloc, throw_out_of_blocks, bzero.
  destruct (dev =? 1); [|destruct EXCEPTIONS; apply keeps_size_fail].
  apply keeps_size_bind; [apply keeps_size_alloc_block_m|]. intros b.
  apply keeps_size_bind; [apply keeps_size_gets|]. intros sz.
  destruct (b <? sz); [|destruct EXCEPTIONS; apply keeps_size_fail].
  apply keeps_size_bind; [apply keeps_size_with_trans|]. intros _.
  apply keeps_size_bind; [apply keeps_size_when, keeps_size_buf_write|]. intros _.
  apply keeps_size_ret.
Qed.

Lemma keeps_size_bmap_entry (fuel : nat) : forall dev wb idx z,
  keeps_size (bmap_entry fuel dev wb idx z).
Proof.
  induction fuel as [|fuel IH]; intros dev wb idx z; simpl; [apply keeps_size_fail|].
  apply keeps_size_bind; [apply keeps_size_gets|]. intros d.
  destruct (rd32 d idx =? 0); [|apply keeps_size_ret].
  apply keeps_size_bind; [apply keeps_size_balloc|]. intros a.
  apply keeps_size_bind; [apply keeps_size_gets|]. intros d'.
  apply keeps_size_bind; [apply keeps_size_buf_write|]. intros _.
  apply keeps_size_bind; [apply keeps_size_gets|]. intros t.
  apply keeps_size_bind; [apply keeps_size_when, keeps_size_buf_add_to_transaction|].
  intros _. apply IH.
Qed.

Ltac ksize :=
  repeat first
    [ apply keeps_size_ret | apply keeps_size_fail | apply keeps_size_gets
    | apply keeps_size_balloc | apply keeps_size_set_addr | apply keeps_size_set_iaddrs
    | apply keeps_size_with_trans | apply keeps_size_buf_write
    | apply keeps_size_buf_add_to_transaction | apply keeps_size_bmap_entry
    | apply keeps_size_cprintf
    | apply keeps_size_when
    | apply keeps_size_bind; [|intros ?]
    | match goal with
      | |- keeps_size (if ?x then _ else _) => destruct x
      | |- keeps_size (match ?x with _ => _ end) => destruct x
      end ].

Lemma keeps_size_bmap bn z : keeps_size (bmap bn z).
Proof. unfold bmap, freelist_length, has_trans, buf_read. ksize. Qed.

Lemma keeps_size_writei_loop src n wb (fuel : nat) : forall tot off written,
  keeps_size (writei_loop fuel src n wb tot off written).
Proof.
  induction fuel as [|fuel IH]; intros tot off written; simpl.
  - destruct (u32 tot <? n); ksize.
  - destruct (u32 tot <? n); [|ksize].
    apply keeps_size_bind.
    + apply keeps_size_catch; [|ksize].
      apply keeps_size_bind; [apply keeps_size_bmap | intros b; ksize].
    + intros [blocknum|]; [|ksize]. unfold buf_read, has_trans.
      apply keeps_size_bind; [ksize|]. intros d.
      apply keeps_size_bind; [ksize|]. intros _.
      apply keeps_size_bind; [ksize|]. intros t.
      apply keeps_size_bind; [ksize|]. intros _. apply IH.
Qed.

(** X14. [writei] never changes the size (nor the type) of the inode, whether
    it writes all, a part or nothing: the caller has to call [update_size].
    A device inode and a byte range that wraps around are turned away with
    -1 before anything is touched, and a write of no bytes returns 0 and
    touches nothing. *)
Theorem writei_leaves_size (src : Z -> Z) (off n : Z) (wb : bool) (s : fs) :
  (i_size (fs_ip (writei src off n wb s).2) = i_size (fs_ip s) /\
   i_type (fs_ip (writei src off n wb s).2) = i_type (fs_ip s)) /\
  (i_type (fs_ip s) = T_DEV \/ u32 (off + n) < off -> writei src off n wb s = (Ok (-1), s)) /\
  (i_type (fs_ip s) <> T_DEV -> 0 <= off < 2 ^ 32 -> off <= MAXFILE * BSIZE ->
   writei src off 0 wb s = (Ok 0, s)).
Proof.
  split; [|split].
  - assert (Hk : keeps_size (writei src off n wb)).
    { unfold writei, writei_run. ksize. apply keeps_size_writei_loop. }
    apply Hk.
  - intros Hrej. unfold writei, writei_run, bind, gets, ret.
    destruct (i_type (fs_ip s) =? T_DEV) eqn:Ht; [reflexivity|].
    destruct Hrej as [Hd|Hw]; [apply Z.eqb_neq in Ht; contradiction|].
    apply Z.ltb_lt in Hw. rewrite Hw. reflexivity.
  - intros Hnd Hoff Hmax. unfold writei, writei_run, bind, gets, ret.
    apply Z.eqb_neq in Hnd. rewrite Hnd. rewrite Z.add_0_r, u32_small by assumption.
    rewrite Z.ltb_irrefl. unfold writei_len. rewrite Z.add_0_r, u32_small by assumption.
    destruct (off >? MAXFILE * BSIZE) eqn:Hgt; [apply Z.gtb_lt in Hgt; lia|].
    reflexivity.
Qed.



End inode_size.

Section block_range.
Context `{fs_params}.
Hypothesis geometry : 0 < BSIZE /\ BSIZE < 2 ^ 31 /\ 0 <= NDIRECT /\ 0 <= NINDIRECT.

Lemma alloc_failure_or_diverges :
  let P := fun e => alloc_failure e \/ e = Diverges in
  P OutOfBlocks /\ P (Panic "out of blocks") /\
  P (Panic "assert(it->is_free == true)") /\ P (Undefined "dangling free_bit") /\
  P Diverges.
Proof. cbv zeta. unfold alloc_failure. repeat split; auto 6. Qed.

(** X13. The block map has an end.  Beyond the last block that the direct, the
    indirect and the doubly-indirect addresses reach, [bmap] panics and
    touches nothing (it does not wrap around to a lower block); below it, the
    only way for [bmap] to fail is that the allocator does. *)
Theorem bmap_range (bn : Z) (z : bool) (s : fs) :
  (bmap_limit <= bn < 2 ^ 32 ->
   bmap bn z s = (Fail (Panic "bmap: out of range"), s)) /\
  (0 <= bn < bmap_limit -> bmap_limit <= 2 ^ 32 ->
   forall e, (bmap bn z s).1 = Fail e -> alloc_failure e).
Proof.
  destruct geometry as (_ & _ & Hd & Hi). split.
  - intros Hbn. unfold bmap_limit in Hbn.
    assert (Hsq : 0 <= NINDIRECT * NINDIRECT) by nia.
    unfold bmap, bind, gets.
    assert (H1 : (bn <? NDIRECT) = false) by (apply Z.ltb_ge; lia). rewrite H1.
    rewrite (u32_small (bn - NDIRECT)) by lia.
    assert (H2 : (bn - NDIRECT <? NINDIRECT) = false) by (apply Z.ltb_ge; lia). rewrite H2.
    rewrite (u32_small (bn - NDIRECT - NINDIRECT)) by lia.
    assert (H3 : (bn - NDIRECT - NINDIRECT >=? NINDIRECT * NINDIRECT) = true).
    { pose proof (Zge_cases (bn - NDIRECT - NINDIRECT) (NINDIRECT * NINDIRECT)) as Hc.
      destruct (_ >=? _); [reflexivity | lia]. }
    rewrite H3. reflexivity.
  - intros Hbn Hlim e He.
    pose proof (fails_only_bmap _ alloc_failure_or_diverges bn z Hd Hi Hbn Hlim s e He)
      as [Ha| ->]; [exact Ha|].
    exfalso. exact (bmap_terminates bn z s He).
Qed.

Lemma writei_loop_fails (src : Z -> Z) (off0 n : Z) (wb : bool) (fuel : nat) :
  0 <= off0 -> 0 <= n -> off0 + n < 2 ^ 32 ->
  off0 + n <= bmap_limit * BSIZE -> bmap_limit <= 2 ^ 32 ->
  forall (tot off written : Z) (s : fs) (e : failure),
    0 <= written <= n -> tot = s32 written -> off = off0 + written ->
    (writei_loop fuel src n wb tot off written s).1 = Fail e ->
    alloc_failure e \/ e = Diverges.
Proof.
  intros Hoff0 Hn Hsum Hmax Hlim. destruct geometry as (Hb & Hb31 & Hd & Hi).
  induction fuel as [|fuel IH]; intros tot off written s e Hw -> -> Hrun.
  - simpl in Hrun. rewrite u32_s32, u32_small in Hrun by lia.
    destruct (written <? n); [|discriminate].
    injection Hrun as <-. right. reflexivity.
  - simpl in Hrun. rewrite u32_s32, u32_small in Hrun by lia.
    destruct (written <? n) eqn:Hlt; [|discriminate].
    apply Z.ltb_lt in Hlt.
    pose proof (chunk_bounds Hb Hb31 n written (off0 + written) ltac:(lia) ltac:(lia)) as Hm.
    cbv zeta in Hm.
    set (m := s32 (Z.min (u32 (n - s32 written)) (u32 (BSIZE - (off0 + written) mod BSIZE)))) in *.
    revert Hrun.
    match goal with
    | |- (bind ?c ?k s).1 = Fail e -> _ =>
        assert (Hc : fails_only (fun e => alloc_failure e \/ e = Diverges) c)
    end.
    { apply fails_only_catch.
      - apply fails_only_bind; [|intros b; apply fails_only_ret].
        apply fails_only_bmap; try assumption; [apply alloc_failure_or_diverges|].
        split; [apply Z.div_pos; lia|].
        apply Z.div_lt_upper_bound; [lia|]. lia.
      - apply fails_only_bind; [apply fails_only_modify | intros _; apply fails_only_ret]. }
    unfold bind at 1.
    match goal with
    | |- context [match ?c s with _ => _ end] => specialize (Hc s); destruct (c s) as [[r|e'] s1]
    end; simpl in Hc.
    2:{ intros [= <-]. apply Hc. reflexivity. }
    destruct r as [blocknum|]; [|discriminate].
    unfold bind, buf_read, buf_write, has_trans, gets, modify, when,
      buf_add_to_transaction, with_trans.
    cbn [fs_trans set_bufs].
    destruct (negb wb && bool_decide (is_Some (fs_trans s1))); simpl; intros Hrun;
      (eapply IH; [| | |exact Hrun]; [lia | apply s32_add_l | rewrite u32_small by lia; lia]).
Qed.

(** The handler of [writei] catches every [out_of_blocks]. *)
Lemma writei_loop_catches (src : Z -> Z) (n : Z) (wb : bool) (fuel : nat) :
  forall (tot off written : Z) (s : fs),
    (writei_loop fuel src n wb tot off written s).1 <> Fail OutOfBlocks.
Proof.
  induction fuel as [|fuel IH]; intros tot off written s; simpl.
  - destruct (u32 tot <? n); discriminate.
  - destruct (u32 tot <? n); [|discriminate].
    unfold bind at 1. unfold catch_out_of_blocks.
    match goal with
    | |- context [match ?c s with _ => _ end] => destruct (c s) as [[r|e'] s1]
    end.
    + destruct r as [blocknum|]; [|simpl; discriminate].
      unfold bind, buf_read, buf_write, has_trans, gets, modify, when,
        buf_add_to_transaction, with_trans. cbn [fs_trans set_bufs].
      destruct (negb wb && bool_decide (is_Some (fs_trans s1))); simpl; apply IH.
    + destruct e'; simpl; discriminate.
Qed.

(** X15. [writei] stays inside the block map: a write that starts at or before
    the largest file size ([MAXFILE] blocks, which the block map can address)
    never reaches the panic of [bmap] for a block out of range, and never
    lets the [out_of_blocks] exception out.  It fails only when the allocator
    breaks or, in a build without exceptions, runs out of blocks. *)
Theorem writei_stays_in_range (src : Z -> Z) (off n : Z) (wb : bool) (s : fs) (e : failure) :
  0 <= off -> 0 <= n -> off + n < 2 ^ 32 -> off <= MAXFILE * BSIZE ->
  0 <= MAXFILE <= bmap_limit -> bmap_limit <= 2 ^ 32 ->
  (writei src off n wb s).1 = Fail e ->
  e = Panic "out of blocks" \/ e = Panic "assert(it->is_free == true)" \/
  e = Undefined "dangling free_bit".
Proof.
  intros Hoff Hn Hsum Hmax Hfile Hlim Hrun. destruct geometry as (Hb & Hb31 & Hd & Hi).
  assert (Hrun' : (writei_run src off n wb s).1 = Fail e).
  { unfold writei, bind in Hrun. destruct (writei_run src off n wb s) as [[r|e'] s1];
      simpl in *; congruence. }
  clear Hrun.
  pose proof (writei_run_post Hb Hb31 src off n wb s ltac:(lia)) as Hpost.
  rewrite Hrun' in Hpost. simpl in Hpost.
  assert (Hlen : 0 <= writei_len off n <= n /\ off + writei_len off n <= MAXFILE * BSIZE).
  { unfold writei_len. rewrite (u32_small (off + n)) by lia.
    pose proof (Zgt_cases (off + n) (MAXFILE * BSIZE)) as Hc.
    destruct (off + n >? MAXFILE * BSIZE); [rewrite u32_small by lia|]; lia. }
  unfold writei_run, bind, gets in Hrun'.
  destruct (i_type (fs_ip s) =? T_DEV); [discriminate|].
  destruct (u32 (off + n) <? off); [discriminate|].
  assert (Hcases : alloc_failure e \/ e = Diverges).
  { destruct Hlen as [[Hl0 Hln] Hlm].
    assert (G1 : off + writei_len off n < 2 ^ 32) by lia.
    assert (G2 : off + writei_len off n <= bmap_limit * BSIZE) by nia.
    assert (G3 : 0 <= 0 <= writei_len off n) by lia.
    assert (G4 : off = off + 0) by lia.
    exact (writei_loop_fails src off (writei_len off n) wb
             (Z.to_nat (writei_len off n)) Hoff Hl0 G1 G2 Hlim
             0 off 0 s e G3 eq_refl G4 Hrun'). }
  destruct Hcases as [[-> |Ha]| ->]; [|exact Ha|contradiction].
  exfalso. exact (writei_loop_catches src _ wb _ _ _ _ _ Hrun').
Qed.

End block_range.

Section read_path.
Context `{fs_params}.
Hypothesis BSIZE_pos : 0 < BSIZE.
Hypothesis BSIZE_int : BSIZE < 2 ^ 31.

Lemma keeps_size_without_trans {A} (m : M fs A) :
  keeps_size m -> keeps_size (without_trans m).
Proof.
  intros Hm s. unfold without_trans. specialize (Hm (set_trans None s)).
  destruct (m (set_trans None s)) as [r s']. simpl in *. exact Hm.
Qed.

Lemma readi_block_cases (bn : Z) (s : fs) :
  match catch_out_of_blocks (without_trans (bmap bn true))
          (fail (Panic "readi: out of blocks")) s with
  | (Ok _, s') => i_size (fs_ip s') = i_size (fs_ip s)
  | (Fail e, _) => e <> Diverges /\ e <> OutOfBlocks
  end.
Proof.
  unfold catch_out_of_blocks, without_trans.
  pose proof (bmap_terminates bn true (set_trans None s)) as Hterm.
  pose proof (keeps_size_bmap bn true (set_trans None s)) as [Hsz _].
  destruct (bmap bn true (set_trans None s)) as [[a|e] s1]; simpl in *; [exact Hsz|].
  destruct e; simpl; split; congruence.
Qed.

Lemma readi_loop_post (n : Z) (fuel : nat) :
  0 <= n < 2 ^ 32 ->
  forall (tot off : Z) (dst : list Z) (s : fs),
    0 <= tot <= n -> n - tot <= Z.of_nat fuel ->
    match readi_loop fuel n tot off dst s with
    | (Ok dst', s') =>
        Z.of_nat (length dst') = Z.of_nat (length dst) + (n - tot) /\
        i_size (fs_ip s') = i_size (fs_ip s)
    | (Fail e, _) => e <> Diverges /\ e <> OutOfBlocks
    end.
Proof.
  intros Hn. induction fuel as [|fuel IH]; intros tot off dst s Ht Hfuel.
  - simpl. assert (Hge : (tot <? n) = false) by (apply Z.ltb_ge; lia).
    rewrite Hge. simpl. split; [lia | reflexivity].
  - simpl. destruct (tot <? n) eqn:Hlt; [|simpl; apply Z.ltb_ge in Hlt; split; [lia | reflexivity]].
    apply Z.ltb_lt in Hlt.
    pose proof (Z.mod_pos_bound off BSIZE BSIZE_pos) as Hmod.
    assert (Hm : 1 <= Z.min (u32 (n - tot)) (u32 (BSIZE - off mod BSIZE)) <= n - tot).
    { rewrite (u32_small (n - tot)) by lia.
      rewrite (u32_small (BSIZE - off mod BSIZE))
        by (change (2 ^ 32) with 4294967296; change (2 ^ 31) with 2147483648 in BSIZE_int; lia).
      lia. }
    set (m := Z.min (u32 (n - tot)) (u32 (BSIZE - off mod BSIZE))) in *.
    unfold bind at 1.
    pose proof (readi_block_cases (off / BSIZE) s) as Hblk.
    destruct (catch_out_of_blocks _ _ s) as [[blocknum|e] s1]; [|exact Hblk].
    unfold bind at 1. unfold buf_read at 1, gets at 1.
    specialize (IH (u32 (tot + m)) (u32 (off + m))
                  (dst ++ ((fun i => byte_at (fs_bufs s1 blocknum) (off mod BSIZE + i)) <$> seqZ 0 m))
                  s1).
    rewrite (u32_small (tot + m)) in IH |- * by lia.
    specialize (IH ltac:(lia) ltac:(lia)).
    destruct (readi_loop fuel n (tot + m) _ _ s1) as [[dst'|e] s2]; [|exact IH].
    destruct IH as [Hlen Hsz]. split; [|congruence].
    rewrite Hlen, length_app, length_fmap, length_seqZ. lia.
Qed.

(** X16. [readi] never reads past the end of the file.  A device inode, an
    offset behind the end of the file and a byte range that wraps around are
    turned away with -1 before anything is touched.  Otherwise the call
    copies exactly [min n (size - off)] bytes and returns that count (none at
    the end of the file, where it touches nothing), or it panics; it does not
    change the size of the file, does not loop for ever and does not let the
    [out_of_blocks] exception out. *)
Theorem readi_never_past_eof (off n : Z) (s : fs) :
  0 <= off < 2 ^ 32 -> 0 <= n < 2 ^ 32 -> 0 <= i_size (fs_ip s) < 2 ^ 32 ->
  (i_type (fs_ip s) = T_DEV \/ off > i_size (fs_ip s) \/ 2 ^ 32 <= off + n ->
   readi off n s = (Ok (-1, []), s)) /\
  (i_type (fs_ip s) <> T_DEV -> off <= i_size (fs_ip s) -> off + n < 2 ^ 32 ->
   let k := Z.min n (i_size (fs_ip s) - off) in
   (k = 0 -> readi off n s = (Ok (0, []), s)) /\
   match readi off n s with
   | (Ok (r, dst), s') =>
       r = s32 k /\ Z.of_nat (length dst) = k /\ i_size (fs_ip s') = i_size (fs_ip s)
   | (Fail e, _) => e <> Diverges /\ e <> OutOfBlocks
   end).
Proof.
  intros Hoff Hn Hsz. split.
  - intros Hrej. unfold readi, bind, gets, ret.
    destruct (i_type (fs_ip s) =? T_DEV) eqn:Ht; [reflexivity|].
    destruct Hrej as [Hd|[Hgt|Hwrap]].
    + apply Z.eqb_neq in Ht. contradiction.
    + assert (Hg : (off >? i_size (fs_ip s)) = true) by (apply Z.gtb_lt; lia).
      rewrite Hg. reflexivity.
    + assert (Hw : (u32 (off + n) <? off) = true).
      { apply Z.ltb_lt. unfold u32. change (2 ^ 32) with 4294967296 in *.
        replace (off + n) with ((off + n - 4294967296) + 1 * 4294967296) by lia.
        rewrite Z.mod_add by lia. rewrite Z.mod_small by lia. lia. }
      rewrite Hw, orb_true_r. reflexivity.
  - intros Hnd Hle Hsum. cbv zeta.
    assert (Hpre : readi off n s =
      bind (readi_loop (Z.to_nat (Z.min n (i_size (fs_ip s) - off)))
              (Z.min n (i_size (fs_ip s) - off)) 0 off [])
           (fun dst => ret (s32 (Z.min n (i_size (fs_ip s) - off)), dst)) s).
    { unfold readi. unfold bind at 1, gets at 1.
      apply Z.eqb_neq in Hnd. rewrite Hnd.
      assert (Hg : (off >? i_size (fs_ip s)) = false).
      { pose proof (Zgt_cases off (i_size (fs_ip s))) as Hc. destruct (_ >? _); [lia | reflexivity]. }
      rewrite Hg. rewrite (u32_small (off + n)) by lia.
      assert (Hw : (off + n <? off) = false) by (apply Z.ltb_ge; lia). rewrite Hw. cbn [orb].
      pose proof (Zgt_cases (off + n) (i_size (fs_ip s))) as Hc.
      destruct (off + n >? i_size (fs_ip s)).
      - rewrite (u32_small (i_size (fs_ip s) - off)) by lia.
        rewrite Z.min_r by lia. reflexivity.
      - rewrite Z.min_l by lia. reflexivity. }
    rewrite Hpre. set (k := Z.min n (i_size (fs_ip s) - off)).
    assert (Hk : 0 <= k < 2 ^ 32) by (unfold k; lia).
    split.
    + intros Hk0. rewrite Hk0. reflexivity.
    + pose proof (readi_loop_post k (Z.to_nat k) Hk 0 off [] s ltac:(lia) ltac:(lia)) as Hpost.
      unfold bind. destruct (readi_loop (Z.to_nat k) k 0 off [] s) as [[dst|e] s1];
        [|exact Hpost].
      simpl in *. destruct Hpost as [Hlen Hs]. split; [reflexivity|]. split; [lia | exact Hs].
Qed.

End read_path.

Lemma writei_leaves_size_witness :
  let s := sample_fs [true; true; true; true; false] (sample_inode 0 (replicate 12 0)) None in
  i_size (fs_ip (@writei small_geometry (fun _ => 7) 0 1024 true s).2) = 0 /\
  @writei small_geometry (fun _ => 7) 100 0 true s = (Ok 0, s).
Proof.
  cbv zeta. split.
  - exact (proj1 (proj1 (@writei_leaves_size small_geometry (fun _ => 7) 0 1024 true
             (sample_fs [true; true; true; true; false] (sample_inode 0 (replicate 12 0)) None)))).
  - refine (proj2 (proj2 (@writei_leaves_size small_geometry (fun _ => 7) 100 0 true _)) _ _ _);
      vm_compute; first [discriminate | split; first [discriminate | reflexivity]].
Defined.


Lemma small_block_size :
  0 < @BSIZE small_geometry /\ @BSIZE small_geometry < 2 ^ 31 /\
  0 <= @NDIRECT small_geometry /\ 0 <= @NINDIRECT small_geometry.
Proof. vm_compute. repeat split; discriminate. Qed.

Lemma bmap_range_witness :
  let s := sample_fs [true; true; true; true; false] (sample_inode 0 (replicate 12 0)) None in
  @bmap small_geometry 16522 true s = (Fail (Panic "bmap: out of range"), s).
Proof.
  cbv zeta.
  apply (proj1 (@bmap_range small_geometry small_block_size 16522 true _)).
  vm_compute. split; [discriminate | reflexivity].
Defined.

Lemma writei_stays_in_range_witness :
  let s := set_alloc {| free_bit_vector := [{| bno_ := 0; is_free := false |}];
                        free_bit_freelist := [0%nat] |}
             (sample_fs [true] (sample_inode 0 (replicate 12 0)) None) in
  let e := Panic "assert(it->is_free == true)" in
  (@writei small_geometry (fun _ => 7) 0 1 true s).1 = Fail e /\
  (e = Panic "out of blocks" \/ e = Panic "assert(it->is_free == true)" \/
   e = Undefined "dangling free_bit").
Proof.
  cbv zeta.
  assert (Hrun : (@writei small_geometry (fun _ => 7) 0 1 true
            (set_alloc {| free_bit_vector := [{| bno_ := 0; is_free := false |}];
                          free_bit_freelist := [0%nat] |}
               (sample_fs [true] (sample_inode 0 (replicate 12 0)) None))).1
          = Fail (Panic "assert(it->is_free == true)")) by (vm_compute; reflexivity).
  split; [exact Hrun|].
  refine (@writei_stays_in_range small_geometry small_block_size (fun _ => 7) 0 1 true _ _
            _ _ _ _ _ _ Hrun); vm_compute;
    first [reflexivity | discriminate | split; discriminate].
Defined.

Lemma readi_never_past_eof_witness :
  let s := sample_fs [true; true; true; true; true; true; true; true]
             (sample_inode 1000 (5 :: 6 :: replicate 10 0)) None in
  @readi small_geometry 1001 10 s = (Ok (-1, []), s) /\
  exists dst s', @readi small_geometry 600 1000 s = (Ok (400, dst), s') /\
                 Z.of_nat (length dst) = 400.
Proof.
  cbv zeta.
  set (s := sample_fs [true; true; true; true; true; true; true; true]
              (sample_inode 1000 (5 :: 6 :: replicate 10 0)) None).
  assert (Hn : 0 <= 10 < 2 ^ 32) by (split; [discriminate | reflexivity]).
  assert (Hn' : 0 <= 1000 < 2 ^ 32) by (split; [discriminate | reflexivity]).
  assert (Hsz : 0 <= i_size (fs_ip s) < 2 ^ 32) by (split; [discriminate | reflexivity]).
  assert (Hoff : 0 <= 1001 < 2 ^ 32) by (split; [discriminate | reflexivity]).
  assert (Hoff' : 0 <= 600 < 2 ^ 32) by (split; [discriminate | reflexivity]).
  split.
  - apply (proj1 (@readi_never_past_eof small_geometry (proj1 small_block_size)
                    (proj1 (proj2 small_block_size)) 1001 10 s Hoff Hn Hsz)).
    right. left. reflexivity.
  - pose proof (proj2 (@readi_never_past_eof small_geometry (proj1 small_block_size)
                    (proj1 (proj2 small_block_size)) 600 1000 s Hoff' Hn' Hsz)) as H.
    specialize (H ltac:(discriminate) ltac:(discriminate) ltac:(reflexivity)).
    cbv zeta in H. destruct H as [_ H].
    destruct (@readi small_geometry 600 1000 s) as [[[r dst]|e] s'] eqn:E.
    + destruct H as (-> & Hl & _). exists dst, s'. split; [reflexivity | exact Hl].
    + vm_compute in E. discriminate.
Defined.

(** *** Truncation *)

Section truncate.
Context `{fs_params}.

Lemma spares_direct_ret {A} (a : A) : spares_direct (ret a).
Proof.
  intros s. simpl. split; [eauto|]. repeat split; auto.
  exists []. unfold freed. destruct (fs_trans s); simpl; [rewrite app_nil_r|]; reflexivity.
Qed.

Lemma spares_direct_gets {A} (f : fs -> A) : spares_direct (gets f).
Proof. intros s. apply (spares_direct_ret (f s) s). Qed.

Lemma spares_direct_bind {A B} (m : M fs A) (k : A -> M fs B) :
  spares_direct m -> (forall a, spares_direct (k a)) -> spares_direct (bind m k).
Proof.
  intros Hm Hk s. unfold bind. destruct (Hm s) as ([a Ha] & H1 & H2 & H3 & [l H4]).
  destruct (m s) as [[a'|e] s1]; simpl in *; [|discriminate].
  destruct (Hk a' s1) as (Hr & K1 & K2 & K3 & [l' K4]).
  split; [exact Hr|]. split; [congruence|]. split; [congruence|].
  split; [intros i Hi; rewrite K3, H3 by assumption; reflexivity|].
  exists (l ++ l'). rewrite K4, H4. destruct (freed s); simpl; [rewrite app_assoc|]; reflexivity.
Qed.

Lemma spares_direct_when (b : bool) (m : M fs unit) :
  spares_direct m -> spares_direct (when b m).
Proof. intros Hm. destruct b; [assumption | apply spares_direct_ret]. Qed.

Lemma spares_direct_for_loop (n : nat) : forall (i : Z) (body : Z -> M fs unit),
  (forall j, spares_direct (body j)) -> spares_direct (for_loop n i body).
Proof.
  induction n as [|n IH]; intros i body Hb; simpl.
  - apply spares_direct_ret.
  - apply spares_direct_bind; [apply Hb | intros _; apply IH, Hb].
Qed.

Lemma spares_direct_buf_write bno d : spares_direct (buf_write bno d).
Proof.
  intros s. simpl. split; [eauto|]. repeat split; auto.
  exists []. unfold freed. simpl. destruct (fs_trans s); simpl; [rewrite app_nil_r|]; reflexivity.
Qed.

Lemma spares_direct_set_iaddrs ia : spares_direct (modify_ip (set_iaddrs ia)).
Proof.
  intros s. simpl. split; [eauto|]. repeat split; auto.
  exists []. unfold freed. simpl. destruct (fs_trans s); simpl; [rewrite app_nil_r|]; reflexivity.
Qed.

Lemma spares_direct_buf_add_to_transaction bno : spares_direct (buf_add_to_transaction bno).
Proof.
  intros s. unfold buf_add_to_transaction, bind, buf_read, gets, with_trans, modify. simpl.
  split; [eauto|]. repeat split; auto.
  exists []. unfold freed. simpl. destruct (fs_trans s) as [t|]; simpl; [|reflexivity].
  rewrite app_nil_r. unfold add_unique_block.
  destruct (replace_block _ _ _); reflexivity.
Qed.

Lemma spares_direct_bfree dev x : spares_direct (bfree dev x true).
Proof.
  intros s. unfold bfree, when, bind, ret, with_trans, modify. cbn [negb].
  destruct (dev =? 1); simpl.
  - split; [eauto|]. repeat split; auto.
    exists [u32 x]. unfold freed. simpl. destruct (fs_trans s); reflexivity.
  - apply (spares_direct_ret tt s).
Qed.

(** Clearing the indirect or the doubly-indirect address. *)
Lemma spares_direct_set_addr_high (i v : Z) :
  NDIRECT <= i -> spares_direct (set_addr i v).
Proof.
  intros Hi s. simpl. split; [eauto|]. repeat split; auto.
  - intros j Hj. unfold addr_get. rewrite list_lookup_insert_ne by lia. reflexivity.
  - exists []. unfold freed. simpl. destruct (fs_trans s); simpl; [rewrite app_nil_r|]; reflexivity.
Qed.

Ltac spares :=
  repeat first
    [ apply spares_direct_ret | apply spares_direct_gets | apply spares_direct_buf_write
    | apply spares_direct_set_iaddrs | apply spares_direct_buf_add_to_transaction
    | apply spares_direct_bfree | apply spares_direct_when
    | apply spares_direct_set_addr_high; lia
    | apply spares_direct_for_loop; intros ?
    | apply spares_direct_bind; [|intros ?]
    | match goal with
      | |- spares_direct (match ?x with _ => _ end) => destruct x
      end ].

Lemma spares_direct_itrunc_entries dev bno lo : spares_direct (itrunc_entries dev bno lo).
Proof. unfold itrunc_entries, for_range, buf_read. spares. Qed.

Lemma spares_direct_itrunc_indirect offset : spares_direct (itrunc_indirect offset).
Proof.
  pose proof spares_direct_itrunc_entries as He.
  unfold itrunc_indirect, buf_read, has_trans. spares; try apply He; spares.
Qed.

Lemma spares_direct_itrunc_double offset : spares_direct (itrunc_double offset).
Proof.
  pose proof spares_direct_itrunc_entries as He.
  unfold itrunc_double, for_range, buf_read, has_trans. spares; try apply He; spares.
Qed.


Lemma direct_blocks_ext (k : nat) : forall (l l' : list Z) (lo : Z),
  (forall j, lo <= j -> addr_get l' j = addr_get l j) ->
  direct_blocks l' lo k = direct_blocks l lo k.
Proof.
  induction k as [|k IH]; intros l l' lo Hext; [reflexivity|].
  simpl. rewrite (Hext lo) by lia. f_equal. apply IH. intros j Hj. apply Hext. lia.
Qed.

Lemma addr_get_insert (l : list Z) (i j v : Z) :
  0 <= i -> 0 <= j -> addr_get l i <> 0 ->
  addr_get (<[Z.to_nat i := v]> l) j = if j =? i then v else addr_get l j.
Proof.
  intros Hi Hj Hset. unfold addr_get in *. destruct (j =? i) eqn:Heq.
  - apply Z.eqb_eq in Heq. subst j.
    destruct (l !! Z.to_nat i) eqn:Hl; [|simpl in Hset; congruence].
    rewrite list_lookup_insert_eq by (eapply lookup_lt_Some; eauto). reflexivity.
  - apply Z.eqb_neq in Heq. rewrite list_lookup_insert_ne by lia. reflexivity.
Qed.

(** The loop of [itrunc] over the direct addresses, from [lo] on. *)
Lemma itrunc_direct_loop (k : nat) : forall (lo : Z) (s : fs),
  0 <= lo ->
  exists s',
    for_loop k lo (fun i =>
      ip <- gets fs_ip ;;
      let a := addr_get (i_addrs ip) i in
      when (negb (a =? 0)) (bfree (i_dev ip) a true ;; set_addr i 0)) s = (Ok tt, s') /\
    i_size (fs_ip s') = i_size (fs_ip s) /\
    i_dev (fs_ip s') = i_dev (fs_ip s) /\
    (forall j, 0 <= j ->
       addr_get (i_addrs (fs_ip s')) j
       = if (lo <=? j) && (j <? lo + Z.of_nat k) then 0 else addr_get (i_addrs (fs_ip s)) j) /\
    freed s' =
      (fun x => x ++ (if i_dev (fs_ip s) =? 1
                      then direct_blocks (i_addrs (fs_ip s)) lo k else [])) <$> freed s.
Proof.
  induction k as [|k IH]; intros lo s Hlo.
  - exists s. simpl. split; [reflexivity|]. split; [reflexivity|]. split; [reflexivity|].
    split.
    + intros j Hj. destruct (lo <=? j) eqn:H1; [|reflexivity].
      assert (H2 : (j <? lo + Z.of_nat 0) = false) by (apply Z.ltb_ge; apply Z.leb_le in H1; lia).
      rewrite H2. reflexivity.
    + unfold freed. destruct (fs_trans s); simpl; [|reflexivity].
      destruct (_ =? 1); rewrite app_nil_r; reflexivity.
  - cbn [for_loop]. unfold bind at 1. unfold bind at 1, gets at 1.
    destruct (addr_get (i_addrs (fs_ip s)) lo =? 0) eqn:Ha.
    + cbn [negb when]. unfold ret at 1.
      destruct (IH (lo + 1) s ltac:(lia)) as (s' & Hrun & Hsz & Hdev & Haddr & Hfreed).
      exists s'. split; [exact Hrun|]. split; [exact Hsz|]. split; [exact Hdev|]. split.
      * intros j Hj. rewrite (Haddr j Hj).
        destruct (Z.eq_dec j lo) as [->|Hne].
        -- assert (H1 : (lo + 1 <=? lo) = false) by (apply Z.leb_gt; lia).
           rewrite H1, Z.leb_refl. cbn [andb].
           assert (H2 : (lo <? lo + Z.of_nat (S k)) = true) by (apply Z.ltb_lt; lia).
           rewrite H2. apply Z.eqb_eq in Ha. exact Ha.
        -- destruct (lo + 1 <=? j) eqn:H1; destruct (lo <=? j) eqn:H2;
             destruct (j <? lo + 1 + Z.of_nat k) eqn:H3; destruct (j <? lo + Z.of_nat (S k)) eqn:H4;
             try reflexivity; exfalso;
             repeat match goal with
                    | H : (_ <=? _) = true |- _ => apply Z.leb_le in H
                    | H : (_ <=? _) = false |- _ => apply Z.leb_gt in H
                    | H : (_ <? _) = true |- _ => apply Z.ltb_lt in H
                    | H : (_ <? _) = false |- _ => apply Z.ltb_ge in H
                    end; lia.
      * rewrite Hfreed. simpl direct_blocks. rewrite Ha. reflexivity.
    + cbn [negb when].
      set (a := addr_get (i_addrs (fs_ip s)) lo) in *.
      set (s1 := (bind (bfree (i_dev (fs_ip s)) a true) (fun _ => set_addr lo 0) s).2).
      assert (Hstep : bind (bfree (i_dev (fs_ip s)) a true) (fun _ => set_addr lo 0) s
                      = (Ok tt, s1)).
      { unfold s1, bfree, when, bind, ret, with_trans, set_addr, modify_ip, modify. cbn [negb].
        destruct (i_dev (fs_ip s) =? 1); reflexivity. }
      rewrite Hstep.
      assert (Hsz1 : i_size (fs_ip s1) = i_size (fs_ip s)).
      { unfold s1, bfree, when, bind, ret, with_trans, set_addr, modify_ip, modify. cbn [negb].
        destruct (i_dev (fs_ip s) =? 1); reflexivity. }
      assert (Hdev1 : i_dev (fs_ip s1) = i_dev (fs_ip s)).
      { unfold s1, bfree, when, bind, ret, with_trans, set_addr, modify_ip, modify. cbn [negb].
        destruct (i_dev (fs_ip s) =? 1); reflexivity. }
      assert (Haddrs1 : i_addrs (fs_ip s1) = <[Z.to_nat lo := 0]> (i_addrs (fs_ip s))).
      { unfold s1, bfree, when, bind, ret, with_trans, set_addr, modify_ip, modify. cbn [negb].
        destruct (i_dev (fs_ip s) =? 1); reflexivity. }
      assert (Hfreed1 : freed s1 =
                (fun x => x ++ (if i_dev (fs_ip s) =? 1 then [u32 a] else [])) <$> freed s).
      { unfold s1, freed, bfree, when, bind, ret, with_trans, set_addr, modify_ip, modify.
        cbn [negb]. destruct (i_dev (fs_ip s) =? 1); simpl.
        - destruct (fs_trans s); reflexivity.
        - destruct (fs_trans s); simpl; [rewrite app_nil_r|]; reflexivity. }
      apply Z.eqb_neq in Ha.
      destruct (IH (lo + 1) s1 ltac:(lia)) as (s' & Hrun & Hsz & Hdev & Haddr & Hfreed).
      exists s'. split; [exact Hrun|]. split; [congruence|]. split; [congruence|]. split.
      * intros j Hj. rewrite (Haddr j Hj), Haddrs1.
        rewrite (addr_get_insert _ lo j 0 Hlo Hj Ha).
        destruct (Z.eq_dec j lo) as [->|Hne].
        -- rewrite Z.eqb_refl.
           assert (H1 : (lo + 1 <=? lo) = false) by (apply Z.leb_gt; lia).
           rewrite H1, Z.leb_refl. cbn [andb].
           assert (H2 : (lo <? lo + Z.of_nat (S k)) = true) by (apply Z.ltb_lt; lia).
           rewrite H2. reflexivity.
        -- assert (Hjl : (j =? lo) = false) by (apply Z.eqb_neq; assumption). rewrite Hjl.
           destruct (lo + 1 <=? j) eqn:H1; destruct (lo <=? j) eqn:H2;
             destruct (j <? lo + 1 + Z.of_nat k) eqn:H3; destruct (j <? lo + Z.of_nat (S k)) eqn:H4;
             try reflexivity; exfalso;
             repeat match goal with
                    | H : (_ <=? _) = true |- _ => apply Z.leb_le in H
                    | H : (_ <=? _) = false |- _ => apply Z.leb_gt in H
                    | H : (_ <? _) = true |- _ => apply Z.ltb_lt in H
                    | H : (_ <? _) = false |- _ => apply Z.ltb_ge in H
                    end; lia.
      * rewrite Hfreed, Hfreed1, Hdev1. simpl direct_blocks. fold a.
        assert (Haz : (a =? 0) = false) by (apply Z.eqb_neq; assumption). rewrite Haz.
        rewrite (direct_blocks_ext k (i_addrs (fs_ip s)) (i_addrs (fs_ip s1)) (lo + 1)).
        2:{ intros j Hj. rewrite Haddrs1, (addr_get_insert _ lo j 0 Hlo ltac:(lia) Ha).
            assert (Hjl : (j =? lo) = false) by (apply Z.eqb_neq; lia). rewrite Hjl.
            reflexivity. }
        destruct (freed s) as [x|]; simpl; [|reflexivity].
        destruct (i_dev (fs_ip s) =? 1); simpl; rewrite <- ?app_assoc, ?app_nil_r; reflexivity.
Qed.

Hypothesis BSIZE_pos : 0 < BSIZE.

(** X18. [itrunc].  A file that is not longer than [offset] is left alone.
    Otherwise the call always returns; the file then has size [offset]; of
    its direct addresses those of the blocks below the new end are kept and
    the others are cleared; every direct block it drops is recorded, in
    order, at the end of the transaction's [free_block_list] (no block is lost),
    and the free bits in memory are not touched. *)
Theorem itrunc_cuts_direct_blocks (offset : Z) (s : fs) :
  0 <= offset ->
  (i_size (fs_ip s) <= offset -> itrunc offset s = (Ok tt, s)) /\
  (offset < i_size (fs_ip s) ->
   exists s',
     itrunc offset s = (Ok tt, s') /\
     i_size (fs_ip s') = offset /\
     (forall i, 0 <= i < NDIRECT ->
        addr_get (i_addrs (fs_ip s')) i
        = if i <? BLOCKROUNDUP offset then addr_get (i_addrs (fs_ip s)) i else 0) /\
     (i_dev (fs_ip s) = 1 ->
      exists l, freed s' =
        (fun x => x ++ direct_blocks (i_addrs (fs_ip s)) (BLOCKROUNDUP offset)
                         (Z.to_nat (NDIRECT - BLOCKROUNDUP offset)) ++ l) <$> freed s) /\
     fs_alloc s' = fs_alloc s).
Proof.
  intros Hoff. split.
  - intros Hle. unfold itrunc, bind, gets.
    assert (Hc : (i_size (fs_ip s) <=? offset) = true) by (apply Z.leb_le; assumption).
    rewrite Hc. reflexivity.
  - intros Hlt.
    assert (Hup : 0 <= BLOCKROUNDUP offset).
    { unfold BLOCKROUNDUP. pose proof (Z.div_pos offset BSIZE Hoff BSIZE_pos).
      destruct (_ =? 0); lia. }
    pose proof (keeps_alloc_itrunc offset s) as Halloc.
    unfold itrunc in *. unfold bind at 1, gets at 1 in Halloc. unfold bind at 1, gets at 1.
    assert (Hc : (i_size (fs_ip s) <=? offset) = false) by (apply Z.leb_gt; assumption).
    rewrite Hc in *.
    destruct (itrunc_direct_loop (Z.to_nat (NDIRECT - BLOCKROUNDUP offset))
                (BLOCKROUNDUP offset) s Hup) as (s1 & Hrun1 & Hsz1 & Hdev1 & Haddr1 & Hfreed1).
    unfold itrunc_direct, for_range in *. unfold bind at 1 in Halloc. unfold bind at 1.
    rewrite Hrun1 in *.
    destruct (spares_direct_itrunc_indirect offset s1)
      as ([[] Hr2] & Hsz2 & Hdev2 & Haddr2 & [l2 Hfreed2]).
    unfold bind at 1 in Halloc. unfold bind at 1.
    destruct (itrunc_indirect offset s1) as [[[]|e] s2]; simpl in Hr2; [|discriminate].
    simpl in Hsz2, Hdev2, Haddr2, Hfreed2.
    destruct (spares_direct_itrunc_double offset s2)
      as ([[] Hr3] & Hsz3 & Hdev3 & Haddr3 & [l3 Hfreed3]).
    unfold bind at 1 in Halloc. unfold bind at 1.
    destruct (itrunc_double offset s2) as [[[]|e] s3]; simpl in Hr3; [|discriminate].
    simpl in Hsz3, Hdev3, Haddr3, Hfreed3.
    eexists. split; [reflexivity|]. simpl in Halloc |- *.
    split; [reflexivity|]. split; [|split; [|exact Halloc]].
    + intros i Hi. rewrite Haddr3, Haddr2, Haddr1 by lia.
      destruct (i <? BLOCKROUNDUP offset) eqn:H1.
      * apply Z.ltb_lt in H1.
        assert (H2 : (BLOCKROUNDUP offset <=? i) = false) by (apply Z.leb_gt; lia).
        rewrite H2. reflexivity.
      * apply Z.ltb_ge in H1.
        assert (H2 : (BLOCKROUNDUP offset <=? i) = true) by (apply Z.leb_le; lia).
        assert (H3 : (i <? BLOCKROUNDUP offset + Z.of_nat (Z.to_nat (NDIRECT - BLOCKROUNDUP offset))) = true)
          by (apply Z.ltb_lt; lia).
        rewrite H2, H3. reflexivity.
    + intros Hdev. exists (l2 ++ l3).
      unfold freed in *. simpl. rewrite Hfreed3, Hfreed2, Hfreed1, Hdev. simpl.
      destruct (fs_trans s); simpl; [|reflexivity].
      rewrite <- !app_assoc. reflexivity.
Qed.

End truncate.

Lemma itrunc_cuts_direct_blocks_witness :
  let ip := sample_inode 1024 (5 :: 6 :: replicate 10 0) in
  let s := sample_fs [true; true; true; true; true; true; true; true] ip
             (Some (new_transaction 9)) in
  exists s',
    @itrunc small_geometry 512 s = (Ok tt, s') /\
    i_size (fs_ip s') = 512 /\
    addr_get (i_addrs (fs_ip s')) 0 = 5 /\ addr_get (i_addrs (fs_ip s')) 1 = 0 /\
    freed s' = Some [6].
Proof.
  cbv zeta.
  assert (Hb : 0 < @BSIZE small_geometry) by reflexivity.
  assert (Ho : 0 <= 512) by (vm_compute; discriminate).
  destruct (proj2 (@itrunc_cuts_direct_blocks small_geometry Hb 512
              (sample_fs [true; true; true; true; true; true; true; true]
                 (sample_inode 1024 (5 :: 6 :: replicate 10 0)) (Some (new_transaction 9)))
              Ho) ltac:(reflexivity))
    as (s' & Hrun & Hsz & Haddr & _).
  exists s'. split; [exact Hrun|]. split; [exact Hsz|].
  split; [rewrite Haddr by (vm_compute; split; [discriminate | reflexivity]); reflexivity|].
  split; [rewrite Haddr by (vm_compute; split; [discriminate | reflexivity]); reflexivity|].
  replace s' with (@itrunc small_geometry 512
      (sample_fs [true; true; true; true; true; true; true; true]
         (sample_inode 1024 (5 :: 6 :: replicate 10 0)) (Some (new_transaction 9)))).2
    by (rewrite Hrun; reflexivity).
  vm_compute. reflexivity.
Defined.

(** *** Path elements and the byte order of the disk identity *)

Section path_elements.
Variable DIRSIZ : Z.

Lemma skip_slashes_app (k : nat) (rest : list ascii) :
  skip_slashes (replicate k slash ++ rest) = skip_slashes rest.
Proof.
  induction k as [|k IH]; [reflexivity|]. simpl.
  destruct (decide (slash = slash)); [exact IH | congruence].
Qed.

Lemma skip_slashes_fixed (l : list ascii) : peek l <> slash -> skip_slashes l = l.
Proof.
  destruct l as [|c r]; [reflexivity|]. simpl. intros Hne.
  destruct (decide (c = slash)); [contradiction | reflexivity].
Qed.

Lemma skip_slashes_head (l : list ascii) : peek (skip_slashes l) <> slash.
Proof.
  induction l as [|c r IH]; simpl; [discriminate|].
  destruct (decide (c = slash)); [exact IH | assumption].
Qed.

Lemma skip_elem_app (elem rest : list ascii) :
  slash ∉ elem -> zero ∉ elem -> peek rest = slash \/ peek rest = zero ->
  skip_elem (elem ++ rest) = rest.
Proof.
  intros Hs Hz Hrest. induction elem as [|c r IH]; simpl.
  - destruct rest as [|c r]; [reflexivity|]. simpl in *.
    destruct (decide (c = slash \/ c = zero)); [reflexivity | tauto].
  - apply not_elem_of_cons in Hs as [Hs1 Hs]. apply not_elem_of_cons in Hz as [Hz1 Hz].
    destruct (decide (c = slash \/ c = zero)) as [[?|?]|_]; [congruence | congruence | auto].
Qed.

(** X19. [skipelem] splits off the first element of a path.  A path of slashes
    only (the empty path among them) has no element: the call returns 0 and
    changes nothing.  Otherwise the path is some slashes, an element without
    slash, and a rest that is empty or starts with a slash.  An element of
    more than [DIRSIZ] characters is refused with -1, and neither the path
    nor [name] changes.  Else the call returns 1, the path becomes the rest
    without its leading slashes, and [name] receives the element, followed
    by a NUL when it is shorter than [DIRSIZ]. *)
Theorem skipelem_splits (k : nat) (elem rest name : list ascii) :
  slash ∉ elem -> zero ∉ elem ->
  peek rest = slash \/ peek rest = zero ->
  Z.of_nat (length elem) < 2 ^ 31 ->
  skipelem DIRSIZ (replicate k slash) name = (0, replicate k slash, name, []) /\
  (elem <> [] ->
   let path := replicate k slash ++ elem ++ rest in
   let len := Z.of_nat (length elem) in
   skipelem DIRSIZ path name =
     if len >? DIRSIZ
     then (-1, path, name,
           [("Error: Path component longer than DIRSIZ (%d characters)"%string, DIRSIZ)])
     else (1, skip_slashes rest,
           (if len <? DIRSIZ
            then <[length elem := zero]> (elem ++ drop (length elem) name)
            else elem ++ drop (length elem) name), [])) /\
  peek (skip_slashes rest) <> slash.
Proof.
  intros Hs Hz Hrest Hlen. split; [|split].
  - unfold skipelem.
    replace (skip_slashes (replicate k slash)) with (@nil ascii)
      by (rewrite <- (app_nil_r (replicate k slash)), skip_slashes_app; reflexivity).
    reflexivity.
  - intros Hne. cbv zeta. unfold skipelem.
    rewrite skip_slashes_app.
    destruct elem as [|c elem']; [congruence|].
    assert (Hc : c <> slash /\ c <> zero).
    { apply not_elem_of_cons in Hs as [? _]. apply not_elem_of_cons in Hz as [? _]. auto. }
    rewrite skip_slashes_fixed by (simpl; tauto).
    destruct (decide (peek ((c :: elem') ++ rest) = zero)) as [Hp|_]; [simpl in Hp; tauto|].
    rewrite skip_elem_app by assumption.
    rewrite length_app.
    replace (Z.of_nat (length (c :: elem') + length rest) - Z.of_nat (length rest))
      with (Z.of_nat (length (c :: elem'))) by lia.
    rewrite s32_small by (change (2 ^ 31) with 2147483648 in *; lia).
    rewrite Nat2Z.id.
    rewrite take_app_length. reflexivity.
  - apply skip_slashes_head.
Qed.

End path_elements.

(** The examples of the comment on [skipelem], with [DIRSIZ] = 14. *)
Lemma skipelem_splits_witness :
  let p := fun s : string => list_ascii_of_string s in
  let name := replicate 14 "x"%char in
  skipelem 14 (p "a/bb/c"%string) name = (1, p "bb/c"%string, p "a"%string ++ zero :: replicate 12 "x"%char, []) /\
  skipelem 14 (p "///a//bb"%string) name = (1, p "bb"%string, p "a"%string ++ zero :: replicate 12 "x"%char, []) /\
  skipelem 14 (p "////"%string) name = (0, p "////"%string, name, []).
Proof.
  cbv zeta.
  assert (Hs : slash ∉ list_ascii_of_string "a"%string)
    by (simpl; apply not_elem_of_cons; split; [discriminate | apply not_elem_of_nil]).
  assert (Hz : zero ∉ list_ascii_of_string "a"%string)
    by (simpl; apply not_elem_of_cons; split; [discriminate | apply not_elem_of_nil]).
  assert (Hl : Z.of_nat (length (list_ascii_of_string "a"%string)) < 2 ^ 31) by reflexivity.
  split; [|split].
  - exact (proj1 (proj2 (skipelem_splits 14 0 (list_ascii_of_string "a"%string)
             (list_ascii_of_string "/bb/c"%string) (replicate 14 "x"%char) Hs Hz
             (or_introl eq_refl) Hl)) ltac:(discriminate)).
  - exact (proj1 (proj2 (skipelem_splits 14 3 (list_ascii_of_string "a"%string)
             (list_ascii_of_string "//bb"%string) (replicate 14 "x"%char) Hs Hz
             (or_introl eq_refl) Hl)) ltac:(discriminate)).
  - exact (proj1 (skipelem_splits 14 4 (list_ascii_of_string "a"%string)
             (list_ascii_of_string "/bb/c"%string) (replicate 14 "x"%char) Hs Hz
             (or_introl eq_refl) Hl)).
Defined.

Section byte_swap.

Lemma swap_pairs_two (l : list Z) :
  (swap_pairs (swap_pairs l) = l /\ length (swap_pairs l) = length l) /\
  forall a, swap_pairs (swap_pairs (a :: l)) = a :: l /\
            length (swap_pairs (a :: l)) = length (a :: l).
Proof.
  induction l as [|b r [IH1 IH2]]; [repeat split|].
  split; [apply IH2|]. intros a. simpl in *.
  destruct IH1 as [-> ->]. split; reflexivity.
Qed.

Lemma lookup_middle (pre rest : list Z) (i : nat) :
  length pre = i -> (pre ++ rest) !! i = rest !! 0%nat.
Proof.
  intros <-. rewrite lookup_app_r by lia. f_equal. lia.
Qed.

Lemma ata_byteswap_loop_pairs (k : nat) :
  forall fuel pre rest len,
    (k <= fuel)%nat -> (2 * k <= length rest)%nat ->
    Z.of_nat (length pre) + 2 * Z.of_nat k < 2 ^ 64 ->
    len <= Z.of_nat (length pre) + 2 * Z.of_nat k <= len + 1 ->
    ata_byteswap_loop fuel (pre ++ rest) (Z.of_nat (length pre)) len =
      Ok (pre ++ swap_pairs (take (2 * k) rest) ++ drop (2 * k) rest).
Proof.
  induction k as [|k IH]; intros fuel pre rest len Hfuel Hrest Hwrap Hlen.
  - replace (ata_byteswap_loop fuel (pre ++ rest) (Z.of_nat (length pre)) len)
      with (Ok (pre ++ rest) : outcome (list Z)).
    + simpl. rewrite drop_0. reflexivity.
    + destruct fuel; simpl;
        (destruct (Z.of_nat (length pre) <? len) eqn:Hlt;
         [apply Z.ltb_lt in Hlt; lia | reflexivity]).
  - destruct fuel as [|fuel]; [lia|].
    destruct rest as [|a [|b r]]; simpl in Hrest; try lia.
    cbn [ata_byteswap_loop].
    destruct (Z.of_nat (length pre) <? len) eqn:Hlt;
      [|apply Z.ltb_ge in Hlt; lia].
    rewrite Nat2Z.id.
    replace (Z.to_nat (Z.of_nat (length pre) + 1)) with (S (length pre)) by lia.
    rewrite (lookup_middle pre (a :: b :: r) (length pre) eq_refl).
    replace ((pre ++ a :: b :: r) !! S (length pre)) with (Some b).
    2:{ rewrite lookup_app_r by lia.
        replace (S (length pre) - length pre)%nat with 1%nat by lia. reflexivity. }
    cbn [lookup list_lookup].
    replace (<[S (length pre) := a]> (<[length pre := b]> (pre ++ a :: b :: r)))
      with ((pre ++ [b; a]) ++ r).
    2:{ rewrite (insert_app_r_alt pre) by lia.
        replace (length pre - length pre)%nat with 0%nat by lia.
        rewrite (insert_app_r_alt pre) by (simpl; lia).
        replace (S (length pre) - length pre)%nat with 1%nat by lia.
        simpl. rewrite <- app_assoc. reflexivity. }
    rewrite u64_small by (change (2 ^ 64) with 18446744073709551616 in *; lia).
    replace (Z.of_nat (length pre) + 2) with (Z.of_nat (length (pre ++ [b; a])))
      by (rewrite length_app; simpl; lia).
    rewrite IH.
    + replace (2 * S k)%nat with (S (S (2 * k))) by lia.
      cbn [take drop swap_pairs]. rewrite <- !app_assoc. reflexivity.
    + lia.
    + lia.
    + rewrite length_app. simpl. lia.
    + rewrite length_app. simpl. lia.
Qed.

Lemma ata_byteswap_loop_overrun (k : nat) :
  forall fuel pre rest len,
    (k < fuel)%nat -> length rest = (2 * k + 1)%nat ->
    Z.of_nat (length pre) + 2 * Z.of_nat k < 2 ^ 64 ->
    len = Z.of_nat (length pre) + 2 * Z.of_nat k + 1 ->
    ata_byteswap_loop fuel (pre ++ rest) (Z.of_nat (length pre)) len
    = Fail (Undefined "buffer overrun").
Proof.
  induction k as [|k IH]; intros fuel pre rest len Hfuel Hrest Hwrap Hlen.
  - destruct fuel as [|fuel]; [lia|].
    destruct rest as [|a [|b r]]; simpl in Hrest; try lia.
    cbn [ata_byteswap_loop].
    destruct (Z.of_nat (length pre) <? len) eqn:Hlt;
      [|apply Z.ltb_ge in Hlt; lia].
    rewrite Nat2Z.id.
    replace (Z.to_nat (Z.of_nat (length pre) + 1)) with (S (length pre)) by lia.
    rewrite (lookup_middle pre [a] (length pre) eq_refl).
    replace ((pre ++ [a]) !! S (length pre)) with (@None Z); [reflexivity|].
    symmetry. apply lookup_ge_None. rewrite length_app. simpl. lia.
  - destruct fuel as [|fuel]; [lia|].
    destruct rest as [|a [|b r]]; simpl in Hrest; try lia.
    cbn [ata_byteswap_loop].
    destruct (Z.of_nat (length pre) <? len) eqn:Hlt;
      [|apply Z.ltb_ge in Hlt; lia].
    rewrite Nat2Z.id.
    replace (Z.to_nat (Z.of_nat (length pre) + 1)) with (S (length pre)) by lia.
    rewrite (lookup_middle pre (a :: b :: r) (length pre) eq_refl).
    replace ((pre ++ a :: b :: r) !! S (length pre)) with (Some b).
    2:{ rewrite lookup_app_r by lia.
        replace (S (length pre) - length pre)%nat with 1%nat by lia. reflexivity. }
    cbn [lookup list_lookup].
    replace (<[S (length pre) := a]> (<[length pre := b]> (pre ++ a :: b :: r)))
      with ((pre ++ [b; a]) ++ r).
    2:{ rewrite (insert_app_r_alt pre) by lia.
        replace (length pre - length pre)%nat with 0%nat by lia.
        rewrite (insert_app_r_alt pre) by (simpl; lia).
        replace (S (length pre) - length pre)%nat with 1%nat by lia.
        simpl. rewrite <- app_assoc. reflexivity. }
    rewrite u64_small by (change (2 ^ 64) with 18446744073709551616 in *; lia).
    replace (Z.of_nat (length pre) + 2) with (Z.of_nat (length (pre ++ [b; a])))
      by (rewrite length_app; simpl; lia).
    apply IH.
    + lia.
    + lia.
    + rewrite length_app. simpl. lia.
    + rewrite length_app. simpl. lia.
Qed.

(** X25. [ata_byteswap(buf, len)] exchanges the two bytes of every pair below
    [len] and leaves the rest of the buffer alone.  With an even [len],
    a second call gives the buffer back.  With an odd [len] the last
    exchange involves the byte at [len] itself: a byte behind the
    requested length is changed, and when the buffer has exactly [len]
    bytes the access is behind its end. *)
Theorem ata_byteswap_pairs (buf : list Z) (len : Z) :
  0 <= len <= Z.of_nat (length buf) -> len < 2 ^ 64 - 1 ->
  let n := Z.to_nat (len + len mod 2) in
  ((n <= length buf)%nat ->
   ata_byteswap buf len = Ok (swap_pairs (take n buf) ++ drop n buf)) /\
  ((length buf < n)%nat ->
   ata_byteswap buf len = Fail (Undefined "buffer overrun")) /\
  (len mod 2 = 0 ->
   exists buf', ata_byteswap buf len = Ok buf' /\ ata_byteswap buf' len = Ok buf).
Proof.
  intros Hlen Hwrap n.
  assert (Hmod : 0 <= len mod 2 < 2) by (apply Z.mod_pos_bound; lia).
  assert (Hdiv : len = 2 * (len / 2) + len mod 2) by (apply Z.div_mod; lia).
  assert (Hfit : forall b : list Z, (n <= length b)%nat ->
            ata_byteswap b len = Ok (swap_pairs (take n b) ++ drop n b)).
  { intros b Hn. unfold ata_byteswap.
    pose proof (ata_byteswap_loop_pairs (Z.to_nat ((len + len mod 2) / 2))
                  (Z.to_nat len) [] b len) as H.
    assert (Hk : (2 * Z.to_nat ((len + len mod 2) / 2))%nat = n).
    { unfold n.
      assert (len + len mod 2 = 2 * ((len + len mod 2) / 2)).
      { replace (len + len mod 2) with ((len / 2 + len mod 2) * 2) at 2 by lia.
        rewrite Z.div_mul by lia. lia. }
      lia. }
    rewrite Hk in H. simpl in H. apply H.
    - assert ((len + len mod 2) / 2 <= len); [|lia].
      apply Z.div_le_upper_bound; lia.
    - exact Hn.
    - unfold n in Hk. change (2 ^ 64) with 18446744073709551616 in *. lia.
    - unfold n in Hk. lia. }
  split; [apply Hfit|]. split.
  - intros Hover. unfold ata_byteswap.
    assert (Hodd : len mod 2 = 1) by (unfold n in Hover; lia).
    assert (Hfull : len = Z.of_nat (length buf)) by (unfold n in Hover; lia).
    apply (ata_byteswap_loop_overrun (Z.to_nat (len / 2)) (Z.to_nat len) [] buf len).
    + lia.
    + lia.
    + simpl. change (2 ^ 64) with 18446744073709551616 in *. lia.
    + simpl. lia.
  - intros Heven.
    assert (Hn : (n <= length buf)%nat) by (unfold n; lia).
    eexists. split; [apply Hfit; exact Hn|].
    destruct (swap_pairs_two (take n buf)) as [[Hinv Hsame] _].
    assert (Htake : length (swap_pairs (take n buf)) = n)
      by (rewrite Hsame, length_take; lia).
    rewrite Hfit by (rewrite length_app, Htake, length_drop; lia).
    rewrite take_app_length' by (symmetry; exact Htake).
    rewrite drop_app_length' by (symmetry; exact Htake).
    rewrite Hinv, take_drop. reflexivity.
Qed.

End byte_swap.

Lemma ata_byteswap_pairs_witness :
  ata_byteswap [1; 2; 3; 4; 5] 4 = Ok [2; 1; 4; 3; 5] /\
  ata_byteswap [1; 2; 3; 4; 5] 3 = Ok [2; 1; 4; 3; 5] /\
  ata_byteswap [1; 2; 3] 3 = Fail (Undefined "buffer overrun").
Proof.
  assert (H4 : 0 <= 4 <= Z.of_nat (length [1; 2; 3; 4; 5])) by (simpl; lia).
  assert (H3 : 0 <= 3 <= Z.of_nat (length [1; 2; 3; 4; 5])) by (simpl; lia).
  assert (H3' : 0 <= 3 <= Z.of_nat (length [1; 2; 3])) by (simpl; lia).
  split; [|split].
  - apply (proj1 (ata_byteswap_pairs [1; 2; 3; 4; 5] 4 H4 eq_refl)). vm_compute. lia.
  - apply (proj1 (ata_byteswap_pairs [1; 2; 3; 4; 5] 3 H3 eq_refl)). vm_compute. lia.
  - apply (proj1 (proj2 (ata_byteswap_pairs [1; 2; 3] 3 H3' eq_refl))). vm_compute. lia.
Defined.

(** *** Updates of the free bitmap *)

Section bit_operations.

Lemma land_bit_testbit (x j : Z) :
  0 <= j -> (Z.land x (Z.shiftl 1 j) =? 0) = negb (Z.testbit x j).
Proof.
  intros Hj. rewrite Z.shiftl_1_l.
  destruct (Z.testbit x j) eqn:Hb; simpl.
  - apply Z.eqb_neq. intros H0.
    assert (Ht : Z.testbit (Z.land x (2 ^ j)) j = true)
      by (rewrite Z.land_spec, Hb, Z.pow2_bits_true by lia; reflexivity).
    rewrite H0, Z.bits_0 in Ht. discriminate.
  - apply Z.eqb_eq. apply Z.bits_inj'. intros n Hn.
    rewrite Z.land_spec, Z.bits_0, Z.pow2_bits_eqb by lia.
    destruct (Z.eqb_spec j n) as [->|_]; [rewrite Hb|]; apply andb_false_r || reflexivity.
Qed.

Lemma flipped_byte (alloc : bool) (byte j j' : Z) :
  0 <= j -> 0 <= j' ->
  Z.testbit (if alloc then Z.lor byte (Z.shiftl 1 j)
             else Z.land byte (Z.lnot (Z.shiftl 1 j))) j'
  = if decide (j' = j) then alloc else Z.testbit byte j'.
Proof.
  intros Hj Hj'. rewrite Z.shiftl_1_l. destruct alloc.
  - rewrite Z.lor_spec, Z.pow2_bits_eqb by lia.
    destruct (decide (j' = j)) as [->|Hne].
    + rewrite Z.eqb_refl. apply orb_true_r.
    + assert (Hf : (j =? j') = false) by (apply Z.eqb_neq; congruence).
      rewrite Hf. apply orb_false_r.
  - rewrite Z.land_spec, Z.lnot_spec, Z.pow2_bits_eqb by lia.
    destruct (decide (j' = j)) as [->|Hne].
    + rewrite Z.eqb_refl. apply andb_false_r.
    + assert (Hf : (j =? j') = false) by (apply Z.eqb_neq; congruence).
      rewrite Hf. apply andb_true_r.
Qed.

(** The bits of a bitmap block after one bit was set or cleared. *)
Lemma flipped_block (alloc : bool) (d : block) (bi bi' : Z) :
  0 <= bi -> 0 <= bi' -> (Z.to_nat (bi / 8) < length d)%nat ->
  let byte := byte_at d (bi / 8) in
  let m := Z.shiftl 1 (bi mod 8) in
  let d' := <[Z.to_nat (bi / 8) := if alloc then Z.lor byte m else Z.land byte (Z.lnot m)]> d in
  Z.testbit (byte_at d' (bi' / 8)) (bi' mod 8)
  = if decide (bi' = bi) then alloc else Z.testbit (byte_at d (bi' / 8)) (bi' mod 8).
Proof.
  intros Hbi Hbi' Hlen. cbv zeta.
  pose proof (Z.mod_pos_bound bi 8 ltac:(lia)) as Hm.
  pose proof (Z.mod_pos_bound bi' 8 ltac:(lia)) as Hm'.
  pose proof (Z.div_pos bi 8 Hbi ltac:(lia)) as Hd.
  pose proof (Z.div_pos bi' 8 Hbi' ltac:(lia)) as Hd'.
  destruct (Z.eq_dec (bi' / 8) (bi / 8)) as [Heq|Hne].
  - rewrite Heq. unfold byte_at, block in *. rewrite list_lookup_insert_eq by exact Hlen.
    match goal with
    | |- context [default 0 (Some ?v)] => change (default 0 (Some v)) with v
    end.
    rewrite flipped_byte by lia.
    destruct (decide (bi' mod 8 = bi mod 8)) as [Hmod|Hmod];
      destruct (decide (bi' = bi)) as [Hb|Hb]; try reflexivity.
    + exfalso. apply Hb. rewrite (Z.div_mod bi 8), (Z.div_mod bi' 8) by lia. lia.
    + exfalso. apply Hmod. rewrite Hb. reflexivity.
  - unfold byte_at, block in *. rewrite list_lookup_insert_ne by lia.
    destruct (decide (bi' = bi)) as [Hb|Hb]; [exfalso; apply Hne; rewrite Hb; reflexivity|].
    reflexivity.
Qed.

(** [x | (2^k - 1)] is the last number of the group of [2^k] numbers that
    holds [x]. *)
Lemma lor_group (k x y : Z) :
  0 <= k -> 0 <= x -> x <= y <= Z.lor x (2 ^ k - 1) -> y / 2 ^ k = x / 2 ^ k.
Proof.
  intros Hk Hx Hy.
  assert (Hpos : 0 < 2 ^ k) by (apply Z.pow_pos_nonneg; lia).
  assert (Hlor : Z.lor x (2 ^ k - 1) = x - x mod 2 ^ k + (2 ^ k - 1)).
  { pose proof (Z.add_lor_land x (Z.ones k)) as Ha.
    rewrite Z.land_ones in Ha by lia. rewrite Z.ones_equiv in Ha.
    replace (Z.pred (2 ^ k)) with (2 ^ k - 1) in Ha by lia. lia. }
  rewrite Hlor in Hy.
  pose proof (Z.mod_pos_bound x (2 ^ k) Hpos) as Hm.
  pose proof (Z.div_mod x (2 ^ k) ltac:(lia)) as Hdm.
  symmetry. apply (Z.div_unique y (2 ^ k) (x / 2 ^ k) (y - 2 ^ k * (x / 2 ^ k))); lia.
Qed.

End bit_operations.

Section bitmap_update.
Context `{fs_params}.
Variable k : Z.
Hypothesis BPB_pow : 0 <= k <= 32 /\ BPB = 2 ^ k.
Hypothesis BBLOCK_group : forall b n, BBLOCK b n = b / BPB + BBLOCK 0 n.

Lemma BPB_pos : 0 < BPB.
Proof. destruct BPB_pow as [Hk ->]. apply Z.pow_pos_nonneg; lia. Qed.

Lemma bitmap_bit_testbit (sb : superblock) (bufs : Z -> block) (b : Z) :
  bitmap_bit sb bufs b
  = Z.testbit (byte_at (bufs (u32 (BBLOCK b (sb_ninodes sb)))) (b mod BPB / 8))
      ((b mod BPB) mod 8).
Proof.
  pose proof BPB_pos as Hp. unfold bitmap_bit. cbv zeta.
  rewrite land_bit_testbit by (apply Z.mod_pos_bound; lia).
  rewrite negb_involutive.
  rewrite (BBLOCK_group (b - b mod BPB)), (BBLOCK_group b).
  assert (Hne : BPB <> 0) by lia.
  pose proof (Z.div_mod b BPB Hne) as Hdm.
  replace (b - b mod BPB) with (b / BPB * BPB) by (rewrite Z.mul_comm; lia).
  rewrite Z.div_mul by lia. reflexivity.
Qed.

Lemma flip_bit_cases (alloc : bool) (blocknum bno : Z) (s : mfs) :
  let d := mfs_bufs s blocknum in
  let bi := bno mod BPB in
  let byte := byte_at d (bi / 8) in
  let m := Z.shiftl 1 (bi mod 8) in
  flip_bit alloc blocknum bno s =
    if Bool.eqb (Z.testbit byte (bi mod 8)) alloc
    then (Fail (bitmap_panic alloc), s)
    else (Ok tt, set_mfs_bufs
            (upd (mfs_bufs s) blocknum
               (<[Z.to_nat (bi / 8) :=
                    if alloc then Z.lor byte m else Z.land byte (Z.lnot m)]> d)) s).
Proof.
  cbv zeta. unfold flip_bit, bind, gets.
  rewrite land_bit_testbit by (apply Z.mod_pos_bound; lia).
  destruct alloc, (Z.testbit _ _); reflexivity.
Qed.

Lemma bitmap_flipped_ext (sb : superblock) (size : Z) (alloc : bool)
    (done done' : list Z) (bufs0 bufs : Z -> block) :
  (forall b, b ∈ done <-> b ∈ done') ->
  bitmap_flipped sb size alloc done bufs0 bufs ->
  bitmap_flipped sb size alloc done' bufs0 bufs.
Proof.
  intros Hiff [Hbits Hlen]. split; [|exact Hlen].
  intros b Hb. rewrite (Hbits b Hb).
  destruct (decide (b ∈ done)) as [Hin|Hin], (decide (b ∈ done')) as [Hin'|Hin'];
    try reflexivity; exfalso; [apply Hin', Hiff, Hin | apply Hin, Hiff, Hin'].
Qed.

Lemma set_mfs_bufs_twice (s s1 s2 : mfs) :
  s1 = set_mfs_bufs (mfs_bufs s1) s -> s2 = set_mfs_bufs (mfs_bufs s2) s1 ->
  s2 = set_mfs_bufs (mfs_bufs s2) s.
Proof. intros H1 H2. rewrite H2 at 1. rewrite H1. reflexivity. Qed.

Section one_list.
Variables (sb : superblock) (size : Z) (alloc : bool) (bufs0 : Z -> block).
Hypothesis bitmap_range :
  0 <= BBLOCK 0 (sb_ninodes sb) /\ size / BPB + BBLOCK 0 (sb_ninodes sb) < 2 ^ 32 /\
  size <= 2 ^ 32.
Hypothesis bufs_long : forall blk, BPB <= 8 * Z.of_nat (length (bufs0 blk)).

Lemma bitmap_block_small (b : Z) :
  0 <= b < size -> u32 (BBLOCK b (sb_ninodes sb)) = b / BPB + BBLOCK 0 (sb_ninodes sb).
Proof.
  intros Hb. pose proof BPB_pos as Hp. destruct bitmap_range as (H0 & Hmax & _).
  rewrite BBLOCK_group. apply u32_small.
  assert (0 <= b / BPB) by (apply Z.div_pos; lia).
  assert (b / BPB <= size / BPB) by (apply Z.div_le_mono; lia). lia.
Qed.

Lemma flip_bit_step (done : list Z) (x : Z) (s : mfs) :
  mfs_ninodes s = sb_ninodes sb ->
  bitmap_flipped sb size alloc done bufs0 (mfs_bufs s) ->
  0 <= x < size ->
  match flip_bit alloc (u32 (BBLOCK x (sb_ninodes sb))) x s with
  | (Ok _, s') =>
      ((x ∉ done) /\ bitmap_bit sb bufs0 x = negb alloc) /\
      bitmap_flipped sb size alloc (x :: done) bufs0 (mfs_bufs s') /\
      s' = set_mfs_bufs (mfs_bufs s') s
  | (Fail e, _) =>
      e = bitmap_panic alloc /\
      ~ ((x ∉ done) /\ bitmap_bit sb bufs0 x = negb alloc)
  end.
Proof.
  intros Hnin [Hbits Hlen] Hx. pose proof BPB_pos as Hp.
  pose proof (Z.mod_pos_bound x BPB Hp) as Hxm.
  rewrite flip_bit_cases. cbv zeta.
  pose proof (Hbits x Hx) as Hcur. rewrite bitmap_bit_testbit in Hcur.
  rewrite Hcur.
  destruct (decide (x ∈ done)) as [Hin|Hin].
  - rewrite eqb_reflx. split; [reflexivity|]. tauto.
  - destruct (Bool.eqb (bitmap_bit sb bufs0 x) alloc) eqn:He.
    + split; [reflexivity|]. apply eqb_prop in He. intros [_ Hb].
      rewrite Hb in He. destruct alloc; discriminate.
    + assert (Hb : bitmap_bit sb bufs0 x = negb alloc).
      { destruct (bitmap_bit sb bufs0 x), alloc; simpl in He; try discriminate; reflexivity. }
      split; [split; assumption|]. split; [|destruct s; reflexivity].
      cbn [mfs_bufs set_mfs_bufs]. split.
      * intros b Hbr. rewrite bitmap_bit_testbit.
        pose proof (Z.mod_pos_bound b BPB Hp) as Hbm.
        unfold upd at 1.
        destruct (decide (u32 (BBLOCK b (sb_ninodes sb)) = u32 (BBLOCK x (sb_ninodes sb))))
          as [Hsame|Hdiff].
        -- rewrite flipped_block.
           ++ assert (Hg : b / BPB = x / BPB)
                by (rewrite !bitmap_block_small in Hsame by assumption; lia).
              destruct (decide (b mod BPB = x mod BPB)) as [Hm|Hm].
              ** assert (b = x)
                   by (rewrite (Z.div_mod b BPB), (Z.div_mod x BPB) by lia; congruence).
                 subst b. rewrite decide_True by (left). reflexivity.
              ** assert (Hne : b <> x) by congruence.
                 rewrite <- Hsame, <- bitmap_bit_testbit, (Hbits b Hbr).
                 destruct (decide (b ∈ done)) as [Hd|Hd].
                 --- rewrite decide_True by (right; exact Hd). reflexivity.
                 --- rewrite decide_False; [reflexivity|].
                     intros Hc. apply elem_of_cons in Hc as [?|?]; contradiction.
           ++ lia.
           ++ lia.
           ++ pose proof (bufs_long (u32 (BBLOCK x (sb_ninodes sb)))) as Hl.
              rewrite <- Hlen in Hl.
              assert (x mod BPB / 8 < Z.of_nat (length (mfs_bufs s (u32 (BBLOCK x (sb_ninodes sb))))));
                [apply Z.div_lt_upper_bound; lia|].
              assert (0 <= x mod BPB / 8) by (apply Z.div_pos; lia). lia.
        -- assert (Hne : b <> x) by (intros ->; apply Hdiff; reflexivity).
           rewrite <- bitmap_bit_testbit, (Hbits b Hbr).
           destruct (decide (b ∈ done)) as [Hd|Hd].
           ++ rewrite decide_True by (right; exact Hd). reflexivity.
           ++ rewrite decide_False; [reflexivity|].
              intros Hc. apply elem_of_cons in Hc as [?|?]; contradiction.
      * intros blk. unfold upd. destruct (decide _) as [->|_]; [|apply Hlen].
        unfold block in *. rewrite length_insert. apply Hlen.
Qed.

Lemma lor_group_small (x0 : Z) :
  0 <= x0 < size -> u32 (Z.lor x0 (BPB - 1)) = Z.lor x0 (BPB - 1).
Proof.
  intros Hx. destruct BPB_pow as [Hk Hpow]. destruct bitmap_range as (_ & _ & Hsz).
  rewrite Hpow. apply u32_small.
  assert (Hpos : 0 < 2 ^ k) by (apply Z.pow_pos_nonneg; lia).
  assert (Hlor : Z.lor x0 (2 ^ k - 1) = x0 - x0 mod 2 ^ k + (2 ^ k - 1)).
  { pose proof (Z.add_lor_land x0 (Z.ones k)) as Ha.
    rewrite Z.land_ones in Ha by lia. rewrite Z.ones_equiv in Ha.
    replace (Z.pred (2 ^ k)) with (2 ^ k - 1) in Ha by lia. lia. }
  rewrite Hlor.
  pose proof (Z.mod_pos_bound x0 (2 ^ k) Hpos) as Hm.
  split; [lia|].
  assert (Hsplit : 2 ^ 32 = 2 ^ k * 2 ^ (32 - k))
    by (rewrite <- Z.pow_add_r by lia; f_equal; lia).
  assert (Hq : x0 / 2 ^ k < 2 ^ (32 - k))
    by (apply Z.div_lt_upper_bound; [lia|]; rewrite <- Hsplit; lia).
  assert (Hdm : x0 = 2 ^ k * (x0 / 2 ^ k) + x0 mod 2 ^ k) by (apply Z.div_mod; lia).
  rewrite Hsplit. nia.
Qed.

Lemma bitmap_run_step (rest : list Z) : forall (x0 x : Z) (done : list Z) (s : mfs),
  mfs_ninodes s = sb_ninodes sb ->
  bitmap_flipped sb size alloc done bufs0 (mfs_bufs s) ->
  0 <= x0 -> x / BPB = x0 / BPB ->
  Forall (fun y => x0 <= y < size) (x :: rest) ->
  match bitmap_run alloc (u32 (BBLOCK x0 (sb_ninodes sb)))
          (u32 (Z.lor x0 (BPB - 1))) x rest s with
  | (Ok rem, s') =>
      exists grp, x :: rest = grp ++ rem /\ (length rem <= length rest)%nat /\
        fresh_blocks sb alloc bufs0 done grp /\
        bitmap_flipped sb size alloc (grp ++ done) bufs0 (mfs_bufs s') /\
        s' = set_mfs_bufs (mfs_bufs s') s
  | (Fail e, _) => e = bitmap_panic alloc /\ ~ fresh_blocks sb alloc bufs0 done (x :: rest)
  end.
Proof.
  induction rest as [|y r IH]; intros x0 x done s Hnin Hflip Hx0 Hgrp Hall;
    apply Forall_cons in Hall as [Hx Hrest]; simpl; unfold bind at 1;
    (replace (BBLOCK x0 (sb_ninodes sb)) with (BBLOCK x (sb_ninodes sb))
       by (rewrite (BBLOCK_group x), (BBLOCK_group x0), Hgrp; reflexivity));
    pose proof (flip_bit_step done x s Hnin Hflip ltac:(lia)) as Hstep;
    destruct (flip_bit alloc _ x s) as [[[]|e] s1].
  - destruct Hstep as (Hgood & Hf & Hs). exists [x]. unfold ret.
    split; [reflexivity|]. split; [simpl; lia|]. split; [|split; assumption].
    split; [apply NoDup_singleton|].
    intros z Hz. apply list_elem_of_singleton in Hz as ->. exact Hgood.
  - destruct Hstep as [-> Hbad]. split; [reflexivity|].
    intros [_ Hg]. apply Hbad, Hg. left.
  - destruct Hstep as (Hgood & Hf & Hs).
    destruct (y <=? u32 (Z.lor x0 (BPB - 1))) eqn:Hle.
    + apply Forall_cons in Hrest as Hyr. destruct Hyr as [Hy Hr].
      assert (Hyg : y / BPB = x0 / BPB).
      { apply Z.leb_le in Hle. rewrite lor_group_small in Hle by lia.
        destruct BPB_pow as [Hk Hpow]. rewrite Hpow in *.
        apply lor_group; lia. }
      specialize (IH x0 y (x :: done) s1).
      replace (BBLOCK x (sb_ninodes sb)) with (BBLOCK x0 (sb_ninodes sb))
        by (rewrite (BBLOCK_group x), (BBLOCK_group x0), Hgrp; reflexivity).
      assert (Hnin1 : mfs_ninodes s1 = sb_ninodes sb) by (rewrite Hs; exact Hnin).
      specialize (IH Hnin1 Hf Hx0 Hyg Hrest).
      destruct (bitmap_run alloc _ _ y r s1) as [[rem|e] s2].
      * destruct IH as (grp & Hsplit & Hlen & [Hnd Hg] & Hf2 & Hs2).
        exists (x :: grp). split; [simpl; rewrite Hsplit; reflexivity|].
        split; [simpl in *; lia|]. split; [|split].
        -- split.
           ++ apply NoDup_cons. split; [|exact Hnd].
              intros Hin. apply (proj1 (Hg x Hin)). left.
           ++ intros z Hz. apply elem_of_cons in Hz as [->|Hz]; [exact Hgood|].
              destruct (Hg z Hz) as [Hnz Hbz]. split; [|exact Hbz].
              intros Hd. apply Hnz. right. exact Hd.
        -- eapply bitmap_flipped_ext; [|exact Hf2].
           intros b. rewrite !elem_of_app, !elem_of_cons. tauto.
        -- exact (set_mfs_bufs_twice s s1 s2 Hs Hs2).
      * destruct IH as [-> Hbad]. split; [reflexivity|].
        intros [Hnd Hg]. apply Hbad. apply NoDup_cons in Hnd as [Hnx Hnd].
        split; [exact Hnd|]. intros z Hz.
        destruct (Hg z ltac:(right; exact Hz)) as [Hnz Hbz]. split; [|exact Hbz].
        intros Hd. apply elem_of_cons in Hd as [->|Hd]; [apply Hnx, Hz | apply Hnz, Hd].
    + exists [x]. unfold ret. split; [reflexivity|]. split; [simpl; lia|].
      split; [|split; assumption].
      split; [apply NoDup_singleton|].
      intros z Hz. apply list_elem_of_singleton in Hz as ->. exact Hgood.
  - destruct Hstep as [-> Hbad]. split; [reflexivity|].
    intros [_ Hg]. apply Hbad, Hg. left.
Qed.

Lemma balloc_free_loop_step (fuel : nat) :
  forall (l : list Z) (tr : transaction) (done : list Z) (s : mfs),
  mfs_ninodes s = sb_ninodes sb ->
  bitmap_flipped sb size alloc done bufs0 (mfs_bufs s) ->
  StronglySorted Z.le l -> Forall (fun y => 0 <= y < size) l ->
  (length l <= fuel)%nat ->
  match balloc_free_loop fuel alloc l tr s with
  | (Ok _, s') =>
      fresh_blocks sb alloc bufs0 done l /\
      bitmap_flipped sb size alloc (l ++ done) bufs0 (mfs_bufs s') /\
      s' = set_mfs_bufs (mfs_bufs s') s
  | (Fail e, _) => e = bitmap_panic alloc /\ ~ fresh_blocks sb alloc bufs0 done l
  end.
Proof.
  induction fuel as [|fuel IH]; intros l tr done s Hnin Hflip Hsort Hall Hlen;
    destruct l as [|x rest]; simpl in Hlen; try lia; simpl.
  - split; [split; [constructor | intros y Hy; inversion Hy]|].
    split; [exact Hflip | destruct s; reflexivity].
  - split; [split; [constructor | intros y Hy; inversion Hy]|].
    split; [exact Hflip | destruct s; reflexivity].
  - unfold bind at 1, gets at 1. rewrite Hnin. unfold bind at 1.
    apply StronglySorted_inv in Hsort as [Hsrest Hxle].
    assert (Hx : 0 <= x < size) by (apply Forall_cons in Hall as [? _]; assumption).
    assert (Hall' : Forall (fun y => x <= y < size) (x :: rest)).
    { apply Forall_cons. split; [lia|].
      apply Forall_cons in Hall as [_ Hall].
      rewrite Forall_forall in Hall, Hxle |- *. intros y Hy.
      specialize (Hall y Hy). specialize (Hxle y Hy). lia. }
    pose proof (bitmap_run_step rest x x done s Hnin Hflip ltac:(lia) eq_refl Hall') as Hrun.
    destruct (bitmap_run alloc _ _ x rest s) as [[rem|e] s1]; [|exact Hrun].
    destruct Hrun as (grp & Hsplit & Hrl & [Hnd Hg] & Hf & Hs).
    unfold bind at 1, gets at 1.
    assert (Hnin1 : mfs_ninodes s1 = sb_ninodes sb) by (rewrite Hs; exact Hnin).
    assert (Hsrem : StronglySorted Z.le rem).
    { apply (StronglySorted_app_1_r _ grp). rewrite <- Hsplit.
      apply SSorted_cons; assumption. }
    assert (Hallrem : Forall (fun y => 0 <= y < size) rem).
    { rewrite Hsplit in Hall. apply Forall_app in Hall as [_ ?]. assumption. }
    specialize (IH rem
      (add_unique_block (u32 (BBLOCK x (sb_ninodes sb)))
         (mfs_bufs s1 (u32 (BBLOCK x (sb_ninodes sb)))) tr)
      (grp ++ done) s1 Hnin1 Hf Hsrem Hallrem ltac:(lia)).
    destruct (balloc_free_loop fuel alloc rem _ s1) as [[tr'|e] s2].
    + destruct IH as ([Hndr Hgr] & Hf2 & Hs2).
      change (x :: rest ++ done) with ((x :: rest) ++ done). rewrite Hsplit.
      split; [split|split].
      * apply NoDup_app. split; [exact Hnd|]. split; [|exact Hndr].
        intros z Hz Hzr. apply (proj1 (Hgr z Hzr)). apply elem_of_app. left. exact Hz.
      * intros z Hz. apply elem_of_app in Hz as [Hz|Hz]; [exact (Hg z Hz)|].
        destruct (Hgr z Hz) as [Hnz Hbz]. split; [|exact Hbz].
        intros Hd. apply Hnz. apply elem_of_app. right. exact Hd.
      * eapply bitmap_flipped_ext; [|exact Hf2].
        intros b. rewrite !elem_of_app. tauto.
      * exact (set_mfs_bufs_twice s s1 s2 Hs Hs2).
    + destruct IH as [-> Hbad]. split; [reflexivity|].
      rewrite Hsplit. intros [Hnda Hga]. apply Hbad.
      apply NoDup_app in Hnda as (_ & Hdisj & Hndr). split; [exact Hndr|].
      intros z Hz. destruct (Hga z ltac:(apply elem_of_app; right; exact Hz)) as [Hnz Hbz].
      split; [|exact Hbz]. intros Hd. apply elem_of_app in Hd as [Hd|Hd];
        [exact (Hdisj z Hd Hz) | exact (Hnz Hd)].
Qed.

End one_list.

Lemma balloc_free_on_disk_cases (blocks : list Z) (tr : transaction) (alloc : bool)
    (s : mfs) (sb : superblock) (size : Z) :
  sb_ninodes sb = mfs_ninodes s ->
  0 <= BBLOCK 0 (sb_ninodes sb) ->
  size / BPB + BBLOCK 0 (sb_ninodes sb) < 2 ^ 32 -> size <= 2 ^ 32 ->
  (forall blk, BPB <= 8 * Z.of_nat (length (mfs_bufs s blk))) ->
  (forall b, b ∈ blocks -> 0 <= b < size) ->
  (NoDup blocks ->
   (forall b, b ∈ blocks -> bitmap_bit sb (mfs_bufs s) b = negb alloc) ->
   exists tr' s',
     balloc_free_on_disk blocks tr alloc s = (Ok (merge_sort Z.le blocks, tr'), s') /\
     bitmap_flipped sb size alloc blocks (mfs_bufs s) (mfs_bufs s') /\
     s' = set_mfs_bufs (mfs_bufs s') s) /\
  (~ NoDup blocks \/ (exists b, b ∈ blocks /\ bitmap_bit sb (mfs_bufs s) b = alloc) ->
   exists s', balloc_free_on_disk blocks tr alloc s = (Fail (bitmap_panic alloc), s')).
Proof.
  intros Hnin H0 Hmax Hsz Hlong Hrange.
  pose proof (merge_sort_Permutation Z.le blocks) as Hperm.
  assert (Hmem : forall b, b ∈ merge_sort Z.le blocks <-> b ∈ blocks)
    by (intros b; rewrite Hperm; reflexivity).
  assert (Hflip0 : bitmap_flipped sb size alloc [] (mfs_bufs s) (mfs_bufs s)).
  { split; [|reflexivity]. intros b _. rewrite decide_False; [reflexivity|].
    intros Hin. inversion Hin. }
  pose proof (balloc_free_loop_step sb size alloc (mfs_bufs s)
                (conj H0 (conj Hmax Hsz)) Hlong
                (length (merge_sort Z.le blocks)) (merge_sort Z.le blocks) tr [] s
                (eq_sym Hnin) Hflip0) as Hloop.
  specialize (Hloop (StronglySorted_merge_sort Z.le blocks)).
  assert (Hall : Forall (fun y => 0 <= y < size) (merge_sort Z.le blocks)).
  { apply Forall_forall. intros y Hy. apply Hrange, Hmem, Hy. }
  specialize (Hloop Hall (le_n _)).
  unfold balloc_free_on_disk, bind.
  destruct (balloc_free_loop _ alloc (merge_sort Z.le blocks) tr s) as [[tr'|e] s'].
  - destruct Hloop as ([Hnd Hg] & Hf & Hs). split.
    + intros _ _. exists tr', s'. split; [reflexivity|]. split; [|exact Hs].
      eapply bitmap_flipped_ext; [|exact Hf].
      intros b. rewrite app_nil_r. apply Hmem.
    + intros [Hdup|(b & Hb & Hbit)]; exfalso.
      * apply Hdup. rewrite <- Hperm. exact Hnd.
      * destruct (Hg b (proj2 (Hmem b) Hb)) as [_ Hbb]. rewrite Hbb in Hbit.
        destruct alloc; discriminate.
  - destruct Hloop as [-> Hbad]. split.
    + intros Hnd Hbits. exfalso. apply Hbad. split; [rewrite Hperm; exact Hnd|].
      intros y Hy. split; [intros Hin; inversion Hin|]. apply Hbits, Hmem, Hy.
    + intros _. exists s'. reflexivity.
Qed.

(** X5. [balloc_free_on_disk] brings the bitmap bit of every block of the list
    to [alloc] and leaves every other bit of the bitmap, and everything but
    the buffers, as it was; the caller's vector comes back sorted.  It
    insists that every bit changes: a block that is listed twice, or whose
    bit is already in the state asked for, ends the call in a panic. *)
Theorem balloc_free_on_disk_flips (blocks : list Z) (tr : transaction) (alloc : bool)
    (s : mfs) (sb : superblock) (size : Z) :
  sb_ninodes sb = mfs_ninodes s ->
  0 <= BBLOCK 0 (sb_ninodes sb) ->
  size / BPB + BBLOCK 0 (sb_ninodes sb) < 2 ^ 32 -> size <= 2 ^ 32 ->
  (forall blk, BPB <= 8 * Z.of_nat (length (mfs_bufs s blk))) ->
  (forall b, b ∈ blocks -> 0 <= b < size) ->
  (NoDup blocks ->
   (forall b, b ∈ blocks -> bitmap_bit sb (mfs_bufs s) b = negb alloc) ->
   exists tr' s',
     balloc_free_on_disk blocks tr alloc s = (Ok (merge_sort Z.le blocks, tr'), s') /\
     bitmap_flipped sb size alloc blocks (mfs_bufs s) (mfs_bufs s') /\
     s' = set_mfs_bufs (mfs_bufs s') s) /\
  (~ NoDup blocks \/ (exists b, b ∈ blocks /\ bitmap_bit sb (mfs_bufs s) b = alloc) ->
   exists s', balloc_free_on_disk blocks tr alloc s = (Fail (bitmap_panic alloc), s')).
Proof. exact (balloc_free_on_disk_cases blocks tr alloc s sb size). Qed.


End bitmap_update.

Lemma small_bitmap_geometry :
  (0 <= 12 <= 32 /\ @BPB small_geometry = 2 ^ 12) /\
  (forall b n, @BBLOCK small_geometry b n = b / @BPB small_geometry + @BBLOCK small_geometry 0 n).
Proof.
  split; [split; [lia | reflexivity]|].
  intros b n. cbn [BBLOCK BPB small_geometry]. rewrite Z.div_0_l by lia. lia.
Qed.

Lemma balloc_free_on_disk_flips_witness :
  let sb := {| sb_size := 8; sb_ninodes := 8; sb_nblocks := 8;
               reclaim_inodes := []; num_reclaim_inodes := 0 |} in
  let s := set_mfs_bufs (fun _ => replicate 512 0) (sample_mfs [] [] ∅) in
  (exists tr' s',
     @balloc_free_on_disk small_geometry [5; 3] (new_transaction 1) true s
       = (Ok ([3; 5], tr'), s') /\
     @bitmap_bit small_geometry sb (mfs_bufs s') 5 = true /\
     @bitmap_bit small_geometry sb (mfs_bufs s') 4 = false) /\
  (exists s',
     @balloc_free_on_disk small_geometry [3; 3] (new_transaction 1) true s
       = (Fail (Panic "balloc_free_on_disk: block already in use"), s')).
Proof.
  cbv zeta.
  set (sb := {| sb_size := 8; sb_ninodes := 8; sb_nblocks := 8;
                reclaim_inodes := []; num_reclaim_inodes := 0 |}).
  set (s := set_mfs_bufs (fun _ => replicate 512 0) (sample_mfs [] [] ∅)).
  destruct small_bitmap_geometry as [Hpow Hgroup].
  assert (Hnin : sb_ninodes sb = mfs_ninodes s) by reflexivity.
  assert (H0 : 0 <= @BBLOCK small_geometry 0 (sb_ninodes sb)) by (vm_compute; discriminate).
  assert (Hmax : 8 / @BPB small_geometry + @BBLOCK small_geometry 0 (sb_ninodes sb) < 2 ^ 32)
    by reflexivity.
  assert (Hsz : 8 <= 2 ^ 32) by (vm_compute; discriminate).
  assert (Hlong : forall blk, @BPB small_geometry <= 8 * Z.of_nat (length (mfs_bufs s blk)))
    by (intros blk; vm_compute; discriminate).
  assert (Hr : forall l : list Z, Forall (fun b => 0 <= b < 8) l ->
                 forall b, b ∈ l -> 0 <= b < 8)
    by (intros l Hl; apply Forall_forall, Hl).
  split.
  - destruct (@balloc_free_on_disk_flips small_geometry 12 Hpow Hgroup [5; 3]
                (new_transaction 1) true s sb 8 Hnin H0 Hmax Hsz Hlong
                (Hr [5; 3] ltac:(repeat constructor; lia))) as [Hok _].
    destruct Hok as (tr' & s' & Hrun & [Hflip _] & _).
    + apply NoDup_cons. split; [|apply NoDup_singleton].
      intros Hin. apply list_elem_of_singleton in Hin. discriminate.
    + intros b Hb. apply elem_of_cons in Hb as [->|Hb]; [reflexivity|].
      apply list_elem_of_singleton in Hb as ->. reflexivity.
    + exists tr', s'. split; [exact Hrun|]. split.
      * rewrite (Hflip 5) by lia. rewrite decide_True by left. reflexivity.
      * rewrite (Hflip 4) by lia. rewrite decide_False; [reflexivity|].
        intros Hin. apply elem_of_cons in Hin as [Hin|Hin]; [discriminate|].
        apply list_elem_of_singleton in Hin. discriminate.
  - destruct (@balloc_free_on_disk_flips small_geometry 12 Hpow Hgroup [3; 3]
                (new_transaction 1) true s sb 8 Hnin H0 Hmax Hsz Hlong
                (Hr [3; 3] ltac:(repeat constructor; lia))) as [_ Hbad].
    apply Hbad. left. intros Hnd. apply NoDup_cons in Hnd as [Hnin3 _].
    apply Hnin3. left.
Defined.


(** *** Writing and reading back *)

Lemma memmove_at_length (m : nat) : forall (d : block) (o : nat) (src : Z -> Z) (k : Z),
  length (memmove_at d o src k m) = length d.
Proof.
  induction m as [|m IH]; intros d o src k; simpl; [reflexivity|].
  rewrite IH. unfold block in *. apply length_insert.
Qed.

Lemma memmove_at_lookup (m : nat) : forall (d : block) (o : nat) (src : Z -> Z) (k : Z) (j : nat),
  (o + m <= length d)%nat ->
  memmove_at d o src k m !! j =
    if decide (o <= j < o + m)%nat then Some (src (k + Z.of_nat (j - o))) else d !! j.
Proof.
  induction m as [|m IH]; intros d o src k j Hlen; simpl.
  - rewrite decide_False by lia. reflexivity.
  - unfold block in *. rewrite IH by (rewrite length_insert; lia).
    destruct (decide (S o <= j < S o + m)%nat) as [Hin|Hout].
    + rewrite decide_True by lia. do 2 f_equal. lia.
    + destruct (decide (j = o)) as [->|Hne].
      * rewrite decide_True by lia. rewrite list_lookup_insert_eq by lia.
        do 2 f_equal. lia.
      * rewrite decide_False by lia. apply list_lookup_insert_ne. lia.
Qed.

Section round_trip.
Context `{fs_params}.
Hypothesis BSIZE_pos : 0 < BSIZE.
Hypothesis BSIZE_int : BSIZE < 2 ^ 31.

Lemma bmap_mapped (bn : Z) (z : bool) (s : fs) :
  0 <= bn < NDIRECT -> addr_get (i_addrs (fs_ip s)) bn <> 0 ->
  bmap bn z s = (Ok (addr_get (i_addrs (fs_ip s)) bn), s).
Proof.
  intros Hbn Hne. unfold bmap, bind, gets.
  assert (Hlt : (bn <? NDIRECT) = true) by (apply Z.ltb_lt; lia). rewrite Hlt.
  apply Z.eqb_neq in Hne. rewrite Hne. reflexivity.
Qed.

Lemma same_block (off i : Z) :
  0 <= off -> 0 <= i < BSIZE - off mod BSIZE ->
  (off + i) / BSIZE = off / BSIZE /\ (off + i) mod BSIZE = off mod BSIZE + i.
Proof.
  intros Hoff Hi.
  pose proof (Z.mod_pos_bound off BSIZE BSIZE_pos) as Hm.
  assert (Hdm : off = BSIZE * (off / BSIZE) + off mod BSIZE) by (apply Z.div_mod; lia).
  assert (Heq : off + i = BSIZE * (off / BSIZE) + (off mod BSIZE + i)) by lia.
  split.
  - symmetry. apply (Z.div_unique_pos _ _ _ (off mod BSIZE + i)); [lia | exact Heq].
  - symmetry. apply (Z.mod_unique_pos _ _ (off / BSIZE)); [lia | exact Heq].
Qed.

Lemma block_in_range (off n o : Z) :
  off <= o < off + n -> off / BSIZE <= o / BSIZE <= (off + n - 1) / BSIZE.
Proof. intros Ho. split; apply Z.div_le_mono; lia. Qed.

Lemma mapped_range_direct (s : fs) (off n o : Z) :
  mapped_range s off n -> off <= o < off + n -> 0 <= o / BSIZE < NDIRECT.
Proof.
  intros (Hoff & Hend & _) Ho. split; [apply Z.div_pos; lia|].
  apply Z.div_lt_upper_bound; [lia|]. lia.
Qed.

Lemma mapped_range_ext (s s' : fs) (off n : Z) :
  fs_ip s' = fs_ip s ->
  (forall blk, length (fs_bufs s' blk) = length (fs_bufs s blk)) ->
  mapped_range s off n -> mapped_range s' off n.
Proof.
  intros Hip Hlen (Hoff & Hend & Hmap). split; [exact Hoff|]. split; [exact Hend|].
  intros bn Hbn. rewrite Hip, Hlen. apply Hmap, Hbn.
Qed.

Lemma chunk_value (n written off : Z) :
  0 <= written < n -> n < 2 ^ 32 ->
  s32 (Z.min (u32 (n - s32 written)) (u32 (BSIZE - off mod BSIZE)))
  = Z.min (n - written) (BSIZE - off mod BSIZE).
Proof.
  intros Hw Hn.
  pose proof (Z.mod_pos_bound off BSIZE BSIZE_pos) as Hmod.
  rewrite u32_sub_s32.
  rewrite (u32_small (n - written)) by lia.
  rewrite (u32_small (BSIZE - off mod BSIZE))
    by (change (2 ^ 32) with 4294967296; change (2 ^ 31) with 2147483648 in BSIZE_int; lia).
  apply s32_small. change (2 ^ 31) with 2147483648 in *. lia.
Qed.

(** The bytes of the file after one chunk was copied into its block. *)
Lemma chunk_written (src : Z -> Z) (off0 n written m : Z) (s s1 : fs) :
  mapped_range s off0 n -> 0 <= written -> written + m <= n ->
  1 <= m <= BSIZE - (off0 + written) mod BSIZE ->
  fs_ip s1 = fs_ip s ->
  fs_bufs s1 =
    upd (fs_bufs s) (addr_get (i_addrs (fs_ip s)) ((off0 + written) / BSIZE))
      (memmove_at (fs_bufs s (addr_get (i_addrs (fs_ip s)) ((off0 + written) / BSIZE)))
         (Z.to_nat ((off0 + written) mod BSIZE)) src written (Z.to_nat m)) ->
  (forall blk, length (fs_bufs s1 blk) = length (fs_bufs s blk)) /\
  forall o, off0 <= o < off0 + n ->
    file_byte s1 o =
      if decide (off0 + written <= o < off0 + written + m) then src (o - off0)
      else file_byte s o.
Proof.
  intros Hmap Hw Hwm Hm Hip Hbufs.
  pose proof Hmap as (Hoff & Hend & Hblocks).
  set (off := off0 + written) in *.
  pose proof (Z.mod_pos_bound off BSIZE BSIZE_pos) as Hmod.
  assert (Hbn : off0 / BSIZE <= off / BSIZE <= (off0 + n - 1) / BSIZE)
    by (apply block_in_range; unfold off; lia).
  destruct (Hblocks _ Hbn) as (Hnz & Hlong & Hinj).
  split.
  - intros blk. rewrite Hbufs. unfold upd.
    destruct (decide _) as [->|_]; [apply memmove_at_length | reflexivity].
  - intros o Ho. unfold file_byte. rewrite Hip, Hbufs. unfold upd.
    destruct (decide (addr_get (i_addrs (fs_ip s)) (o / BSIZE)
                      = addr_get (i_addrs (fs_ip s)) (off / BSIZE))) as [Ha|Ha].
    + assert (Hsame : o / BSIZE = off / BSIZE)
        by (apply Hinj; [apply block_in_range; lia | exact Ha]).
      pose proof (Z.mod_pos_bound o BSIZE BSIZE_pos) as Homod.
      assert (Hodm : o = BSIZE * (o / BSIZE) + o mod BSIZE) by (apply Z.div_mod; lia).
      assert (Hfdm : off = BSIZE * (off / BSIZE) + off mod BSIZE) by (apply Z.div_mod; lia).
      unfold byte_at. rewrite memmove_at_lookup by lia. rewrite Hsame in *.
      destruct (decide (off <= o < off + m)) as [Hin|Hout].
      * rewrite decide_True by lia. simpl. f_equal. unfold off in *. lia.
      * rewrite decide_False by lia. reflexivity.
    + rewrite decide_False; [reflexivity|].
      intros Hin. apply Ha.
      destruct (same_block off (o - off) ltac:(unfold off; lia) ltac:(lia)) as [Hd _].
      replace (off + (o - off)) with o in Hd by lia. rewrite Hd. reflexivity.
Qed.

Lemma writei_loop_mapped (src : Z -> Z) (off0 n : Z) (wb : bool) (fuel : nat) :
  0 <= n -> off0 + n < 2 ^ 32 ->
  forall (written : Z) (s : fs),
    mapped_range s off0 n -> 0 <= written <= n -> n - written <= Z.of_nat fuel ->
    exists s',
      writei_loop fuel src n wb (s32 written) (off0 + written) written s
        = (Ok (s32 n, Completed, n), s') /\
      fs_ip s' = fs_ip s /\ fs_alloc s' = fs_alloc s /\
      (forall blk, length (fs_bufs s' blk) = length (fs_bufs s blk)) /\
      forall o, off0 <= o < off0 + n ->
        file_byte s' o = if o <? off0 + written then file_byte s o else src (o - off0).
Proof.
  intros Hn Hsum. induction fuel as [|fuel IH]; intros written s Hmap Hw Hfuel;
    pose proof Hmap as (Hoff & Hend & Hblocks).
  - assert (written = n) by lia. subst written. exists s. simpl.
    rewrite u32_s32, u32_small by lia. rewrite Z.ltb_irrefl.
    repeat split; try reflexivity.
    intros o Ho. assert (Hlt : (o <? off0 + n) = true) by (apply Z.ltb_lt; lia).
    rewrite Hlt. reflexivity.
  - simpl. rewrite u32_s32, u32_small by lia.
    destruct (written <? n) eqn:Hlt.
    2:{ apply Z.ltb_ge in Hlt. assert (written = n) by lia. subst written. exists s.
        repeat split; try reflexivity.
        intros o Ho. assert (Hl : (o <? off0 + n) = true) by (apply Z.ltb_lt; lia).
        rewrite Hl. reflexivity. }
    apply Z.ltb_lt in Hlt.
    rewrite chunk_value by lia.
    pose proof (Z.mod_pos_bound (off0 + written) BSIZE BSIZE_pos) as Hmod.
    set (m := Z.min (n - written) (BSIZE - (off0 + written) mod BSIZE)) in *.
    assert (Hm : 1 <= m <= BSIZE - (off0 + written) mod BSIZE) by (unfold m; lia).
    assert (Hmn : written + m <= n) by (unfold m; lia).
    assert (Hbn : off0 / BSIZE <= (off0 + written) / BSIZE <= (off0 + n - 1) / BSIZE)
      by (apply block_in_range; lia).
    destruct (Hblocks _ Hbn) as (Hnz & _ & _).
    unfold bind at 1. unfold catch_out_of_blocks. unfold bind at 1.
    rewrite bmap_mapped
      by (first [exact Hnz | apply (mapped_range_direct s off0 n); [exact Hmap | lia]]).
    unfold ret at 1.
    rewrite (s32_add_l written m).
    rewrite (u32_small (off0 + written + m)) by lia.
    replace (off0 + written + m) with (off0 + (written + m)) by lia.
    set (a := addr_get (i_addrs (fs_ip s)) ((off0 + written) / BSIZE)) in *.
    set (d' := memmove_at (fs_bufs s a) (Z.to_nat ((off0 + written) mod BSIZE)) src written
                 (Z.to_nat m)).
    assert (Hnext : forall s1, fs_ip s1 = fs_ip s -> fs_alloc s1 = fs_alloc s ->
              fs_bufs s1 = upd (fs_bufs s) a d' ->
              exists s',
                writei_loop fuel src n wb (s32 (written + m)) (off0 + (written + m))
                  (written + m) s1 = (Ok (s32 n, Completed, n), s') /\
                fs_ip s' = fs_ip s /\ fs_alloc s' = fs_alloc s /\
                (forall blk, length (fs_bufs s' blk) = length (fs_bufs s blk)) /\
                forall o, off0 <= o < off0 + n ->
                  file_byte s' o = if o <? off0 + written then file_byte s o
                                   else src (o - off0)).
    { intros s1 Hip Hal Hbufs.
      destruct (chunk_written src off0 n written m s s1 Hmap ltac:(lia) Hmn Hm Hip Hbufs)
        as [Hlen1 Hbytes1].
      destruct (IH (written + m) s1) as (s' & Hrun & Hip' & Hal' & Hlen' & Hbytes');
        [exact (mapped_range_ext s s1 off0 n Hip Hlen1 Hmap) | lia | lia |].
      exists s'. split; [exact Hrun|]. split; [congruence|]. split; [congruence|].
      split; [intros blk; rewrite Hlen'; apply Hlen1|].
      intros o Ho. rewrite (Hbytes' o Ho), (Hbytes1 o Ho).
      destruct (o <? off0 + (written + m)) eqn:H1; destruct (o <? off0 + written) eqn:H2;
        try apply Z.ltb_lt in H1; try apply Z.ltb_ge in H1;
        try apply Z.ltb_lt in H2; try apply Z.ltb_ge in H2;
        try (rewrite decide_True by lia); try (rewrite decide_False by lia);
        try reflexivity; lia. }
    unfold bind, buf_read, buf_write, has_trans, gets, modify, when,
      buf_add_to_transaction, with_trans.
    cbn [fs_trans set_bufs fs_bufs].
    destruct (negb wb && bool_decide (is_Some (fs_trans s))); simpl; apply Hnext; reflexivity.
Qed.

Lemma readi_block_mapped (bn : Z) (s : fs) :
  0 <= bn < NDIRECT -> addr_get (i_addrs (fs_ip s)) bn <> 0 ->
  catch_out_of_blocks (without_trans (bmap bn true))
    (fail (Panic "readi: out of blocks")) s
  = (Ok (addr_get (i_addrs (fs_ip s)) bn), s).
Proof.
  intros Hbn Hnz. unfold catch_out_of_blocks, without_trans.
  rewrite (bmap_mapped bn true (set_trans None s)) by assumption.
  destruct s; reflexivity.
Qed.

(** On mapped blocks [readi]'s loop copies the bytes of the file and
    changes nothing. *)
Lemma readi_loop_mapped (off0 n : Z) (fuel : nat) :
  0 <= n -> off0 + n < 2 ^ 32 ->
  forall (tot : Z) (dst : list Z) (s : fs),
    mapped_range s off0 n -> 0 <= tot <= n -> n - tot <= Z.of_nat fuel ->
    readi_loop fuel n tot (off0 + tot) dst s
    = (Ok (dst ++ (file_byte s <$> seqZ (off0 + tot) (n - tot))), s).
Proof.
  intros Hn Hsum. induction fuel as [|fuel IH]; intros tot dst s Hmap Ht Hfuel;
    pose proof Hmap as (Hoff & Hend & Hblocks).
  - assert (tot = n) by lia. subst tot. simpl. rewrite Z.ltb_irrefl.
    rewrite seqZ_nil by lia. rewrite app_nil_r. reflexivity.
  - simpl. destruct (tot <? n) eqn:Hlt.
    2:{ apply Z.ltb_ge in Hlt. rewrite seqZ_nil by lia. rewrite app_nil_r. reflexivity. }
    apply Z.ltb_lt in Hlt.
    pose proof (Z.mod_pos_bound (off0 + tot) BSIZE BSIZE_pos) as Hmod.
    rewrite (u32_small (n - tot)) by lia.
    rewrite (u32_small (BSIZE - (off0 + tot) mod BSIZE))
      by (change (2 ^ 32) with 4294967296; change (2 ^ 31) with 2147483648 in BSIZE_int; lia).
    set (m := Z.min (n - tot) (BSIZE - (off0 + tot) mod BSIZE)) in *.
    assert (Hm : 1 <= m <= BSIZE - (off0 + tot) mod BSIZE) by (unfold m; lia).
    assert (Hmn : tot + m <= n) by (unfold m; lia).
    assert (Hbn : off0 / BSIZE <= (off0 + tot) / BSIZE <= (off0 + n - 1) / BSIZE)
      by (apply block_in_range; lia).
    destruct (Hblocks _ Hbn) as (Hnz & _ & _).
    unfold bind at 1.
    rewrite readi_block_mapped
      by (first [exact Hnz | apply (mapped_range_direct s off0 n); [exact Hmap | lia]]).
    unfold bind at 1, buf_read at 1, gets at 1.
    rewrite (u32_small (tot + m)) by lia.
    rewrite (u32_small (off0 + tot + m)) by lia.
    replace (off0 + tot + m) with (off0 + (tot + m)) by lia.
    rewrite IH by (first [exact Hmap | lia]).
    f_equal. f_equal. rewrite <- app_assoc. f_equal.
    replace (n - tot) with (m + (n - (tot + m))) by lia.
    rewrite seqZ_app by lia. rewrite fmap_app. f_equal; [|do 2 f_equal; lia].
    replace (seqZ (off0 + tot) m) with (Z.add (off0 + tot) <$> seqZ 0 m)
      by (rewrite fmap_add_seqZ; f_equal; lia).
    rewrite <- list_fmap_compose.
    apply list_fmap_ext. intros i x Hx. apply lookup_seqZ in Hx as [-> Hi].
    unfold compose, file_byte. rewrite Z.add_0_l.
    destruct (same_block (off0 + tot) (Z.of_nat i) ltac:(lia) ltac:(lia)) as [-> ->].
    reflexivity.
Qed.

(** X17. What [writei] writes, [readi] reads.  For bytes that lie inside the
    file and in direct blocks that are mapped already, [writei] copies all
    [n] bytes and returns [n], allocates nothing and leaves the inode alone;
    a [readi] of the same range then returns [n] and just the bytes written,
    and changes nothing. *)
Theorem writei_readi_round_trip (src : Z -> Z) (off n : Z) (wb : bool) (s : fs) :
  i_type (fs_ip s) <> T_DEV ->
  0 <= n -> off + n <= i_size (fs_ip s) -> i_size (fs_ip s) < 2 ^ 32 ->
  off + n <= MAXFILE * BSIZE ->
  mapped_range s off n ->
  exists s',
    writei src off n wb s = (Ok (s32 n), s') /\
    readi off n s' = (Ok (s32 n, src <$> seqZ 0 n), s') /\
    fs_ip s' = fs_ip s /\ fs_alloc s' = fs_alloc s.
Proof.
  intros Hnd Hn Hsize Hint Hmax Hmap. pose proof Hmap as (Hoff & Hend & Hblocks).
  apply Z.eqb_neq in Hnd.
  destruct (writei_loop_mapped src off n wb (Z.to_nat n) Hn ltac:(lia) 0 s Hmap
              ltac:(lia) ltac:(lia)) as (s' & Hrun & Hip & Hal & Hlen & Hbytes).
  change (s32 0) with 0 in Hrun. rewrite Z.add_0_r in Hrun.
  exists s'. split; [|split; [|split; assumption]].
  - unfold writei, writei_run. unfold bind at 1. unfold bind at 1, gets at 1.
    rewrite Hnd. rewrite (u32_small (off + n)) by lia.
    assert (Hw : (off + n <? off) = false) by (apply Z.ltb_ge; lia). rewrite Hw.
    assert (Hl : writei_len off n = n).
    { unfold writei_len. rewrite (u32_small (off + n)) by lia.
      pose proof (Zgt_cases (off + n) (MAXFILE * BSIZE)) as Hc.
      destruct (off + n >? MAXFILE * BSIZE); [lia | reflexivity]. }
    rewrite Hl, Hrun. reflexivity.
  - unfold readi. unfold bind at 1, gets at 1. rewrite Hip, Hnd.
    assert (Hg : (off >? i_size (fs_ip s)) = false).
    { pose proof (Zgt_cases off (i_size (fs_ip s))) as Hc.
      destruct (off >? i_size (fs_ip s)); [lia | reflexivity]. }
    rewrite Hg. rewrite (u32_small (off + n)) by lia.
    assert (Hw : (off + n <? off) = false) by (apply Z.ltb_ge; lia). rewrite Hw.
    cbn [orb].
    assert (Hc : (off + n >? i_size (fs_ip s)) = false).
    { pose proof (Zgt_cases (off + n) (i_size (fs_ip s))) as Hc.
      destruct (off + n >? i_size (fs_ip s)); [lia | reflexivity]. }
    rewrite Hc. unfold bind.
    pose proof (readi_loop_mapped off n (Z.to_nat n) Hn ltac:(lia) 0 [] s'
                  (mapped_range_ext s s' off n Hip Hlen Hmap) ltac:(lia) ltac:(lia)) as Hread.
    rewrite Z.add_0_r, Z.sub_0_r in Hread. rewrite Hread. unfold ret. simpl.
    do 3 f_equal.
    replace (seqZ off n) with (Z.add off <$> seqZ 0 n)
      by (rewrite fmap_add_seqZ; f_equal; lia).
    rewrite <- list_fmap_compose.
    apply list_fmap_ext. intros i x Hx. apply lookup_seqZ in Hx as [-> Hi].
    unfold compose. rewrite Z.add_0_l. rewrite (Hbytes (off + Z.of_nat i)) by lia.
    rewrite Z.add_0_r.
    assert (Hlt : (off + Z.of_nat i <? off) = false) by (apply Z.ltb_ge; lia).
    rewrite Hlt. f_equal. lia.
Qed.

End round_trip.

Lemma writei_readi_round_trip_witness :
  let s := set_bufs (fun _ => replicate 512 0)
             (sample_fs [true; true; true; true; true; true; true; true]
                (sample_inode 1024 (5 :: 6 :: replicate 10 0)) None) in
  exists s',
    @writei small_geometry (fun i => i + 1) 510 4 true s = (Ok 4, s') /\
    @readi small_geometry 510 4 s' = (Ok (4, [1; 2; 3; 4]), s').
Proof.
  cbv zeta.
  set (s := set_bufs (fun _ => replicate 512 0)
              (sample_fs [true; true; true; true; true; true; true; true]
                 (sample_inode 1024 (5 :: 6 :: replicate 10 0)) None)).
  assert (Hb : 0 < @BSIZE small_geometry) by reflexivity.
  assert (Hb31 : @BSIZE small_geometry < 2 ^ 31) by reflexivity.
  assert (Hnd : i_type (fs_ip s) <> @T_DEV small_geometry) by discriminate.
  assert (Hn : 0 <= 4) by discriminate.
  assert (Hsize : 510 + 4 <= i_size (fs_ip s)) by discriminate.
  assert (Hint : i_size (fs_ip s) < 2 ^ 32) by reflexivity.
  assert (Hmax : 510 + 4 <= @MAXFILE small_geometry * @BSIZE small_geometry) by discriminate.
  assert (Hmap : @mapped_range small_geometry s 510 4).
  { split; [discriminate|]. split; [discriminate|].
    intros bn Hbn. change (510 / @BSIZE small_geometry) with 0 in *.
    change ((510 + 4 - 1) / @BSIZE small_geometry) with 1 in *.
    assert (Hcases : bn = 0 \/ bn = 1) by lia.
    destruct Hcases as [-> | ->]; (split; [discriminate|]; split; [vm_compute; discriminate|]);
      intros bn' Hbn' Heq; assert (Hc' : bn' = 0 \/ bn' = 1) by lia;
      destruct Hc' as [-> | ->]; first [reflexivity | vm_compute in Heq; discriminate]. }
  destruct (@writei_readi_round_trip small_geometry Hb Hb31 (fun i => i + 1) 510 4 true s
              Hnd Hn Hsize Hint Hmax Hmap) as (s' & Hw & Hr & _).
  exists s'. split; [exact Hw | exact Hr].
Defined.

(** *** Inode allocation on the sample inode table *)

Lemma ialloc_scan_order_witness :
  ialloc 0 1 2 sample_icache = try_in_order 0 1 2 [1; 2; 3; 1; 2; 3] sample_icache.
Proof.
  assert (Hn : 0 < 4 < 2 ^ 31) by (split; reflexivity).
  assert (Hl : 0 <= default 0 (last_inode sample_icache !! 0%nat) + 1 < 2 ^ 31)
    by (split; [discriminate | reflexivity]).
  exact (ialloc_scan_order 0 1 2 4 Hn sample_icache eq_refl Hl).
Defined.

Lemma ialloc_unlocked_witness :
  exists ip, ins (ialloc 0 1 2 sample_icache).2 !! (1, 2) = Some ip /\ i_busy ip = false.
Proof.
  apply (ialloc_unlocked 0 1 2 sample_icache (ialloc 0 1 2 sample_icache).2 (1, 2)).
  vm_compute. reflexivity.
Defined.
